(** * Exercise-group reconciliation: resolver and applier

    A shallow embedding of the two programs under
    [inbrain-exercise-uploader]: the crossing resolver
    ([inbrain-exercise-uploader/main.go], second program of the file) and
    the resolution applier ([inbrain-exercise-uploader/csv_uploader/main.go]),
    followed by the properties of the specification that concern them.

    Conventions.
    - Go [int] is a 64-bit integer; it is a [Z] here and the only
      arithmetic the programs do on it (the [+ 1] on the group-id counter)
      is wrapped by [Go.wrap64].
    - A Go [map] is a [gmap]; a [map[int]bool] that only ever stores
      [true] is read with [Go.flag], which gives [false] on a missing key
      as Go does. [range] over a map visits every entry once in an order
      the language leaves open: each such loop takes the visiting order as
      an argument.
    - A slice is a [list]; [append] adds at the end. *)

From Stdlib Require Import ZArith Lia Ascii String.
From stdpp Require Import gmap strings list fin_maps sorting.

Open Scope Z_scope.

(** ** Go primitives *)

Module Go.

Definition wrap64 (z : Z) : Z := (z + 2 ^ 63) mod 2 ^ 64 - 2 ^ 63.

(** [m[k]] on a [map[int]bool]: the zero value [false] when [k] is absent. *)
Definition flag (m : gmap Z bool) (k : Z) : bool := default false (m !! k).

(** [m[k]] on a [map[int][]int]: the nil slice when [k] is absent. *)
Definition slice_at (m : gmap Z (list Z)) (k : Z) : list Z := default [] (m !! k).

(** Instances of the library functions the loader calls, for running it
    on examples: [strconv.Atoi] on an optional sign and decimal digits
    with the 64-bit range check and its clamped value, [strings.TrimSpace]
    on the ASCII white space, [strings.Split] on a one-character
    separator. The loader and its properties take these functions as
    arguments and hold for any. *)
Definition digitOf (c : ascii) : option Z :=
  let n := Z.of_nat (nat_of_ascii c) in
  if (48 <=? n) && (n <=? 57) then Some (n - 48) else None.

Fixpoint digitsValue (acc : Z) (s : string) : option Z :=
  match s with
  | EmptyString => Some acc
  | String c rest =>
      match digitOf c with
      | Some d => digitsValue (10 * acc + d) rest
      | None => None
      end
  end.

Definition decimalAtoi (s : string) : Z * bool :=
  let '(negative, body) :=
    match s with
    | String "-"%char rest => (true, rest)
    | String "+"%char rest => (false, rest)
    | _ => (false, s)
    end in
  match body with
  | EmptyString => (0, false)
  | _ =>
      match digitsValue 0 body with
      | None => (0, false)
      | Some v =>
          let v := if negative then - v else v in
          if v <? - 2 ^ 63 then (- 2 ^ 63, false)
          else if 2 ^ 63 - 1 <? v then (2 ^ 63 - 1, false)
          else (v, true)
      end
  end.

Definition isAsciiSpace (c : ascii) : bool :=
  let n := nat_of_ascii c in
  ((9 <=? n) && (n <=? 13))%nat || (n =? 32)%nat.

Fixpoint trimLeft (s : string) : string :=
  match s with
  | String c rest => if isAsciiSpace c then trimLeft rest else s
  | EmptyString => EmptyString
  end.

Fixpoint trimRight (s : string) : string :=
  match s with
  | EmptyString => EmptyString
  | String c rest =>
      match trimRight rest with
      | EmptyString => if isAsciiSpace c then EmptyString else String c EmptyString
      | rest' => String c rest'
      end
  end.

Definition asciiTrimSpace (s : string) : string := trimRight (trimLeft s).

Fixpoint splitAt (sep : ascii) (current : string) (s : string) : list string :=
  match s with
  | EmptyString => [String.rev current]
  | String c rest =>
      if Ascii.eqb c sep then String.rev current :: splitAt sep EmptyString rest
      else splitAt sep (String c current) rest
  end.

Definition splitOn (s sep : string) : list string :=
  match sep with
  | String c EmptyString => splitAt c EmptyString s
  | _ => [s]
  end.

End Go.

(** ** The resolver program *)

Module ExerciseGroup.
Record t := mk {
  ID : Z;
  ProblemIDs : list Z;
  ProblemVideos : list bool;
  Representative : Z;
  HasRepresentative : bool;
  RepresentativeHasVideo : bool
}.
End ExerciseGroup.

Module RepresentativeInfo.
Record t := mk {
  ProblemID : Z;
  HasSolutionVideo : bool;
  SelectionReason : string
}.
End RepresentativeInfo.

Module CrossingGroup.
Record t := mk {
  ID : Z;
  Intersection : list Z
}.
End CrossingGroup.

Module CrossingResult.
Record t := mk {
  NewGroupID : Z;
  BaseGroupID : Z;
  ProblemIDs : list Z;
  CrossingGroups : list CrossingGroup.t;
  Representative : Z;
  SelectionReason : string
}.
End CrossingResult.

Module Resolver.

(** [buildProblemIndex]: the inner loop over one group's members. *)
Definition indexGroup (index : gmap Z (list Z)) (group : ExerciseGroup.t)
  : gmap Z (list Z) :=
  foldl (fun index problemID =>
           <[problemID := Go.slice_at index problemID ++ [ExerciseGroup.ID group]]> index)
        index (ExerciseGroup.ProblemIDs group).

(** [buildProblemIndex], visiting the entries of [groups] in [order]. *)
Definition buildProblemIndex_in (order : list (Z * ExerciseGroup.t))
  : gmap Z (list Z) :=
  foldl (fun index entry => indexGroup index (snd entry)) ∅ order.

Definition buildProblemIndex (groups : gmap Z ExerciseGroup.t) : gmap Z (list Z) :=
  buildProblemIndex_in (map_to_list groups).

(** [findIntersection]: both maps are [map[int]bool]. *)
Definition elementMapOf (slice1 : list Z) : gmap Z bool :=
  foldl (fun elementMap v => <[v := true]> elementMap) ∅ slice1.

Definition intersectStep (elementMap : gmap Z bool)
    (st : list Z * gmap Z bool) (v : Z) : list Z * gmap Z bool :=
  let '(intersection, seen) := st in
  if Go.flag elementMap v && negb (Go.flag seen v)
  then (intersection ++ [v], <[v := true]> seen)
  else (intersection, seen).

Definition findIntersection (slice1 slice2 : list Z) : list Z :=
  fst (foldl (intersectStep (elementMapOf slice1)) ([], ∅) slice2).

(** [getMaxGroupID]: the maximum of the keys and 0. *)
Definition getMaxGroupID_in (ids : list Z) : Z :=
  foldl (fun maxID id => if maxID <? id then id else maxID) 0 ids.

Definition getMaxGroupID (groups : gmap Z ExerciseGroup.t) : Z :=
  getMaxGroupID_in (fst <$> map_to_list groups).

(** [processGroup], first loop: the existing groups that contain some
    member of [newGroup], as a [map[int]bool]. *)
Definition relatedGroupIDs (newGroup : list Z) (problemIndex : gmap Z (list Z))
  : gmap Z bool :=
  foldl (fun related problemID =>
           match problemIndex !! problemID with
           | Some groupIDs =>
               foldl (fun related groupID => <[groupID := true]> related)
                     related groupIDs
           | None => related
           end)
        ∅ newGroup.

(** [processGroup], second loop, over the keys of [relatedGroupIDs] in
    [order]; the state is [(crossingGroups, baseGroupID)]. *)
Definition crossingStep (newGroup : list Z) (existingGroups : gmap Z ExerciseGroup.t)
    (st : list CrossingGroup.t * Z) (groupID : Z) : list CrossingGroup.t * Z :=
  let '(crossingGroups, baseGroupID) := st in
  match existingGroups !! groupID with
  | Some group =>
      let intersection := findIntersection newGroup (ExerciseGroup.ProblemIDs group) in
      if (0 <? length intersection)%nat
      then (crossingGroups ++ [CrossingGroup.mk groupID intersection],
            if baseGroupID <? groupID then groupID else baseGroupID)
      else (crossingGroups, baseGroupID)
  | None => (crossingGroups, baseGroupID)
  end.

Definition crossingsOf (order : list Z) (newGroup : list Z)
    (existingGroups : gmap Z ExerciseGroup.t) : list CrossingGroup.t * Z :=
  foldl (crossingStep newGroup existingGroups) ([], 0) order.

(** The selection-reason tags, verbatim. *)
Definition reasonEmpty : string := "빈 그룹".
Definition reasonExisting : string := "기존 대표 문제".
Definition reasonCarriedVideo : string := "기존 대표 문제가 새 그룹에 포함됨 (비디오 있음)".
Definition reasonCarried : string := "기존 대표 문제가 새 그룹에 포함됨".
Definition reasonNoCrossing : string := "교차 없음 - 가장 높은 ID 선택".
Definition reasonNoRepresentative : string := "기존 대표 문제가 없어서 가장 높은 ID 선택".
Definition reasonNotMember : string :=
  "기존 대표 문제가 새 그룹에 포함되지 않아서 가장 높은 ID 선택".

(** The [highest] loop shared by both programs. *)
Definition highestFrom (first : Z) (ids : list Z) : Z :=
  foldl (fun highest id => if highest <? id then id else highest) first ids.

(** [selectBestFromNewGroup]; [None] is the index panic of [newGroup[0]]
    on an empty slice. *)
Definition selectBestFromNewGroup (newGroup : list Z)
    (crossingGroups : list CrossingGroup.t)
    (existingRepresentatives : list RepresentativeInfo.t) : option (Z * string) :=
  match newGroup with
  | [] => None
  | first :: _ =>
      let highest := highestFrom first newGroup in
      let reason :=
        if (length crossingGroups =? 0)%nat then reasonNoCrossing
        else if (length existingRepresentatives =? 0)%nat then reasonNoRepresentative
        else reasonNotMember in
      Some (highest, reason)
  end.

(** [selectBestRepresentative], first loop. *)
Definition collectRepresentatives (crossingGroups : list CrossingGroup.t)
    (existingGroups : gmap Z ExerciseGroup.t) : list RepresentativeInfo.t :=
  foldl (fun reps crossing =>
           match existingGroups !! CrossingGroup.ID crossing with
           | Some group =>
               if ExerciseGroup.HasRepresentative group
                  && (0 <? ExerciseGroup.Representative group)
               then reps ++ [RepresentativeInfo.mk
                               (ExerciseGroup.Representative group)
                               (ExerciseGroup.RepresentativeHasVideo group)
                               reasonExisting]
               else reps
           | None => reps
           end)
        [] crossingGroups.

(** [selectBestRepresentative], second (nested) loop. *)
Definition collectCandidates (newGroup : list Z)
    (existingRepresentatives : list RepresentativeInfo.t) : list RepresentativeInfo.t :=
  foldl (fun candidates rep =>
           foldl (fun candidates problemID =>
                    if problemID =? RepresentativeInfo.ProblemID rep
                    then candidates ++ [rep] else candidates)
                 candidates newGroup)
        [] existingRepresentatives.

(** The [for ... if rep.HasSolutionVideo { return ... }] loop. *)
Fixpoint firstWithVideo (candidates : list RepresentativeInfo.t)
  : option RepresentativeInfo.t :=
  match candidates with
  | [] => None
  | rep :: rest =>
      if RepresentativeInfo.HasSolutionVideo rep then Some rep
      else firstWithVideo rest
  end.

Definition selectBestRepresentative (newGroup : list Z)
    (crossingGroups : list CrossingGroup.t)
    (existingGroups : gmap Z ExerciseGroup.t) : option (Z * string) :=
  if (length newGroup =? 0)%nat then Some (0, reasonEmpty)
  else
    let existingRepresentatives := collectRepresentatives crossingGroups existingGroups in
    let candidateRepresentatives := collectCandidates newGroup existingRepresentatives in
    match candidateRepresentatives with
    | first :: _ =>
        match firstWithVideo candidateRepresentatives with
        | Some rep => Some (RepresentativeInfo.ProblemID rep, reasonCarriedVideo)
        | None => Some (RepresentativeInfo.ProblemID first, reasonCarried)
        end
    | [] => selectBestFromNewGroup newGroup crossingGroups existingRepresentatives
    end.

(** [processGroup] run by a single goroutine: [*nextGroupID] goes in and
    comes out. [iter] is the order in which [range relatedGroupIDs]
    visits the keys. *)
Definition processGroup (iter : gmap Z bool -> list Z) (newGroup : list Z)
    (problemIndex : gmap Z (list Z)) (existingGroups : gmap Z ExerciseGroup.t)
    (nextGroupID : Z) : option CrossingResult.t * Z :=
  let related := relatedGroupIDs newGroup problemIndex in
  let '(crossingGroups, baseGroupID) := crossingsOf (iter related) newGroup existingGroups in
  let newGroupID := nextGroupID in
  let nextGroupID := Go.wrap64 (nextGroupID + 1) in
  (match selectBestRepresentative newGroup crossingGroups existingGroups with
   | Some (representative, selectionReason) =>
       Some (CrossingResult.mk newGroupID baseGroupID newGroup crossingGroups
               representative selectionReason)
   | None => None
   end, nextGroupID).

(** *** The worker pool

    [processGroups] starts [numWorkers] goroutines that share the job
    channel, the result channel and the counter [nextGroupID], which
    [processGroup] reads with [newGroupID := *nextGroupID] and updates
    with [*nextGroupID++]: a load, then a load and a store, with nothing
    that orders them between goroutines. A worker is at one of these
    points; a schedule is the list of worker numbers in the order in which
    they take their next step. Both channels are buffered with room for
    every grouping, so no send blocks, and the jobs are the indices
    [0 .. len(newGroups)-1] in order. The progress line a worker prints
    every thousandth job is left out. *)

Inductive Worker :=
| Receiving
| Reading (newGroup : list Z) (crossingGroups : list CrossingGroup.t) (baseGroupID : Z)
| Incrementing (newGroup : list Z) (crossingGroups : list CrossingGroup.t)
    (baseGroupID : Z) (newGroupID : Z)
| Storing (newGroup : list Z) (crossingGroups : list CrossingGroup.t)
    (baseGroupID : Z) (newGroupID : Z) (loaded : Z)
| Finished
| Panicked.

Record Pool := mkPool {
  jobs : list nat;
  nextGroupID : Z;
  workers : list Worker;
  resultsChan : list CrossingResult.t
}.

Section Pool.

Variable iter : gmap Z bool -> list Z.
Variable newGroups : list (list Z).
Variable problemIndex : gmap Z (list Z).
Variable existingGroups : gmap Z ExerciseGroup.t.

Definition setWorker (p : Pool) (w : nat) (state : Worker) : Pool :=
  mkPool (jobs p) (nextGroupID p) (<[w := state]> (workers p)) (resultsChan p).

(** One step of worker [w]. *)
Definition step (p : Pool) (w : nat) : Pool :=
  match workers p !! w with
  | Some Receiving =>
      match jobs p with
      | [] => setWorker p w Finished
      | i :: rest =>
          let p := mkPool rest (nextGroupID p) (workers p) (resultsChan p) in
          match newGroups !! i with
          | None => setWorker p w Panicked
          | Some newGroup =>
              if (length newGroup =? 0)%nat then p
              else
                let related := relatedGroupIDs newGroup problemIndex in
                let '(crossingGroups, baseGroupID) :=
                  crossingsOf (iter related) newGroup existingGroups in
                setWorker p w (Reading newGroup crossingGroups baseGroupID)
          end
      end
  | Some (Reading newGroup crossingGroups baseGroupID) =>
      setWorker p w (Incrementing newGroup crossingGroups baseGroupID (nextGroupID p))
  | Some (Incrementing newGroup crossingGroups baseGroupID newGroupID) =>
      setWorker p w (Storing newGroup crossingGroups baseGroupID newGroupID (nextGroupID p))
  | Some (Storing newGroup crossingGroups baseGroupID newGroupID loaded) =>
      match selectBestRepresentative newGroup crossingGroups existingGroups with
      | Some (representative, selectionReason) =>
          mkPool (jobs p) (Go.wrap64 (loaded + 1)) (<[w := Receiving]> (workers p))
                 (resultsChan p ++
                    [CrossingResult.mk newGroupID baseGroupID newGroup crossingGroups
                       representative selectionReason])
      | None =>
          mkPool (jobs p) (Go.wrap64 (loaded + 1)) (<[w := Panicked]> (workers p))
                 (resultsChan p)
      end
  | Some Finished | Some Panicked | None => p
  end.

Definition startPool (numWorkers : nat) : Pool :=
  mkPool (seq 0 (length newGroups))
         (Go.wrap64 (getMaxGroupID existingGroups + 1))
         (replicate numWorkers Receiving) [].

Definition runPool (schedule : list nat) (p : Pool) : Pool := foldl step p schedule.

Definition allFinished (p : Pool) : bool :=
  forallb (fun w => match w with Finished => true | _ => false end) (workers p).

Definition byNewGroupID (a b : CrossingResult.t) : Prop :=
  CrossingResult.NewGroupID a <= CrossingResult.NewGroupID b.

#[local] Instance byNewGroupID_dec a b : Decision (byNewGroupID a b).
Proof. unfold byNewGroupID. apply _. Defined.

(** [processGroups] under a schedule: once every worker has left its
    loop the results are collected and sorted by [NewGroupID]
    ([sort.Slice] promises no order among equal ids; the merge sort here
    keeps the order of arrival). [None]
    when the schedule stops before that. *)
Definition processGroups_with (numWorkers : nat) (schedule : list nat)
  : option (list CrossingResult.t) :=
  let p := runPool schedule (startPool numWorkers) in
  if allFinished p then Some (merge_sort byNewGroupID (resultsChan p)) else None.

Definition numWorkers : nat := 8.

Definition processGroups (schedule : list nat) : option (list CrossingResult.t) :=
  processGroups_with numWorkers schedule.

End Pool.

(** *** The snapshot loader

    [loadExerciseGroups] reads records from a [csv.Reader]; what the
    reader hands over is the input here: a record, or an error (the end of
    the file is the end of the list). [strconv.Atoi] returns a value and
    whether it succeeded; it, [strings.TrimSpace] and [strings.Split] are
    library functions and stay abstract. *)

Inductive Read :=
| Row (record : list string)
| ReadError.

Inductive Loaded :=
| Groups (groups : gmap Z ExerciseGroup.t)
| LoadError
| IndexPanic.

Section Loader.

Variable Atoi : string -> Z * bool.
Variable TrimSpace : string -> string.
Variable Split : string -> string -> list string.

Definition nonEmpty (s : string) : bool := negb (String.eqb s "").

Definition parseProblemEntries (problemStrs : list string) : list Z :=
  foldl (fun problemIDs problemStr =>
           let '(problemID, ok) := Atoi (TrimSpace problemStr) in
           if ok then problemIDs ++ [problemID] else problemIDs)
        [] problemStrs.

Definition parseVideoEntries (videoStrs : list string) : list bool :=
  foldl (fun problemVideos videoStr =>
           problemVideos ++ [String.eqb (TrimSpace videoStr) "true"])
        [] videoStrs.

(** The fields of a row after the group id; [None] is the index panic of
    [record[1]] on a one-field record. *)
Definition groupOfRecord (groupID : Z) (record : list string) : option ExerciseGroup.t :=
  match record !! 1%nat with
  | None => None
  | Some members =>
      let problemIDs :=
        if nonEmpty members then parseProblemEntries (Split members ",") else [] in
      let problemVideos :=
        match record !! 2%nat with
        | Some videos =>
            if nonEmpty videos then parseVideoEntries (Split videos ",") else []
        | None => []
        end in
      let representative :=
        match record !! 3%nat with
        | Some rep => if nonEmpty rep then fst (Atoi rep) else 0
        | None => 0
        end in
      let hasRepresentative :=
        match record !! 4%nat with
        | Some flag => String.eqb flag "true"
        | None => false
        end in
      let representativeHasVideo :=
        match record !! 5%nat with
        | Some flag => String.eqb flag "true"
        | None => false
        end in
      Some (ExerciseGroup.mk groupID problemIDs problemVideos representative
              hasRepresentative representativeHasVideo)
  end.

(** The body of the read loop for one record. *)
Definition loadRecord (groups : gmap Z ExerciseGroup.t) (record : list string)
  : option (gmap Z ExerciseGroup.t) :=
  match record !! 0%nat with
  | None => None
  | Some first =>
      let '(groupID, ok) := Atoi first in
      if ok then
        match groupOfRecord groupID record with
        | Some group => Some (<[groupID := group]> groups)
        | None => None
        end
      else Some groups
  end.

Fixpoint loadRecords (groups : gmap Z ExerciseGroup.t) (reads : list Read) : Loaded :=
  match reads with
  | [] => Groups groups
  | ReadError :: _ => LoadError
  | Row record :: rest =>
      match loadRecord groups record with
      | Some groups => loadRecords groups rest
      | None => IndexPanic
      end
  end.

(** The first read is the header; failing it (an empty file too) is an error. *)
Definition loadExerciseGroups (reads : list Read) : Loaded :=
  match reads with
  | [] | ReadError :: _ => LoadError
  | Row _ :: rest => loadRecords ∅ rest
  end.

End Loader.

End Resolver.

(** ** The applier program

    The applier talks to PostgreSQL through [database/sql]. The two tables
    it touches are lists of rows with the columns its statements mention;
    [updated_at] and the row contents it never reads are left out, and
    [deleted_at] is kept as "is not NULL". The text of
    [metadata->>'mathflatProblemId'] is the decimal rendering of an
    integer (the uploader stores [problemIDInt]), so the column is a [Z]
    and comparing it with [strconv.Itoa(problemID)] is comparing integers.
    A [SELECT] returns the matching rows in table order, [LIMIT 1] the
    first of them.

    Any statement may fail (every call site checks [err]). The connection
    carries a budget of statements that still succeed ([None]: all of
    them); once it is used up every later statement fails, as on a dropped
    connection or an aborted transaction. *)

Module Applier.

Record Exercise := mkExercise {
  id : Z;
  mathflatProblemId : Z;
  category_id : Z;
  exercise_group_id : option Z;
  is_representative : bool;
  solution_video_id : option Z;
  deleted_at : bool
}.

Record ExerciseGroupRow := mkGroupRow {
  group_id : Z;
  group_category_id : Z;
  group_deleted_at : bool
}.

Record Tables := mkTables {
  exercises : list Exercise;
  exercise_groups : list ExerciseGroupRow
}.

(** What the program prints. *)
Inductive Output :=
| WarningSkippingGroup (newGroupID : Z)
| ProcessedBatch (first last : Z) (done total : nat).

Inductive Error :=
| DriverError
| Errorf (format : string) (args : list Z) (cause : Error).

(** The state a statement runs in: the tables as the transaction sees
    them, the sequence behind [exercise_groups.id], the statement budget
    and the standard output. *)
Record State := mkState {
  tables : Tables;
  groupSerial : Z;
  budget : option nat;
  stdout : list Output
}.

Definition M (A : Type) : Type := State -> (Error + A) * State.

Definition ret {A} (a : A) : M A := fun s => (inr a, s).

Definition bind {A B} (m : M A) (k : A -> M B) : M B :=
  fun s => match m s with
           | (inl e, s') => (inl e, s')
           | (inr a, s') => k a s'
           end.

Definition fail {A} (e : Error) : M A := fun s => (inl e, s).

Notation "'let*' x ':=' m 'in' k" := (bind m (fun x => k))
  (at level 10, x pattern, m at level 100, k at level 200).

(** Run [m] and hand its error to the caller as a value. *)
Definition attempt {A} (m : M A) : M (Error + A) :=
  fun s => let '(r, s') := m s in (inr r, s').

(** Wrap the error of [m] as [fmt.Errorf(format, args..., err)] does. *)
Definition wrapping {A} (format : string) (args : list Z) (m : M A) : M A :=
  fun s => match m s with
           | (inl e, s') => (inl (Errorf format args e), s')
           | r => r
           end.

(** One round trip to the server. *)
Definition roundTrip : M unit :=
  fun s => match budget s with
           | None => (inr tt, s)
           | Some (S n) => (inr tt, mkState (tables s) (groupSerial s) (Some n) (stdout s))
           | Some O => (inl DriverError, s)
           end.

Definition getTables : M Tables := fun s => (inr (tables s), s).

Definition setExercises (rows : list Exercise) : M unit :=
  fun s => (inr tt, mkState (mkTables rows (exercise_groups (tables s)))
                            (groupSerial s) (budget s) (stdout s)).

Definition setGroups (rows : list ExerciseGroupRow) : M unit :=
  fun s => (inr tt, mkState (mkTables (exercises (tables s)) rows)
                            (groupSerial s) (budget s) (stdout s)).

Definition nextval : M Z :=
  fun s => (inr (groupSerial s),
            mkState (tables s) (groupSerial s + 1) (budget s) (stdout s)).

Definition print (o : Output) : M unit :=
  fun s => (inr tt, mkState (tables s) (groupSerial s) (budget s) (stdout s ++ [o])).

(** The [WHERE] clauses. *)
Definition live (e : Exercise) : bool := negb (deleted_at e).

Definition isProblem (problemID : Z) (e : Exercise) : bool :=
  (mathflatProblemId e =? problemID) && live e.

Definition inGroup (groupID : Z) (e : Exercise) : bool :=
  match exercise_group_id e with
  | Some g => g =? groupID
  | None => false
  end.

Definition hasVideo (e : Exercise) : bool :=
  match solution_video_id e with Some _ => true | None => false end.

(** The [SET] clauses. *)
Definition withGroup (groupID : Z) (e : Exercise) : Exercise :=
  mkExercise (id e) (mathflatProblemId e) (category_id e) (Some groupID)
             (is_representative e) (solution_video_id e) (deleted_at e).

Definition withRepresentative (b : bool) (e : Exercise) : Exercise :=
  mkExercise (id e) (mathflatProblemId e) (category_id e) (exercise_group_id e)
             b (solution_video_id e) (deleted_at e).

Definition update {A} (P : A -> bool) (f : A -> A) (rows : list A) : list A :=
  (fun row => if P row then f row else row) <$> rows.

(** [getCategoryIDFromProblem]: 0 on [sql.ErrNoRows]. *)
Definition getCategoryIDFromProblem (problemID : Z) : M Z :=
  wrapping "failed to get category ID from problem %d: %w" [problemID]
    (let* _ := roundTrip in
     let* t := getTables in
     match List.filter (isProblem problemID) (exercises t) with
     | [] => ret 0
     | e :: _ => ret (category_id e)
     end).

(** [createExerciseGroup]: the new row takes its id from the sequence. *)
Definition createExerciseGroup (categoryID : Z) : M Z :=
  wrapping "failed to create exercise group: %w" []
    (let* _ := roundTrip in
     let* groupID := nextval in
     let* t := getTables in
     let* _ := setGroups (exercise_groups t ++ [mkGroupRow groupID categoryID false]) in
     ret groupID).

Definition markGroupAsDeleted (groupID : Z) : M unit :=
  wrapping "failed to mark group %d as deleted: %w" [groupID]
    (let* _ := roundTrip in
     let* t := getTables in
     setGroups (update (fun g => group_id g =? groupID)
                       (fun g => mkGroupRow (group_id g) (group_category_id g) true)
                       (exercise_groups t))).

Fixpoint updateExercisesGroup (problemIDs : list Z) (newGroupID : Z) : M unit :=
  match problemIDs with
  | [] => ret tt
  | problemID :: rest =>
      let* _ := wrapping "failed to update exercise %d group: %w" [problemID]
                  (let* _ := roundTrip in
                   let* t := getTables in
                   setExercises (update (isProblem problemID) (withGroup newGroupID)
                                        (exercises t))) in
      updateExercisesGroup rest newGroupID
  end.

Definition setRepresentativeExercise (problemID : Z) (groupID : Z) : M unit :=
  let* _ := wrapping "failed to clear representative flags: %w" []
              (let* _ := roundTrip in
               let* t := getTables in
               setExercises (update (fun e => inGroup groupID e && live e)
                                    (withRepresentative false) (exercises t))) in
  wrapping "failed to set representative exercise %d: %w" [problemID]
    (let* _ := roundTrip in
     let* t := getTables in
     setExercises (update (fun e => isProblem problemID e && inGroup groupID e)
                          (withRepresentative true) (exercises t))).

Module RepresentativeInfo.
Record t := mk {
  ExerciseID : Z;
  ProblemID : Z;
  HasSolutionVideo : bool
}.
End RepresentativeInfo.

(** The rows of the representative query for one crossed group. *)
Definition representativeRows (groupID : Z) (t : Tables) : list RepresentativeInfo.t :=
  (fun e => RepresentativeInfo.mk (id e) (mathflatProblemId e) (hasVideo e))
    <$> List.filter (fun e => inGroup groupID e && is_representative e && live e)
                    (exercises t).

(** [selectBestRepresentative], the collecting loop. *)
Fixpoint collectRepresentatives (crossingGroups : list CrossingGroup.t)
    (existingRepresentatives : list RepresentativeInfo.t)
  : M (list RepresentativeInfo.t) :=
  match crossingGroups with
  | [] => ret existingRepresentatives
  | crossing :: rest =>
      let* rows := wrapping "failed to query existing representatives: %w" []
                     (let* _ := roundTrip in
                      let* t := getTables in
                      ret (representativeRows (CrossingGroup.ID crossing) t)) in
      collectRepresentatives rest (existingRepresentatives ++ rows)
  end.

(** The two nested loops over the representatives and the members: the
    first returns at a match that has a video, the second at any match. *)
Fixpoint carriedWithVideo (problemIDs : list Z)
    (existingRepresentatives : list RepresentativeInfo.t) : option Z :=
  match existingRepresentatives with
  | [] => None
  | rep :: rest =>
      if existsb (fun problemID =>
                    (problemID =? RepresentativeInfo.ProblemID rep)
                    && RepresentativeInfo.HasSolutionVideo rep) problemIDs
      then Some (RepresentativeInfo.ProblemID rep)
      else carriedWithVideo problemIDs rest
  end.

Fixpoint carried (problemIDs : list Z)
    (existingRepresentatives : list RepresentativeInfo.t) : option Z :=
  match existingRepresentatives with
  | [] => None
  | rep :: rest =>
      if existsb (fun problemID => problemID =? RepresentativeInfo.ProblemID rep) problemIDs
      then Some (RepresentativeInfo.ProblemID rep)
      else carried problemIDs rest
  end.

(** The video query for one member; its error is only compared with nil. *)
Definition queryHasVideo (problemID : Z) : M (option bool) :=
  let* _ := roundTrip in
  let* t := getTables in
  match List.filter (isProblem problemID) (exercises t) with
  | [] => ret None
  | e :: _ => ret (Some (hasVideo e))
  end.

Fixpoint firstMemberWithVideo (problemIDs : list Z) : M (option Z) :=
  match problemIDs with
  | [] => ret None
  | problemID :: rest =>
      let* r := attempt (queryHasVideo problemID) in
      match r with
      | inr (Some true) => ret (Some problemID)
      | _ => firstMemberWithVideo rest
      end
  end.

Definition highest (problemIDs : list Z) : Z :=
  match problemIDs with
  | [] => 0
  | first :: _ => Resolver.highestFrom first problemIDs
  end.

Definition selectBestRepresentative (problemIDs : list Z)
    (crossingGroups : list CrossingGroup.t) : M Z :=
  if (length problemIDs =? 0)%nat then ret 0
  else if (length crossingGroups =? 0)%nat then ret (highest problemIDs)
  else
    let* existingRepresentatives := collectRepresentatives crossingGroups [] in
    match carriedWithVideo problemIDs existingRepresentatives with
    | Some problemID => ret problemID
    | None =>
        match carried problemIDs existingRepresentatives with
        | Some problemID => ret problemID
        | None =>
            let* found := firstMemberWithVideo problemIDs in
            match found with
            | Some problemID => ret problemID
            | None => ret (highest problemIDs)
            end
        end
    end.

(** [processResult], the category loop: the last value of [categoryID]. *)
Fixpoint findCategoryID (problemIDs : list Z) : M Z :=
  match problemIDs with
  | [] => ret 0
  | problemID :: rest =>
      let* categoryID := getCategoryIDFromProblem problemID in
      if categoryID =? 0 then findCategoryID rest else ret categoryID
  end.

Fixpoint markCrossingGroups (crossingGroups : list CrossingGroup.t) : M unit :=
  match crossingGroups with
  | [] => ret tt
  | crossingGroup :: rest =>
      let* _ := markGroupAsDeleted (CrossingGroup.ID crossingGroup) in
      markCrossingGroups rest
  end.

Definition processResult (result : CrossingResult.t) : M unit :=
  if (length (CrossingResult.ProblemIDs result) =? 0)%nat then ret tt
  else
    let* categoryID := findCategoryID (CrossingResult.ProblemIDs result) in
    if categoryID =? 0 then
      print (WarningSkippingGroup (CrossingResult.NewGroupID result))
    else
      let* newGroupID := createExerciseGroup categoryID in
      let* _ := markCrossingGroups (CrossingResult.CrossingGroups result) in
      let* _ := updateExercisesGroup (CrossingResult.ProblemIDs result) newGroupID in
      let* representative :=
        selectBestRepresentative (CrossingResult.ProblemIDs result)
                                 (CrossingResult.CrossingGroups result) in
      if representative =? 0 then ret tt
      else setRepresentativeExercise representative newGroupID.

(** The loop of [processBatch] inside the transaction. *)
Fixpoint processResults (batch : list CrossingResult.t) : M unit :=
  match batch with
  | [] => ret tt
  | result :: rest =>
      let* _ := wrapping "failed to process result %d: %w"
                  [CrossingResult.NewGroupID result] (processResult result) in
      processResults rest
  end.

(** Leaving the transaction without a commit: the tables are those of
    its start; the sequence, the connection and the output are not part
    of it. *)
Definition rollback (before : Tables) (s : State) : State :=
  mkState before (groupSerial s) (budget s) (stdout s).

(** [processBatch]: [BeginTx], the loop, [Commit], with the deferred
    [Rollback] on every early return. *)
Definition processBatch (batch : list CrossingResult.t) : M unit :=
  fun s =>
    match roundTrip s with
    | (inl e, s1) => (inl e, s1)
    | (inr _, s1) =>
        match processResults batch s1 with
        | (inl e, s2) => (inl e, rollback (tables s) s2)
        | (inr _, s2) =>
            match roundTrip s2 with
            | (inl e, s3) => (inl e, rollback (tables s) s3)
            | (inr _, s3) => (inr tt, s3)
            end
        end
    end.

Definition batchSize : nat := 1000.

(** [uploadResults]: [i] is the start of the batch, [total] is
    [len(results)], [remaining] is [results[i:]]; [fuel] bounds the number
    of batches. *)
Fixpoint uploadFrom (size : nat) (fuel : nat) (i total : nat)
    (remaining : list CrossingResult.t) : M unit :=
  match fuel, remaining with
  | _, [] => ret tt
  | O, _ => ret tt
  | S fuel, _ =>
      let batch := take size remaining in
      let end_ := (i + length batch)%nat in
      let* _ := wrapping "failed to process batch %d-%d: %w"
                  [Z.of_nat i; Z.of_nat end_ - 1] (processBatch batch) in
      let* _ := print (ProcessedBatch (Z.of_nat i) (Z.of_nat end_ - 1) end_ total) in
      uploadFrom size fuel end_ total (drop size remaining)
  end.

Definition uploadResults_by (size : nat) (results : list CrossingResult.t) : M unit :=
  uploadFrom size (length results) 0 (length results) results.

Definition uploadResults (results : list CrossingResult.t) : M unit :=
  uploadResults_by batchSize results.

End Applier.

(** * The sequence files of the uploader

    [inbrain-exercise-uploader/main.go] keeps, per category, a text file
    with one name per line; the position of a name among the non-blank
    lines is its sequence. A file does not exist, cannot be opened, or has
    a text. [bufio.Scanner] is the parameter [scan]: the lines it yields
    for a text, and whether its [Err] is set at the end;
    [strings.TrimSpace] is a parameter as well. Writing goes through
    [os.Create], which may fail and then leaves the file as it is; a
    failure in the middle of the writes is not modelled. The counter
    counts lines held in memory and is a [nat]. *)

Module Sequences.

Inductive File :=
| NotExist
| Unreadable
| Content (text : string).

Record Disk := mkDisk {
  file : File;
  createFails : bool
}.

Inductive Outcome :=
| Sequence (seq : nat)
| Failed
| IndexPanic.

Inductive Saved :=
| SaveOk (d : Disk)
| SaveError
| SavePanic.

Definition newline : string := String "010"%char EmptyString.

Definition isEmpty (s : string) : bool := String.eqb s "".

(** [saveSequenceMap], the loop [items[seq] = name] over the map in the
    order [entries]; [None] is the index panic. *)
Fixpoint placeItems (items : list string) (entries : list (string * nat))
  : option (list string) :=
  match entries with
  | [] => Some items
  | (name, seq) :: rest =>
      if (seq <? length items)%nat then placeItems (<[seq := name]> items) rest
      else None
  end.

(** The writes of [saveSequenceMap]: [item + "\n"] for each item that is
    not empty. *)
Fixpoint written (items : list string) : string :=
  match items with
  | [] => EmptyString
  | item :: rest =>
      if isEmpty item then written rest
      else String.append item (String.append newline (written rest))
  end.

Section Sequences.

Variable TrimSpace : string -> string.
Variable scan : string -> list string * bool.
Variable iter : gmap string nat -> list (string * nat).

(** The scanning loop of [loadSequenceMap]: the map and [sequence]. *)
Definition scanLine (st : gmap string nat * nat) (text : string)
  : gmap string nat * nat :=
  let '(sequenceMap, sequence) := st in
  let line := TrimSpace text in
  if isEmpty line then (sequenceMap, sequence)
  else (<[line := sequence]> sequenceMap, S sequence).

(** [loadSequenceMap]: the map (empty for the nil map) and whether an
    error is returned with it. *)
Definition loadSequenceMap (f : File) : gmap string nat * bool :=
  match f with
  | NotExist => (∅, false)
  | Unreadable => (∅, true)
  | Content text =>
      let '(lines, scanError) := scan text in
      (fst (foldl scanLine (∅, 0%nat) lines), scanError)
  end.

Definition saveSequenceMap (d : Disk) (sequenceMap : gmap string nat) : Saved :=
  match placeItems (replicate (size sequenceMap) ""%string) (iter sequenceMap) with
  | None => SavePanic
  | Some items =>
      if createFails d then SaveError
      else SaveOk (mkDisk (Content (written items)) (createFails d))
  end.

Definition getOrAssignSequence (d : Disk) (name : string) : Outcome * Disk :=
  let '(sequenceMap, err) := loadSequenceMap (file d) in
  if err then (Failed, d)
  else
    match sequenceMap !! name with
    | Some seq => (Sequence seq, d)
    | None =>
        let newSeq := size sequenceMap in
        match saveSequenceMap d (<[name := newSeq]> sequenceMap) with
        | SaveOk d' => (Sequence newSeq, d')
        | SaveError => (Failed, d)
        | SavePanic => (IndexPanic, d)
        end
    end.

End Sequences.

(** An instance of the scanner for running the functions on examples:
    [bufio.ScanLines] on a text that fits its buffer. A line ends at a
    line feed, a carriage return before it is dropped, and what follows
    the last line feed is a line when it is not empty. *)
Definition dropCR (reversed : string) : string :=
  match reversed with
  | String "013"%char rest => String.rev rest
  | _ => String.rev reversed
  end.

Fixpoint linesOf (current text : string) : list string :=
  match text with
  | EmptyString => if isEmpty current then [] else [dropCR current]
  | String c rest =>
      if Ascii.eqb c "010"%char then dropCR current :: linesOf EmptyString rest
      else linesOf (String c current) rest
  end.

Definition scanLines (text : string) : list string * bool :=
  (linesOf EmptyString text, false).

End Sequences.

(** * Properties of the resolver *)

Module ResolverFacts.
Import Resolver.

(** ** Reading [map[int]bool] and [map[int][]int] *)

Lemma flag_empty v : Go.flag ∅ v = false.
Proof. unfold Go.flag. by rewrite lookup_empty. Qed.

Lemma flag_insert_true (m : gmap Z bool) k v :
  Go.flag (<[k := true]> m) v = true <-> k = v \/ Go.flag m v = true.
Proof.
  unfold Go.flag. destruct (decide (k = v)) as [->|Hne].
  - rewrite lookup_insert_eq. simpl. tauto.
  - rewrite lookup_insert_ne by done. split; [tauto | intros [?|?]; done].
Qed.

Lemma elementMapOf_from (l : list Z) (m : gmap Z bool) v :
  Go.flag (foldl (fun elementMap x => <[x := true]> elementMap) m l) v = true
  <-> v ∈ l \/ Go.flag m v = true.
Proof.
  revert m. induction l as [|x l IH]; intros m; simpl.
  - rewrite elem_of_nil. tauto.
  - rewrite IH, flag_insert_true, elem_of_cons. intuition congruence.
Qed.

Lemma elementMapOf_spec (l : list Z) v :
  Go.flag (elementMapOf l) v = true <-> v ∈ l.
Proof.
  unfold elementMapOf. rewrite elementMapOf_from, flag_empty.
  intuition discriminate.
Qed.

(** ** The intersection *)

(** The elements of a list, each at its first occurrence. *)
Fixpoint firstOccurrences (l : list Z) : list Z :=
  match l with
  | [] => []
  | x :: l => x :: filter (fun y => y ≠ x) (firstOccurrences l)
  end.

Lemma elem_of_firstOccurrences l x : x ∈ firstOccurrences l <-> x ∈ l.
Proof.
  induction l as [|y l IH]; simpl; [done|].
  rewrite !elem_of_cons, list_elem_of_filter, IH.
  destruct (decide (x = y)); intuition.
Qed.

Lemma NoDup_firstOccurrences l : NoDup (firstOccurrences l).
Proof.
  induction l as [|y l IH]; simpl; [constructor|].
  constructor.
  - rewrite list_elem_of_filter. intros [? _]. done.
  - by apply NoDup_filter.
Qed.

Lemma intersect_loop em (l : list Z) acc seen :
  fst (foldl (intersectStep em) (acc, seen) l)
  = acc ++ filter (fun v => Go.flag em v = true /\ Go.flag seen v = false)
                  (firstOccurrences l).
Proof.
  revert acc seen. induction l as [|x l IH]; intros acc seen; simpl.
  - by rewrite app_nil_r.
  - destruct (Go.flag em x) eqn:Hem, (Go.flag seen x) eqn:Hseen; simpl; rewrite IH.
    + rewrite filter_cons_False by (rewrite Hseen; intros [_ ?]; done).
      rewrite list_filter_filter. f_equal. apply list_filter_iff. intros v.
      split; [|tauto]. intros [Hv1 Hv2]. repeat split; try done. congruence.
    + rewrite filter_cons_True by done.
      rewrite <- app_assoc. simpl. do 2 f_equal.
      rewrite list_filter_filter. apply list_filter_iff. intros v.
      destruct (Go.flag (<[x:=true]> seen) v) eqn:Hv.
      * apply flag_insert_true in Hv. split; [intros [_ ?]; done|].
        intros [[_ Hs] Hne]. destruct Hv; congruence.
      * split; [|intros; tauto]. intros [Hv1 _]. repeat split; try done.
        -- destruct (Go.flag seen v) eqn:Hs; [|done].
           assert (Go.flag (<[x:=true]> seen) v = true)
             by (apply flag_insert_true; tauto). congruence.
        -- intros ->. assert (Go.flag (<[x:=true]> seen) x = true)
             by (apply flag_insert_true; tauto). congruence.
    + rewrite filter_cons_False by (rewrite Hem; intros [? _]; done).
      rewrite list_filter_filter. f_equal. apply list_filter_iff. intros v.
      split; [|tauto]. intros [Hv1 Hv2]. repeat split; try done. congruence.
    + rewrite filter_cons_False by (rewrite Hem; intros [? _]; done).
      rewrite list_filter_filter. f_equal. apply list_filter_iff. intros v.
      split; [|tauto]. intros [Hv1 Hv2]. repeat split; try done. congruence.
Qed.

Lemma findIntersection_filter (slice1 slice2 : list Z) :
  findIntersection slice1 slice2
  = filter (fun v => v ∈ slice1) (firstOccurrences slice2).
Proof.
  unfold findIntersection. rewrite intersect_loop. simpl.
  apply list_filter_iff. intros v.
  rewrite elementMapOf_spec, flag_empty. tauto.
Qed.

Lemma elem_of_findIntersection slice1 slice2 x :
  x ∈ findIntersection slice1 slice2 <-> x ∈ slice1 /\ x ∈ slice2.
Proof.
  rewrite findIntersection_filter, list_elem_of_filter, elem_of_firstOccurrences.
  done.
Qed.

Lemma NoDup_findIntersection slice1 slice2 : NoDup (findIntersection slice1 slice2).
Proof.
  rewrite findIntersection_filter. apply NoDup_filter, NoDup_firstOccurrences.
Qed.

(** What the second loop of [processGroup] records, whatever the order
    in which it visits the related groups. *)
Lemma crossings_recorded newGroup existingGroups order acc base cg :
  cg ∈ fst (foldl (crossingStep newGroup existingGroups) (acc, base) order) ->
  cg ∈ acc \/
  exists group,
    existingGroups !! CrossingGroup.ID cg = Some group /\
    CrossingGroup.Intersection cg
      = findIntersection newGroup (ExerciseGroup.ProblemIDs group) /\
    CrossingGroup.Intersection cg ≠ [].
Proof.
  revert acc base. induction order as [|g order IH]; intros acc base; simpl.
  - tauto.
  - destruct (existingGroups !! g) as [group|] eqn:Hg; [|apply IH].
    destruct (findIntersection newGroup (ExerciseGroup.ProblemIDs group))
      as [|x xs] eqn:Hi; simpl; [apply IH|].
    intros H. apply IH in H as [H|H]; [|by right].
    apply elem_of_app in H as [H|H]; [by left|].
    apply list_elem_of_singleton in H as ->. right. exists group. simpl.
    rewrite Hi. done.
Qed.

(** An existing group [{1,2,3,2}] with id 10 and the grouping [[3,2,4]]. *)
Definition group10 : ExerciseGroup.t :=
  ExerciseGroup.mk 10 [1; 2; 3; 2] [] 2 true false.

Definition snapshot10 : gmap Z ExerciseGroup.t := {[ 10 := group10 ]}.

(** C6. For a proposed grouping G and an existing group E, the
    intersection recorded for the pair as a CrossingGroup is non-empty,
    equals the set intersection of G and the members of E, has no
    duplicates, and lists its elements in the order of their first
    occurrence in the members of E. *)
Theorem recorded_intersection (newGroup : list Z)
    (existingGroups : gmap Z ExerciseGroup.t) (order : list Z) (cg : CrossingGroup.t) :
  cg ∈ fst (crossingsOf order newGroup existingGroups) ->
  exists group,
    existingGroups !! CrossingGroup.ID cg = Some group /\
    CrossingGroup.Intersection cg ≠ [] /\
    (forall x, x ∈ CrossingGroup.Intersection cg
               <-> x ∈ newGroup /\ x ∈ ExerciseGroup.ProblemIDs group) /\
    NoDup (CrossingGroup.Intersection cg) /\
    CrossingGroup.Intersection cg
      = filter (fun v => v ∈ newGroup) (firstOccurrences (ExerciseGroup.ProblemIDs group)).
Proof.
  intros H. apply crossings_recorded in H as [H|(group & Hg & Hi & Hne)].
  - by apply elem_of_nil in H.
  - exists group. rewrite Hi in *. split; [done|]. split; [done|].
    split; [intros x; apply elem_of_findIntersection|].
    split; [apply NoDup_findIntersection | apply findIntersection_filter].
Qed.

Lemma recorded_intersection_witness :
  exists group,
    snapshot10 !! 10 = Some group /\
    [2; 3] ≠ [] /\
    (forall x, x ∈ [2; 3] <-> x ∈ [3; 2; 4] /\ x ∈ ExerciseGroup.ProblemIDs group) /\
    NoDup [2; 3] /\
    [2; 3] = filter (fun v => v ∈ [3; 2; 4])
                    (firstOccurrences (ExerciseGroup.ProblemIDs group)).
Proof.
  apply (recorded_intersection [3; 2; 4] snapshot10 [10] (CrossingGroup.mk 10 [2; 3])).
  apply list_elem_of_In. vm_compute. left. reflexivity.
Defined.

(** ** The reverse index *)

Lemma slice_at_insert (index : gmap Z (list Z)) k l p :
  Go.slice_at (<[k := l]> index) p = if decide (k = p) then l else Go.slice_at index p.
Proof.
  unfold Go.slice_at. destruct (decide (k = p)) as [->|Hne].
  - by rewrite lookup_insert_eq.
  - by rewrite lookup_insert_ne.
Qed.

Lemma indexGroup_from (members : list Z) (gid : Z) (index : gmap Z (list Z)) p g :
  g ∈ Go.slice_at
        (foldl (fun index problemID =>
                  <[problemID := Go.slice_at index problemID ++ [gid]]> index)
               index members) p
  <-> g ∈ Go.slice_at index p \/ (g = gid /\ p ∈ members).
Proof.
  revert index. induction members as [|m members IH]; intros index; simpl.
  - rewrite elem_of_nil. tauto.
  - rewrite IH, slice_at_insert, elem_of_cons. destruct (decide (m = p)) as [->|Hne].
    + rewrite elem_of_app, list_elem_of_singleton. tauto.
    + intuition congruence.
Qed.

Lemma indexGroup_spec index group p g :
  g ∈ Go.slice_at (indexGroup index group) p
  <-> g ∈ Go.slice_at index p
      \/ (g = ExerciseGroup.ID group /\ p ∈ ExerciseGroup.ProblemIDs group).
Proof. apply indexGroup_from. Qed.

Lemma buildProblemIndex_from (order : list (Z * ExerciseGroup.t)) index p g :
  g ∈ Go.slice_at (foldl (fun index entry => indexGroup index (snd entry)) index order) p
  <-> g ∈ Go.slice_at index p
      \/ exists entry, entry ∈ order /\ g = ExerciseGroup.ID (snd entry)
                       /\ p ∈ ExerciseGroup.ProblemIDs (snd entry).
Proof.
  revert index. induction order as [|e order IH]; intros index; simpl.
  - split; [tauto|]. intros [?|(? & H & _)]; [done|]. by apply elem_of_nil in H.
  - rewrite IH, indexGroup_spec. split.
    + intros [[?|[? ?]]|(entry & ? & ? & ?)].
      * by left.
      * right. exists e. rewrite elem_of_cons. tauto.
      * right. exists entry. rewrite elem_of_cons. tauto.
    + intros [?|(entry & Hin & ? & ?)]; [tauto|].
      apply elem_of_cons in Hin as [->|?]; [tauto|].
      right. by exists entry.
Qed.

(** C7. The reverse index built from a collection of existing groups,
    whatever the order in which the collection is visited: group id g
    appears in the index entry of problem p if and only if p is a member of
    the existing group with id g. *)
Theorem reverse_index_iff (groups : gmap Z ExerciseGroup.t)
    (order : list (Z * ExerciseGroup.t)) (p g : Z) :
  order ≡ₚ map_to_list groups ->
  (forall k group, groups !! k = Some group -> ExerciseGroup.ID group = k) ->
  g ∈ Go.slice_at (buildProblemIndex_in order) p
  <-> exists group, groups !! g = Some group /\ p ∈ ExerciseGroup.ProblemIDs group.
Proof.
  intros Hperm Hkey. unfold buildProblemIndex_in. rewrite buildProblemIndex_from.
  unfold Go.slice_at at 1. rewrite lookup_empty. simpl. split.
  - intros [H|([k group] & Hin & -> & Hp)]; [by apply elem_of_nil in H|].
    rewrite Hperm in Hin. apply elem_of_map_to_list in Hin. simpl in *.
    exists group. by rewrite (Hkey _ _ Hin).
  - intros (group & Hg & Hp). right. exists (g, group). simpl.
    rewrite Hperm, elem_of_map_to_list. by rewrite (Hkey _ _ Hg).
Qed.

Lemma snapshot10_keyed k group :
  snapshot10 !! k = Some group -> ExerciseGroup.ID group = k.
Proof.
  unfold snapshot10. intros H. apply lookup_singleton_Some in H as [<- <-]. reflexivity.
Defined.

Lemma reverse_index_iff_witness :
  10 ∈ Go.slice_at (buildProblemIndex_in [(10, group10)]) 3
  <-> exists group, snapshot10 !! 10 = Some group /\ 3 ∈ ExerciseGroup.ProblemIDs group.
Proof.
  apply (reverse_index_iff snapshot10 [(10, group10)] 3 10).
  - vm_compute. reflexivity.
  - exact snapshot10_keyed.
Defined.

(** ** Representative selection in the resolver *)

(** The existing representative of a crossed group, if it has one: the
    group is in the snapshot, is flagged as having a representative and
    names a positive problem id. *)
Definition representativeOf (existingGroups : gmap Z ExerciseGroup.t)
    (crossing : CrossingGroup.t) : option RepresentativeInfo.t :=
  match existingGroups !! CrossingGroup.ID crossing with
  | Some group =>
      if ExerciseGroup.HasRepresentative group && (0 <? ExerciseGroup.Representative group)
      then Some (RepresentativeInfo.mk (ExerciseGroup.Representative group)
                   (ExerciseGroup.RepresentativeHasVideo group) reasonExisting)
      else None
  | None => None
  end.

(** The existing representatives of the crossed groups that are members
    of the grouping, in the order of the crossing groups. *)
Definition survivingRepresentatives (newGroup : list Z)
    (crossingGroups : list CrossingGroup.t)
    (existingGroups : gmap Z ExerciseGroup.t) : list RepresentativeInfo.t :=
  filter (fun rep => RepresentativeInfo.ProblemID rep ∈ newGroup)
         (omap (representativeOf existingGroups) crossingGroups).

Definition isMaximumOf (l : list Z) (m : Z) : Prop :=
  m ∈ l /\ forall x, x ∈ l -> x <= m.

Lemma collectRepresentatives_from crossingGroups existingGroups acc :
  foldl (fun reps crossing =>
           match existingGroups !! CrossingGroup.ID crossing with
           | Some group =>
               if ExerciseGroup.HasRepresentative group
                  && (0 <? ExerciseGroup.Representative group)
               then reps ++ [RepresentativeInfo.mk
                               (ExerciseGroup.Representative group)
                               (ExerciseGroup.RepresentativeHasVideo group)
                               reasonExisting]
               else reps
           | None => reps
           end) acc crossingGroups
  = acc ++ omap (representativeOf existingGroups) crossingGroups.
Proof.
  revert acc. induction crossingGroups as [|crossing l IH]; intros acc; simpl.
  - by rewrite app_nil_r.
  - rewrite IH. unfold representativeOf.
    destruct (existingGroups !! CrossingGroup.ID crossing) as [group|]; [|done].
    destruct (_ && _); [|done]. by rewrite <- app_assoc.
Qed.

Lemma collectRepresentatives_omap crossingGroups existingGroups :
  collectRepresentatives crossingGroups existingGroups
  = omap (representativeOf existingGroups) crossingGroups.
Proof. apply collectRepresentatives_from. Qed.

(** The inner loop adds [rep] once for every occurrence of its id. *)
Lemma candidates_inner (rep : RepresentativeInfo.t) (newGroup : list Z) candidates :
  exists n,
    foldl (fun candidates problemID =>
             if problemID =? RepresentativeInfo.ProblemID rep
             then candidates ++ [rep] else candidates) candidates newGroup
    = candidates ++ replicate n rep
    /\ (n = 0%nat <-> RepresentativeInfo.ProblemID rep ∉ newGroup).
Proof.
  revert candidates. induction newGroup as [|x l IH]; intros candidates; simpl.
  - exists 0%nat. rewrite app_nil_r. split; [done|]. split; [|done].
    intros _. apply not_elem_of_nil.
  - destruct (Z.eqb_spec x (RepresentativeInfo.ProblemID rep)) as [->|Hne].
    + destruct (IH (candidates ++ [rep])) as (n & -> & _). exists (S n).
      rewrite <- app_assoc. split; [done|]. split; [done|].
      intros H. exfalso. apply H. left.
    + destruct (IH candidates) as (n & -> & Hn). exists n. split; [done|].
      rewrite Hn, not_elem_of_cons. intuition congruence.
Qed.

Lemma firstWithVideo_app l1 l2 :
  firstWithVideo (l1 ++ l2)
  = match firstWithVideo l1 with Some r => Some r | None => firstWithVideo l2 end.
Proof.
  induction l1 as [|r l1 IH]; simpl; [done|].
  by destruct (RepresentativeInfo.HasSolutionVideo r).
Qed.

Lemma firstWithVideo_replicate n rep :
  firstWithVideo (replicate n rep)
  = if decide (n = 0%nat) then None
    else if RepresentativeInfo.HasSolutionVideo rep then Some rep else None.
Proof.
  induction n as [|n IH]; simpl; [done|].
  destruct (RepresentativeInfo.HasSolutionVideo rep); [done|].
  rewrite IH. by destruct (decide (n = 0%nat)).
Qed.

Lemma firstWithVideo_filter l :
  firstWithVideo l
  = head (filter (fun rep => RepresentativeInfo.HasSolutionVideo rep = true) l).
Proof.
  induction l as [|r l IH]; simpl; [done|].
  rewrite filter_cons. destruct (RepresentativeInfo.HasSolutionVideo r) eqn:Hv.
  - by rewrite decide_True.
  - by rewrite decide_False.
Qed.

(** The candidates agree with the surviving representatives on what the
    two selection loops look at: the first video-bearing one and the first. *)
Lemma candidates_heads newGroup reps acc :
  let candidates :=
    foldl (fun candidates rep =>
             foldl (fun candidates problemID =>
                      if problemID =? RepresentativeInfo.ProblemID rep
                      then candidates ++ [rep] else candidates)
                   candidates newGroup) acc reps in
  let surviving :=
    filter (fun rep => RepresentativeInfo.ProblemID rep ∈ newGroup) reps in
  firstWithVideo candidates
    = match firstWithVideo acc with
      | Some r => Some r
      | None => firstWithVideo surviving
      end
  /\ head candidates = match head acc with Some r => Some r | None => head surviving end.
Proof.
  revert acc. induction reps as [|rep reps IH]; intros acc; simpl.
  - split; [by destruct (firstWithVideo acc) | by destruct (head acc)].
  - destruct (candidates_inner rep newGroup acc) as (n & -> & Hn).
    destruct (IH (acc ++ replicate n rep)) as [IH1 IH2]. simpl in IH1, IH2.
    rewrite IH1, IH2, firstWithVideo_app, firstWithVideo_replicate, filter_cons.
    destruct (decide (n = 0%nat)) as [->|Hn0].
    + assert (RepresentativeInfo.ProblemID rep ∉ newGroup) as Hnin
        by (by apply (proj1 Hn)).
      rewrite decide_False by done. simpl. rewrite app_nil_r.
      split; [by destruct (firstWithVideo acc) | done].
    + assert (RepresentativeInfo.ProblemID rep ∈ newGroup) as Hin.
      { destruct (decide (RepresentativeInfo.ProblemID rep ∈ newGroup)) as [|Hc];
          [done|]. by apply (proj2 Hn) in Hc. }
      rewrite decide_True by done. simpl. split.
      * destruct (firstWithVideo acc); [done|].
        by destruct (RepresentativeInfo.HasSolutionVideo rep).
      * destruct acc; simpl; [|done]. destruct n; [done|]. done.
Qed.

Lemma highestFrom_maximum first l :
  isMaximumOf (first :: l) (highestFrom first l).
Proof.
  unfold highestFrom, isMaximumOf.
  assert (forall h, let m := foldl (fun highest id => if highest <? id then id else highest) h l in
            (m = h \/ m ∈ l) /\ h <= m /\ forall x, x ∈ l -> x <= m) as H.
  { induction l as [|x l IH]; intros h; simpl.
    - split; [by left|]. split; [lia|]. intros x Hx. by apply elem_of_nil in Hx.
    - destruct (IH (if h <? x then x else h)) as (Hm & Hle & Hall). simpl in *.
      destruct (Z.ltb_spec h x).
      + split; [destruct Hm as [->|?]; right; [left | by right]|].
        split; [lia|]. intros y Hy. apply elem_of_cons in Hy as [->|?]; [lia | auto].
      + split; [destruct Hm as [->|?]; [by left | right; by right]|].
        split; [lia|]. intros y Hy. apply elem_of_cons in Hy as [->|?]; [lia | auto]. }
  destruct (H first) as (Hm & Hle & Hall). simpl in *. split.
  - destruct Hm as [->|?]; [left | by right].
  - intros x Hx. apply elem_of_cons in Hx as [->|?]; [lia | auto].
Qed.

(** C3. For a non-empty proposed grouping G: among the existing
    representatives of the crossed groups whose problem id is a member of
    G, taken in the order of the crossing groups, the resolver returns
    the first one that has a video if there is one, otherwise the first
    one; when no crossed existing representative is a member of G (no
    crossing, or no crossed group with a representative, too) it returns
    the maximum problem id of G. *)
Theorem resolver_selection (newGroup : list Z)
    (crossingGroups : list CrossingGroup.t) (existingGroups : gmap Z ExerciseGroup.t) :
  newGroup ≠ [] ->
  exists representative reason,
    selectBestRepresentative newGroup crossingGroups existingGroups
      = Some (representative, reason) /\
    let surviving := survivingRepresentatives newGroup crossingGroups existingGroups in
    match filter (fun rep => RepresentativeInfo.HasSolutionVideo rep = true) surviving,
          surviving with
    | rep :: _, _ => representative = RepresentativeInfo.ProblemID rep
    | [], rep :: _ => representative = RepresentativeInfo.ProblemID rep
    | [], [] => isMaximumOf newGroup representative
    end.
Proof.
  intros Hne. destruct newGroup as [|first rest]; [done|].
  unfold selectBestRepresentative, survivingRepresentatives.
  change (length (first :: rest) =? 0)%nat with false. cbv iota.
  rewrite collectRepresentatives_omap. unfold collectCandidates.
  destruct (candidates_heads (first :: rest)
              (omap (representativeOf existingGroups) crossingGroups) [])
    as [Hvideo Hhead].
  cbv zeta in Hvideo, Hhead. simpl firstWithVideo in Hvideo. simpl head in Hhead.
  set (candidates := foldl _ [] _) in *.
  set (surviving := filter _ (omap _ _)) in *.
  rewrite (firstWithVideo_filter surviving) in Hvideo. cbv zeta.
  destruct candidates as [|c cs].
  - simpl in Hvideo, Hhead. eexists _, _. split; [reflexivity|].
    destruct surviving as [|r rs]; [|done]. rewrite filter_nil.
    pose proof (highestFrom_maximum first (first :: rest)) as Hhighest.
    unfold isMaximumOf in *. destruct Hhighest as [Hin Hmax]. split.
    + apply elem_of_cons in Hin as [->|?]; [left | done].
    + intros x Hx. apply Hmax. by right.
  - rewrite Hvideo. simpl in Hhead.
    destruct (filter _ surviving) as [|v vs] eqn:Hf; simpl.
    + eexists _, _. split; [reflexivity|].
      destruct surviving as [|r rs]; [done|]. simpl in Hhead. congruence.
    + eexists _, _. split; reflexivity.
Qed.

(** Two crossed groups whose representatives 2 and 5 both carry a video;
    the grouping [[2,4,5]] crosses both, group 20 first. *)
Definition group10v : ExerciseGroup.t := ExerciseGroup.mk 10 [1; 2; 3] [] 2 true true.
Definition group20v : ExerciseGroup.t := ExerciseGroup.mk 20 [4; 5] [] 5 true true.
Definition snapshot2 : gmap Z ExerciseGroup.t := {[ 10 := group10v; 20 := group20v ]}.
Definition crossings2 : list CrossingGroup.t :=
  [CrossingGroup.mk 20 [4; 5]; CrossingGroup.mk 10 [2]].

Lemma resolver_selection_witness :
  exists representative reason,
    selectBestRepresentative [2; 4; 5] crossings2 snapshot2
      = Some (representative, reason) /\
    let surviving := survivingRepresentatives [2; 4; 5] crossings2 snapshot2 in
    match filter (fun rep => RepresentativeInfo.HasSolutionVideo rep = true) surviving,
          surviving with
    | rep :: _, _ => representative = RepresentativeInfo.ProblemID rep
    | [], rep :: _ => representative = RepresentativeInfo.ProblemID rep
    | [], [] => isMaximumOf [2; 4; 5] representative
    end.
Proof.
  apply (resolver_selection [2; 4; 5] crossings2 snapshot2). discriminate.
Defined.

Example resolver_selection_first_video :
  selectBestRepresentative [2; 4; 5] crossings2 snapshot2 = Some (5, reasonCarriedVideo).
Proof. vm_compute. reflexivity. Qed.

Example resolver_selection_no_crossing :
  selectBestRepresentative [7; 9; 8] [] snapshot2 = Some (9, reasonNoCrossing).
Proof. vm_compute. reflexivity. Qed.

(** ** The scenarios of the specification *)

Definition scenarioGroup : ExerciseGroup.t := ExerciseGroup.mk 10 [1; 2; 3] [] 2 true false.
Definition scenarioSnapshot : gmap Z ExerciseGroup.t := {[ 10 := scenarioGroup ]}.

Definition keysInOrder (m : gmap Z bool) : list Z := fst <$> map_to_list m.

Example scenario_carried_over :
  processGroup keysInOrder [2; 3; 4] (buildProblemIndex scenarioSnapshot) scenarioSnapshot
    (getMaxGroupID scenarioSnapshot + 1)
  = (Some (CrossingResult.mk 11 10 [2; 3; 4] [CrossingGroup.mk 10 [2; 3]] 2 reasonCarried),
     12).
Proof. vm_compute. reflexivity. Qed.

Example scenario_no_overlap :
  processGroup keysInOrder [7; 9; 8] (buildProblemIndex scenarioSnapshot) scenarioSnapshot
    (getMaxGroupID scenarioSnapshot + 1)
  = (Some (CrossingResult.mk 11 0 [7; 9; 8] [] 9 reasonNoCrossing), 12).
Proof. vm_compute. reflexivity. Qed.

(** ** The snapshot loader *)

Section LoaderFacts.

Variable Atoi : string -> Z * bool.
Variable TrimSpace : string -> string.
Variable Split : string -> string -> list string.




Lemma loadRecords_app groups (before after : list Read) :
  loadRecords Atoi TrimSpace Split groups (before ++ after)
  = match loadRecords Atoi TrimSpace Split groups before with
    | Groups groups' => loadRecords Atoi TrimSpace Split groups' after
    | failure => failure
    end.
Proof.
  revert groups. induction before as [|r before IH]; intros groups; simpl; [done|].
  destruct r as [record|]; [|done].
  destruct (loadRecord _ _ _ groups record); [apply IH | done].
Qed.

(** Every snapshot the loader builds is keyed by the id its groups carry. *)
Definition keyedByID (groups : gmap Z ExerciseGroup.t) : Prop :=
  forall k group, groups !! k = Some group -> ExerciseGroup.ID group = k.

Lemma loadRecord_keyed groups record groups' :
  keyedByID groups ->
  loadRecord Atoi TrimSpace Split groups record = Some groups' ->
  keyedByID groups'.
Proof.
  intros Hkeyed. unfold loadRecord.
  destruct (record !! 0%nat) as [first|]; [|done].
  destruct (Atoi first) as [groupID [|]]; [|by intros [= <-]].
  unfold groupOfRecord. destruct (record !! 1%nat) as [members|]; [|done].
  intros [= <-] k group Hk. apply lookup_insert_Some in Hk as [[<- <-]|[_ Hk]].
  - reflexivity.
  - by apply Hkeyed.
Qed.

Lemma loadRecords_keyed reads groups groups' :
  keyedByID groups ->
  loadRecords Atoi TrimSpace Split groups reads = Groups groups' ->
  keyedByID groups'.
Proof.
  revert groups. induction reads as [|[record|] reads IH]; intros groups Hkeyed; simpl.
  - by intros [= <-].
  - destruct (loadRecord _ _ _ groups record) as [groups1|] eqn:H1; [|done].
    apply IH. by eapply loadRecord_keyed.
  - done.
Qed.

Lemma loadExerciseGroups_keyed reads groups :
  loadExerciseGroups Atoi TrimSpace Split reads = Groups groups -> keyedByID groups.
Proof.
  destruct reads as [|[header|] reads]; simpl; [done| |done].
  apply loadRecords_keyed. intros k group Hk. by rewrite lookup_empty in Hk.
Qed.


End LoaderFacts.

Definition loadDemo : list Read -> Loaded :=
  loadExerciseGroups Go.decimalAtoi Go.asciiTrimSpace Go.splitOn.

Example load_drops_bad_group_id :
  loadDemo [Row ["group_id"; "problem_ids"];
            Row ["x10"; "1,2"];
            Row ["20"; "4, oops ,5"; "true,false"; "5"; "true"; "false"]]
  = Groups {[ 20 := ExerciseGroup.mk 20 [4; 5] [true; false] 5 true false ]}.
Proof. vm_compute. reflexivity. Qed.


(** ** The group-id counter *)

Lemma getMaxGroupID_in_bounds (ids : list Z) (start : Z) :
  let m := foldl (fun maxID id => if maxID <? id then id else maxID) start ids in
  start <= m /\ forall id, id ∈ ids -> id <= m.
Proof.
  revert start. induction ids as [|x ids IH]; intros start; simpl.
  - split; [lia|]. intros id H. by apply elem_of_nil in H.
  - destruct (IH (if start <? x then x else start)) as [Hle Hall]. simpl in *.
    destruct (Z.ltb_spec start x); (split; [lia|]); intros id Hid;
      (apply elem_of_cons in Hid as [->|?]; [lia | auto]).
Qed.

(** The seed of the counter is above every group id of the snapshot. *)
Lemma getMaxGroupID_upper (groups : gmap Z ExerciseGroup.t) (k : Z) :
  is_Some (groups !! k) -> k <= getMaxGroupID groups.
Proof.
  intros [group Hk]. unfold getMaxGroupID, getMaxGroupID_in.
  apply getMaxGroupID_in_bounds.
  apply list_elem_of_fmap. exists (k, group). split; [done|].
  by apply elem_of_map_to_list.
Qed.

(** Two groupings over the snapshot [{10: [1,2,3,2]}], and a schedule in
    which workers 0 and 1 both load the counter before either stores
    it; afterwards every worker finds the job channel empty. *)
Definition racingGroups : list (list Z) := [[1]; [4]].

Definition racingSchedule : list nat :=
  [0; 1; 0; 1; 0; 0; 1; 1]%nat ++ seq 0 8.

Definition oneByOneSchedule : list nat :=
  [0; 0; 0; 0; 1; 1; 1; 1]%nat ++ seq 0 8.

(** C1 (the code departs from it). Under [racingSchedule] both records
    of the run get the new group id 11: the ids are not pairwise
    distinct. *)
Theorem counter_race_duplicate_ids :
  CrossingResult.NewGroupID
    <$> default [] (processGroups keysInOrder racingGroups
                      (buildProblemIndex snapshot10) snapshot10 racingSchedule)
  = [11; 11]
  /\ CrossingResult.ProblemIDs
       <$> default [] (processGroups keysInOrder racingGroups
                         (buildProblemIndex snapshot10) snapshot10 racingSchedule)
     = [[1]; [4]].
Proof. vm_compute. split; reflexivity. Qed.

(** The same input when the two workers do not overlap. *)
Example counter_one_by_one :
  CrossingResult.NewGroupID
    <$> default [] (processGroups keysInOrder racingGroups
                      (buildProblemIndex snapshot10) snapshot10 oneByOneSchedule)
  = [11; 12].
Proof. vm_compute. reflexivity. Qed.

(** *** One worker

    With a single worker nothing interleaves with the load and the
    store: whatever the schedule, the ids handed out are pairwise
    distinct and above every id of the snapshot, as long as the counter
    stays within 64 bits. *)

Lemma wrap64_id z : 0 <= z < 2 ^ 63 -> Go.wrap64 z = z.
Proof.
  intros H. unfold Go.wrap64.
  change (2 ^ 64) with (2 * 2 ^ 63). assert (0 < 2 ^ 63) by done.
  rewrite Z.mod_small; lia.
Qed.

Lemma getMaxGroupID_nonneg (groups : gmap Z ExerciseGroup.t) : 0 <= getMaxGroupID groups.
Proof.
  unfold getMaxGroupID, getMaxGroupID_in.
  by destruct (getMaxGroupID_in_bounds (fst <$> map_to_list groups) 0) as [H _].
Qed.

Section OneWorker.

Variable iter : gmap Z bool -> list Z.
Variable newGroups : list (list Z).
Variable problemIndex : gmap Z (list Z).
Variable existingGroups : gmap Z ExerciseGroup.t.

Let seed : Z := getMaxGroupID existingGroups + 1.

Hypothesis in_range : seed + Z.of_nat (length newGroups) < 2 ^ 63.

Lemma seed_range :
  seed = getMaxGroupID existingGroups + 1 /\ 0 < seed /\ 0 < 2 ^ 63.
Proof.
  pose proof (getMaxGroupID_nonneg existingGroups).
  assert (seed = getMaxGroupID existingGroups + 1) by reflexivity.
  split; [done|]. split; [lia | done].
Qed.

Definition busy (w : Worker) : nat :=
  match w with
  | Reading _ _ _ | Incrementing _ _ _ _ | Storing _ _ _ _ _ => 1
  | _ => 0
  end.

Definition soloInvariant (p : Pool) : Prop :=
  exists w,
    workers p = [w]
    /\ (length (jobs p) + busy w <= length newGroups)%nat
    /\ seed <= nextGroupID p
       <= seed + Z.of_nat (length newGroups - length (jobs p) - busy w)
    /\ NoDup (CrossingResult.NewGroupID <$> resultsChan p)
    /\ (forall id, id ∈ CrossingResult.NewGroupID <$> resultsChan p ->
                   seed <= id < nextGroupID p)
    /\ match w with
       | Incrementing _ _ _ newGroupID => newGroupID = nextGroupID p
       | Storing _ _ _ newGroupID loaded =>
           newGroupID = nextGroupID p /\ loaded = nextGroupID p
       | _ => True
       end.

Lemma soloInvariant_start : soloInvariant (startPool newGroups existingGroups 1).
Proof.
  destruct seed_range as (Hseed & Hpos & Hpow).
  exists Receiving. unfold startPool. simpl. fold seed.
  rewrite length_seq, wrap64_id by lia.
  repeat split; try lia.
  - constructor.
  - by apply elem_of_nil in H.
  - by apply elem_of_nil in H.
Qed.

Ltac solo_finish :=
  repeat split; try done; try lia;
  try (match goal with
       | Hids : forall id, id ∈ _ -> _, H : _ ∈ _ |- _ => apply Hids in H; lia
       end).

Lemma soloInvariant_step p w :
  soloInvariant p ->
  soloInvariant (step iter newGroups problemIndex existingGroups p w).
Proof.
  destruct seed_range as (Hseed & Hpos & Hpow).
  intros (w0 & Hw & Hjobs & Hnext & Hnd & Hids & Hpc). unfold step.
  destruct w as [|w]; [|rewrite Hw; simpl; by exists w0].
  rewrite Hw. simpl. destruct w0 as [|g cgs base|g cgs base nid|g cgs base nid ld| |].
  - destruct (jobs p) as [|i rest] eqn:Hj.
    + exists Finished. unfold setWorker. rewrite ?Hw, ?Hj. simpl in *. solo_finish.
    + simpl in *. destruct (newGroups !! i) as [g|].
      * destruct (length g =? 0)%nat.
        -- exists Receiving. simpl. solo_finish.
        -- destruct (crossingsOf _ g existingGroups) as [cgs base].
           exists (Reading g cgs base). unfold setWorker. simpl. rewrite ?Hw. simpl.
           solo_finish.
      * exists Panicked. unfold setWorker. simpl. rewrite ?Hw. simpl. solo_finish.
  - exists (Incrementing g cgs base (nextGroupID p)). unfold setWorker.
    rewrite ?Hw. simpl in *. solo_finish.
  - exists (Storing g cgs base nid (nextGroupID p)). unfold setWorker.
    rewrite ?Hw. simpl in *. solo_finish.
  - destruct Hpc as [-> ->]. simpl in *.
    assert (Go.wrap64 (nextGroupID p + 1) = nextGroupID p + 1) as Hwrap
      by (apply wrap64_id; lia).
    destruct (selectBestRepresentative g cgs existingGroups) as [[rep reason]|].
    + exists Receiving. simpl. rewrite ?Hw, Hwrap. simpl.
      rewrite fmap_app. simpl. repeat split; try done; try lia.
      * apply NoDup_app. split; [done|]. split; [|apply NoDup_singleton].
        intros x Hx Hx'. apply list_elem_of_singleton in Hx' as ->.
        apply Hids in Hx. lia.
      * apply elem_of_app in H as [H|H]; [apply Hids in H; lia|].
        apply list_elem_of_singleton in H as ->. lia.
      * apply elem_of_app in H as [H|H]; [apply Hids in H; lia|].
        apply list_elem_of_singleton in H as ->. lia.
    + exists Panicked. simpl. rewrite ?Hw, Hwrap. simpl. solo_finish.
  - exists Finished. by rewrite Hw.
  - exists Panicked. by rewrite Hw.
Qed.

Lemma soloInvariant_run schedule p :
  soloInvariant p ->
  soloInvariant (runPool iter newGroups problemIndex existingGroups schedule p).
Proof.
  revert p. induction schedule as [|w schedule IH]; intros p Hp; simpl; [done|].
  by apply IH, soloInvariant_step.
Qed.

Lemma one_worker_ids (schedule : list nat) :
  let p := runPool iter newGroups problemIndex existingGroups schedule
             (startPool newGroups existingGroups 1) in
  NoDup (CrossingResult.NewGroupID <$> resultsChan p)
  /\ forall result k,
       result ∈ resultsChan p -> is_Some (existingGroups !! k) ->
       k < CrossingResult.NewGroupID result.
Proof.
  destruct (soloInvariant_run schedule _ soloInvariant_start)
    as (w & _ & _ & _ & Hnd & Hids & _).
  split; [done|]. intros result k Hr Hk.
  apply getMaxGroupID_upper in Hk.
  assert (seed <= CrossingResult.NewGroupID result) as Hle.
  { apply Hids. apply list_elem_of_fmap. by exists result. }
  unfold seed in Hle. lia.
Qed.

End OneWorker.

End ResolverFacts.

(** * Properties of the applier *)

Module ApplierFacts.
Import Applier.

(** ** Running statements on a connection that does not fail *)

Lemma roundTrip_ok s : budget s = None -> roundTrip s = (inr tt, s).
Proof. unfold roundTrip. by intros ->. Qed.

Lemma filter_none {A} (P : A -> bool) (l : list A) :
  (forall x, x ∈ l -> P x = false) -> List.filter P l = [].
Proof.
  induction l as [|x l IH]; intros H; simpl; [done|].
  rewrite (H x) by left. apply IH. intros y Hy. apply H. by right.
Qed.

(** No live exercise carries one of the problem ids. *)
Definition vanished (problemIDs : list Z) (t : Tables) : Prop :=
  forall problemID e,
    problemID ∈ problemIDs -> e ∈ exercises t -> isProblem problemID e = false.

Definition warned (newGroupID : Z) (s : State) : State :=
  mkState (tables s) (groupSerial s) (budget s)
          (stdout s ++ [WarningSkippingGroup newGroupID]).

Lemma getCategoryID_vanished problemID s :
  budget s = None ->
  (forall e, e ∈ exercises (tables s) -> isProblem problemID e = false) ->
  getCategoryIDFromProblem problemID s = (inr 0, s).
Proof.
  intros Hb Hv. unfold getCategoryIDFromProblem, wrapping, bind, getTables.
  rewrite roundTrip_ok by done. by rewrite filter_none.
Qed.

Lemma findCategoryID_vanished problemIDs s :
  budget s = None -> vanished problemIDs (tables s) ->
  findCategoryID problemIDs s = (inr 0, s).
Proof.
  intros Hb. induction problemIDs as [|p l IH]; intros Hv; simpl; [done|].
  unfold bind. rewrite getCategoryID_vanished; [|done|].
  - simpl. apply IH. intros q e Hq. apply Hv. by right.
  - intros e. apply Hv. left.
Qed.

(** C10. A record whose member list is empty: the applier returns
    success at once and the state is the one it started from; no group
    row is inserted, no group soft-deleted, no exercise reassigned or
    flagged, nothing is printed and no statement is sent. *)
Theorem empty_record_untouched (result : CrossingResult.t) (s : State) :
  CrossingResult.ProblemIDs result = [] ->
  processResult result s = (inr tt, s).
Proof. intros H. unfold processResult. rewrite H. reflexivity. Qed.

(** ** What is printed does not steer the run *)

(** Two states that differ at most in the standard output. *)
Definition sameStore (s1 s2 : State) : Prop :=
  tables s1 = tables s2 /\ groupSerial s1 = groupSerial s2 /\ budget s1 = budget s2.

Definition quiet {A} (m : M A) : Prop :=
  forall s1 s2, sameStore s1 s2 ->
    fst (m s1) = fst (m s2) /\ sameStore (snd (m s1)) (snd (m s2)).

Lemma sameStore_refl s : sameStore s s.
Proof. by repeat split. Qed.

Lemma sameStore_warned newGroupID s : sameStore (warned newGroupID s) s.
Proof. by repeat split. Qed.

Lemma quiet_ret {A} (a : A) : quiet (ret a).
Proof. intros s1 s2 H. by split. Qed.

Lemma quiet_bind {A B} (m : M A) (k : A -> M B) :
  quiet m -> (forall a, quiet (k a)) -> quiet (bind m k).
Proof.
  intros Hm Hk s1 s2 H. unfold bind. destruct (Hm s1 s2 H) as [Hr Hs].
  destruct (m s1) as [[e1|a1] s1'], (m s2) as [[e2|a2] s2']; simpl in *;
    try discriminate.
  - split; [congruence | exact Hs].
  - injection Hr as ->. by apply Hk.
Qed.

Lemma quiet_wrapping {A} format args (m : M A) : quiet m -> quiet (wrapping format args m).
Proof.
  intros Hm s1 s2 H. unfold wrapping. destruct (Hm s1 s2 H) as [Hr Hs].
  destruct (m s1) as [[e1|a1] s1'], (m s2) as [[e2|a2] s2']; simpl in *;
    try discriminate; split; congruence.
Qed.

Lemma quiet_attempt {A} (m : M A) : quiet m -> quiet (attempt m).
Proof.
  intros Hm s1 s2 H. unfold attempt. destruct (Hm s1 s2 H) as [Hr Hs].
  destruct (m s1) as [r1 s1'], (m s2) as [r2 s2']; simpl in *. split; congruence.
Qed.

Lemma quiet_roundTrip : quiet roundTrip.
Proof.
  intros s1 s2 (Ht & Hg & Hb). unfold roundTrip. rewrite Hb.
  destruct (budget s2) as [[|n]|] eqn:Hb2; simpl; repeat split; simpl; congruence.
Qed.

Lemma quiet_getTables : quiet getTables.
Proof. intros s1 s2 (Ht & Hg & Hb). unfold getTables. simpl. by rewrite Ht. Qed.

Lemma quiet_setExercises rows : quiet (setExercises rows).
Proof.
  intros s1 s2 (Ht & Hg & Hb). unfold setExercises. simpl.
  repeat split; simpl; congruence.
Qed.

Lemma quiet_setGroups rows : quiet (setGroups rows).
Proof.
  intros s1 s2 (Ht & Hg & Hb). unfold setGroups. simpl.
  repeat split; simpl; congruence.
Qed.

Lemma quiet_nextval : quiet nextval.
Proof.
  intros s1 s2 (Ht & Hg & Hb). unfold nextval. simpl.
  repeat split; simpl; congruence.
Qed.

Lemma quiet_print o : quiet (print o).
Proof. intros s1 s2 (Ht & Hg & Hb). unfold print. simpl. repeat split; done. Qed.

Ltac quiet_step :=
  first
    [ apply quiet_ret | apply quiet_roundTrip | apply quiet_getTables
    | apply quiet_setExercises | apply quiet_setGroups | apply quiet_nextval
    | apply quiet_print | apply quiet_wrapping | apply quiet_attempt
    | apply quiet_bind; [|intros]
    | match goal with
      | |- quiet (match ?x with _ => _ end) => destruct x
      end ].

Ltac quiet_auto := repeat quiet_step; try assumption.

Lemma quiet_getCategoryIDFromProblem p : quiet (getCategoryIDFromProblem p).
Proof. unfold getCategoryIDFromProblem. quiet_auto. Qed.

Lemma quiet_findCategoryID l : quiet (findCategoryID l).
Proof.
  induction l as [|p l IH]; simpl; [apply quiet_ret|].
  apply quiet_bind; [apply quiet_getCategoryIDFromProblem|]. intros c.
  destruct (c =? 0); [done | apply quiet_ret].
Qed.

Lemma quiet_createExerciseGroup c : quiet (createExerciseGroup c).
Proof. unfold createExerciseGroup. quiet_auto. Qed.

Lemma quiet_markGroupAsDeleted g : quiet (markGroupAsDeleted g).
Proof. unfold markGroupAsDeleted. quiet_auto. Qed.

Lemma quiet_markCrossingGroups l : quiet (markCrossingGroups l).
Proof.
  induction l as [|c l IH]; simpl; [apply quiet_ret|].
  apply quiet_bind; [apply quiet_markGroupAsDeleted | done].
Qed.

Lemma quiet_updateExercisesGroup l g : quiet (updateExercisesGroup l g).
Proof. induction l as [|p l IH]; simpl; quiet_auto. Qed.

Lemma quiet_setRepresentativeExercise p g : quiet (setRepresentativeExercise p g).
Proof. unfold setRepresentativeExercise. quiet_auto. Qed.

Lemma quiet_collectRepresentatives l acc : quiet (collectRepresentatives l acc).
Proof. revert acc. induction l as [|c l IH]; intros acc; simpl; quiet_auto. apply IH. Qed.

Lemma quiet_queryHasVideo p : quiet (queryHasVideo p).
Proof. unfold queryHasVideo. quiet_auto. Qed.

Lemma quiet_firstMemberWithVideo l : quiet (firstMemberWithVideo l).
Proof.
  induction l as [|p l IH]; simpl; [apply quiet_ret|].
  apply quiet_bind; [apply quiet_attempt, quiet_queryHasVideo|].
  intros [e|[[|]|]]; first [assumption | apply quiet_ret].
Qed.

Lemma quiet_selectBestRepresentative l cs : quiet (selectBestRepresentative l cs).
Proof.
  unfold selectBestRepresentative.
  destruct (length l =? 0)%nat; [apply quiet_ret|].
  destruct (length cs =? 0)%nat; [apply quiet_ret|].
  apply quiet_bind; [apply quiet_collectRepresentatives|]. intros reps.
  destruct (carriedWithVideo l reps); [apply quiet_ret|].
  destruct (carried l reps); [apply quiet_ret|].
  apply quiet_bind; [apply quiet_firstMemberWithVideo|].
  intros [?|]; apply quiet_ret.
Qed.

Lemma quiet_processResult r : quiet (processResult r).
Proof.
  unfold processResult.
  destruct (length _ =? 0)%nat; [apply quiet_ret|].
  apply quiet_bind; [apply quiet_findCategoryID|]. intros c.
  destruct (c =? 0); [apply quiet_print|].
  apply quiet_bind; [apply quiet_createExerciseGroup|]. intros g.
  apply quiet_bind; [apply quiet_markCrossingGroups|]. intros _.
  apply quiet_bind; [apply quiet_updateExercisesGroup|]. intros _.
  apply quiet_bind; [apply quiet_selectBestRepresentative|]. intros rep.
  destruct (rep =? 0); [apply quiet_ret | apply quiet_setRepresentativeExercise].
Qed.

Lemma quiet_processResults batch : quiet (processResults batch).
Proof.
  induction batch as [|r batch IH]; simpl; [apply quiet_ret|].
  apply quiet_bind; [apply quiet_wrapping, quiet_processResult | done].
Qed.

Lemma processResults_app before after s :
  processResults (before ++ after) s
  = bind (processResults before) (fun _ => processResults after) s.
Proof.
  revert s. induction before as [|r before IH]; intros s; simpl.
  - reflexivity.
  - unfold bind.
    destruct (wrapping _ _ (processResult r) s) as [[e|[]] s']; [done|].
    rewrite IH. reflexivity.
Qed.

(** ** Records whose members have all vanished *)

Lemma processResult_vanished result s :
  budget s = None ->
  CrossingResult.ProblemIDs result ≠ [] ->
  vanished (CrossingResult.ProblemIDs result) (tables s) ->
  processResult result s = (inr tt, warned (CrossingResult.NewGroupID result) s).
Proof.
  intros Hb Hne Hv. unfold processResult.
  destruct (CrossingResult.ProblemIDs result) as [|p l] eqn:Hp; [done|].
  change (length (p :: l) =? 0)%nat with false. cbv iota.
  unfold bind. rewrite findCategoryID_vanished by done. reflexivity.
Qed.

(** The end of [processBatch] after the loop: commit or roll back. *)
Lemma processBatch_unfold batch s :
  budget s = None ->
  processBatch batch s
  = match processResults batch s with
    | (inl e, s2) => (inl e, rollback (tables s) s2)
    | (inr _, s2) =>
        match roundTrip s2 with
        | (inl e, s3) => (inl e, rollback (tables s) s3)
        | (inr _, s3) => (inr tt, s3)
        end
    end.
Proof. intros Hb. unfold processBatch. by rewrite roundTrip_ok. Qed.

(** C5. A record with members none of which has a live exercise in the
    store, on a connection that does not fail: the applier skips it
    without an error, prints the warning and leaves tables, sequence and
    connection as they were; and a chunk that contains the record ends
    as the chunk without it does, with the same outcome (commit or error)
    and the same store. *)
Theorem vanished_record_skipped (result : CrossingResult.t) (s : State) :
  budget s = None ->
  CrossingResult.ProblemIDs result ≠ [] ->
  vanished (CrossingResult.ProblemIDs result) (tables s) ->
  processResult result s = (inr tt, warned (CrossingResult.NewGroupID result) s)
  /\ forall (before after : list CrossingResult.t) (s0 : State),
       budget s0 = None ->
       processResults before s0 = (inr tt, s) ->
       fst (processBatch (before ++ result :: after) s0)
         = fst (processBatch (before ++ after) s0)
       /\ sameStore (snd (processBatch (before ++ result :: after) s0))
                    (snd (processBatch (before ++ after) s0)).
Proof.
  intros Hb Hne Hv.
  pose proof (processResult_vanished result s Hb Hne Hv) as Hskip.
  split; [exact Hskip|].
  intros before after s0 Hb0 Hbefore.
  rewrite !processBatch_unfold by done. rewrite !processResults_app.
  unfold bind. rewrite Hbefore. simpl processResults. unfold bind, wrapping.
  rewrite Hskip.
  destruct (quiet_processResults after _ _
              (sameStore_warned (CrossingResult.NewGroupID result) s)) as [Hr Hs].
  destruct (processResults after (warned _ s)) as [[e1|[]] s1],
           (processResults after s) as [[e2|[]] s2]; simpl in Hr, Hs;
    try discriminate.
  - simpl. split; [done|]. destruct Hs as (? & ? & ?). by repeat split.
  - destruct (quiet_roundTrip s1 s2 Hs) as [Hr' Hs'].
    destruct (roundTrip s1) as [[e1|[]] s1'], (roundTrip s2) as [[e2|[]] s2'];
      simpl in Hr', Hs'; try discriminate; simpl.
    + split; [done|]. destruct Hs' as (? & ? & ?). by repeat split.
    + by split.
Qed.

(** ** The representative flag *)

(** The store's key: no two live exercises carry the same problem id. *)
Definition uniqueLive (rows : list Exercise) : Prop :=
  NoDup (mathflatProblemId <$> List.filter live rows).

(** The live exercises of a group that carry the flag. *)
Definition flagged (groupID : Z) (rows : list Exercise) : list Exercise :=
  List.filter (fun e => inGroup groupID e && live e && is_representative e) rows.







(** *** The applier keeps the key

    No statement of the applier changes the problem id or the
    soft-delete mark of an exercise, or adds or removes one: the key
    holds after a record if it held before. *)

Definition keyOf (e : Exercise) : Z * bool := (mathflatProblemId e, deleted_at e).

Definition keepsKeys {A} (m : M A) : Prop :=
  forall s, keyOf <$> exercises (tables (snd (m s))) = keyOf <$> exercises (tables s).

Lemma keepsKeys_ret {A} (a : A) : keepsKeys (ret a).
Proof. by intros s. Qed.

Lemma keepsKeys_bind {A B} (m : M A) (k : A -> M B) :
  keepsKeys m -> (forall a, keepsKeys (k a)) -> keepsKeys (bind m k).
Proof.
  intros Hm Hk s. unfold bind. specialize (Hm s).
  destruct (m s) as [[e|a] s1]; simpl in *; [done|].
  by rewrite (Hk a s1).
Qed.

Lemma keepsKeys_wrapping {A} format args (m : M A) :
  keepsKeys m -> keepsKeys (wrapping format args m).
Proof.
  intros Hm s. unfold wrapping. specialize (Hm s).
  by destruct (m s) as [[e|a] s1].
Qed.

Lemma keepsKeys_attempt {A} (m : M A) : keepsKeys m -> keepsKeys (attempt m).
Proof.
  intros Hm s. unfold attempt. specialize (Hm s). by destruct (m s) as [r s1].
Qed.

Lemma keepsKeys_roundTrip : keepsKeys roundTrip.
Proof. intros s. unfold roundTrip. by destruct (budget s) as [[|n]|]. Qed.

Lemma keepsKeys_getTables : keepsKeys getTables.
Proof. by intros s. Qed.

Lemma keepsKeys_setGroups rows : keepsKeys (setGroups rows).
Proof. by intros s. Qed.

Lemma keepsKeys_nextval : keepsKeys nextval.
Proof. by intros s. Qed.

Lemma keepsKeys_print o : keepsKeys (print o).
Proof. by intros s. Qed.

Lemma keepsKeys_update (P : Exercise -> bool) (f : Exercise -> Exercise) :
  (forall e, keyOf (f e) = keyOf e) ->
  keepsKeys (bind getTables (fun t => setExercises (update P f (exercises t)))).
Proof.
  intros Hf s. unfold bind, getTables, setExercises, update. simpl.
  rewrite <- list_fmap_compose. apply list_fmap_ext. intros i e _. simpl.
  by destruct (P e).
Qed.

Ltac keepsKeys_step :=
  first
    [ apply keepsKeys_ret | apply keepsKeys_roundTrip | apply keepsKeys_update; done
    | apply keepsKeys_getTables | apply keepsKeys_setGroups | apply keepsKeys_nextval
    | apply keepsKeys_print | apply keepsKeys_wrapping | apply keepsKeys_attempt
    | apply keepsKeys_bind; [|intros]
    | match goal with
      | |- keepsKeys (match ?x with _ => _ end) => destruct x
      end ].

Ltac keepsKeys_auto := repeat keepsKeys_step; try assumption.

Lemma keepsKeys_findCategoryID l : keepsKeys (findCategoryID l).
Proof.
  induction l as [|p l IH]; simpl; [apply keepsKeys_ret|].
  apply keepsKeys_bind; [unfold getCategoryIDFromProblem; keepsKeys_auto|].
  intros c. destruct (c =? 0); [done | apply keepsKeys_ret].
Qed.

Lemma keepsKeys_markCrossingGroups l : keepsKeys (markCrossingGroups l).
Proof.
  induction l as [|c l IH]; simpl; [apply keepsKeys_ret|].
  apply keepsKeys_bind; [unfold markGroupAsDeleted; keepsKeys_auto | done].
Qed.

Lemma keepsKeys_updateExercisesGroup l g : keepsKeys (updateExercisesGroup l g).
Proof. induction l as [|p l IH]; simpl; keepsKeys_auto. Qed.

Lemma keepsKeys_setRepresentativeExercise p g : keepsKeys (setRepresentativeExercise p g).
Proof. unfold setRepresentativeExercise. keepsKeys_auto. Qed.

Lemma keepsKeys_collectRepresentatives l acc : keepsKeys (collectRepresentatives l acc).
Proof.
  revert acc. induction l as [|c l IH]; intros acc; simpl; keepsKeys_auto. apply IH.
Qed.

Lemma keepsKeys_firstMemberWithVideo l : keepsKeys (firstMemberWithVideo l).
Proof.
  induction l as [|p l IH]; simpl; [apply keepsKeys_ret|].
  apply keepsKeys_bind; [unfold queryHasVideo; keepsKeys_auto|].
  intros [e|[[|]|]]; first [assumption | apply keepsKeys_ret].
Qed.

Lemma keepsKeys_selectBestRepresentative l cs : keepsKeys (selectBestRepresentative l cs).
Proof.
  unfold selectBestRepresentative.
  destruct (length l =? 0)%nat; [apply keepsKeys_ret|].
  destruct (length cs =? 0)%nat; [apply keepsKeys_ret|].
  apply keepsKeys_bind; [apply keepsKeys_collectRepresentatives|]. intros reps.
  destruct (carriedWithVideo l reps); [apply keepsKeys_ret|].
  destruct (carried l reps); [apply keepsKeys_ret|].
  apply keepsKeys_bind; [apply keepsKeys_firstMemberWithVideo|].
  intros [?|]; apply keepsKeys_ret.
Qed.

Lemma keepsKeys_processResult r : keepsKeys (processResult r).
Proof.
  unfold processResult.
  destruct (length _ =? 0)%nat; [apply keepsKeys_ret|].
  apply keepsKeys_bind; [apply keepsKeys_findCategoryID|]. intros c.
  destruct (c =? 0); [apply keepsKeys_print|].
  apply keepsKeys_bind; [unfold createExerciseGroup; keepsKeys_auto|]. intros g.
  apply keepsKeys_bind; [apply keepsKeys_markCrossingGroups|]. intros _.
  apply keepsKeys_bind; [apply keepsKeys_updateExercisesGroup|]. intros _.
  apply keepsKeys_bind; [apply keepsKeys_selectBestRepresentative|]. intros rep.
  destruct (rep =? 0); [apply keepsKeys_ret | apply keepsKeys_setRepresentativeExercise].
Qed.

Lemma live_ids_of_keys (rows : list Exercise) :
  mathflatProblemId <$> List.filter live rows
  = fst <$> List.filter (fun k => negb (snd k)) (keyOf <$> rows).
Proof.
  induction rows as [|e rows IH]; [done|].
  rewrite fmap_cons. cbn [List.filter keyOf snd negb]. unfold live at 1.
  destruct (deleted_at e); cbn [negb]; [exact IH|].
  rewrite !fmap_cons. cbn [fst]. by rewrite IH.
Qed.

Lemma processResult_keeps_unique (result : CrossingResult.t) (s : State) :
  uniqueLive (exercises (tables s)) ->
  uniqueLive (exercises (tables (snd (processResult result s)))).
Proof.
  unfold uniqueLive. rewrite !live_ids_of_keys.
  by rewrite (keepsKeys_processResult result s).
Qed.


(** ** Representative selection at application time *)

(** The representatives the crossed groups have in the tables, in the
    order of the crossing groups. *)
Definition crossedRepresentatives (crossingGroups : list CrossingGroup.t) (t : Tables)
  : list RepresentativeInfo.t :=
  flat_map (fun crossing => representativeRows (CrossingGroup.ID crossing) t)
           crossingGroups.

(** The member has a live exercise with a solution video. *)
Definition memberHasVideo (t : Tables) (problemID : Z) : bool :=
  match List.filter (isProblem problemID) (exercises t) with
  | e :: _ => hasVideo e
  | [] => false
  end.

(** The four tiers: a crossed representative that is a member and has a
    video, a crossed representative that is a member, a member with a
    video, the maximum member id. *)
Definition followsTiers (problemIDs : list Z) (crossingGroups : list CrossingGroup.t)
    (t : Tables) (representative : Z) : Prop :=
  let carriedOver :=
    filter (fun rep => RepresentativeInfo.ProblemID rep ∈ problemIDs)
           (crossedRepresentatives crossingGroups t) in
  match filter (fun rep => RepresentativeInfo.HasSolutionVideo rep = true) carriedOver,
        carriedOver,
        filter (fun problemID => memberHasVideo t problemID = true) problemIDs with
  | rep :: _, _, _ => representative = RepresentativeInfo.ProblemID rep
  | [], rep :: _, _ => representative = RepresentativeInfo.ProblemID rep
  | [], [], problemID :: _ => representative = problemID
  | [], [], [] => ResolverFacts.isMaximumOf problemIDs representative
  end.

Lemma collectRepresentatives_ok crossingGroups acc s :
  budget s = None ->
  collectRepresentatives crossingGroups acc s
  = (inr (acc ++ crossedRepresentatives crossingGroups (tables s)), s).
Proof.
  intros Hb. revert acc. induction crossingGroups as [|c l IH]; intros acc; simpl.
  - by rewrite app_nil_r.
  - unfold bind, wrapping, getTables. rewrite roundTrip_ok by done. simpl.
    rewrite IH. by rewrite <- app_assoc.
Qed.

Lemma existsb_member (problemIDs : list Z) (x : Z) :
  existsb (fun problemID => problemID =? x) problemIDs = bool_decide (x ∈ problemIDs).
Proof.
  induction problemIDs as [|p l IH]; simpl; [done|].
  rewrite IH. destruct (Z.eqb_spec p x) as [->|Hne]; simpl.
  - symmetry. apply bool_decide_eq_true. left.
  - apply bool_decide_ext. rewrite elem_of_cons. intuition congruence.
Qed.

Lemma existsb_member_video (problemIDs : list Z) (x : Z) (video : bool) :
  existsb (fun problemID => (problemID =? x) && video) problemIDs
  = bool_decide (x ∈ problemIDs) && video.
Proof.
  rewrite <- existsb_member. induction problemIDs as [|p l IH]; simpl; [done|].
  rewrite IH. destruct (p =? x), video; simpl; try done. by rewrite !andb_false_r.
Qed.

Lemma carried_head problemIDs reps :
  carried problemIDs reps
  = RepresentativeInfo.ProblemID
      <$> head (filter (fun rep => RepresentativeInfo.ProblemID rep ∈ problemIDs) reps).
Proof.
  induction reps as [|rep reps IH]; simpl; [done|].
  rewrite existsb_member, filter_cons.
  destruct (decide (RepresentativeInfo.ProblemID rep ∈ problemIDs)) as [Hin|Hnin].
  - by rewrite bool_decide_eq_true_2.
  - by rewrite bool_decide_eq_false_2.
Qed.

Lemma carriedWithVideo_head problemIDs reps :
  carriedWithVideo problemIDs reps
  = RepresentativeInfo.ProblemID
      <$> head (filter (fun rep => RepresentativeInfo.HasSolutionVideo rep = true)
                  (filter (fun rep => RepresentativeInfo.ProblemID rep ∈ problemIDs) reps)).
Proof.
  induction reps as [|rep reps IH]; simpl; [done|].
  rewrite existsb_member_video, (filter_cons _ rep).
  destruct (decide (RepresentativeInfo.ProblemID rep ∈ problemIDs)) as [Hin|Hnin].
  - rewrite bool_decide_eq_true_2 by done. rewrite filter_cons. simpl.
    destruct (RepresentativeInfo.HasSolutionVideo rep) eqn:Hv.
    + by rewrite decide_True.
    + by rewrite decide_False.
  - by rewrite bool_decide_eq_false_2.
Qed.

Lemma queryHasVideo_ok problemID s :
  budget s = None ->
  attempt (queryHasVideo problemID) s
  = (inr (inr (match List.filter (isProblem problemID) (exercises (tables s)) with
               | e :: _ => Some (hasVideo e)
               | [] => None
               end)), s).
Proof.
  intros Hb. unfold attempt, queryHasVideo, bind, getTables.
  rewrite roundTrip_ok by done.
  by destruct (List.filter _ _).
Qed.

Lemma firstMemberWithVideo_ok problemIDs s :
  budget s = None ->
  firstMemberWithVideo problemIDs s
  = (inr (head (filter (fun problemID => memberHasVideo (tables s) problemID = true)
                       problemIDs)), s).
Proof.
  intros Hb. induction problemIDs as [|p l IH]; simpl; [done|].
  unfold bind. rewrite queryHasVideo_ok by done. rewrite filter_cons.
  assert (memberHasVideo (tables s) p
          = match List.filter (isProblem p) (exercises (tables s)) with
            | e :: _ => hasVideo e
            | [] => false
            end) as Hm by reflexivity.
  destruct (List.filter (isProblem p) (exercises (tables s))) as [|e rest].
  - rewrite decide_False by (by rewrite Hm). apply IH.
  - destruct (hasVideo e).
    + by rewrite decide_True.
    + rewrite decide_False by (by rewrite Hm). apply IH.
Qed.

Lemma highest_maximum problemIDs :
  problemIDs ≠ [] -> ResolverFacts.isMaximumOf problemIDs (highest problemIDs).
Proof.
  destruct problemIDs as [|first rest]; [done|]. intros _. unfold highest.
  destruct (ResolverFacts.highestFrom_maximum first (first :: rest)) as [Hin Hmax].
  split.
  - apply elem_of_cons in Hin as [->|?]; [left | done].
  - intros x Hx. apply Hmax. by right.
Qed.

(** C2 (as amended). On a connection that does not fail, for a record
    with members, the applier's selection leaves the state as it is and
    returns: when the record has no crossing group, the maximum member id;
    otherwise the choice of the four tiers, evaluated on the tables at the
    time of the call. *)
Theorem applier_selection (problemIDs : list Z)
    (crossingGroups : list CrossingGroup.t) (s : State) :
  budget s = None ->
  problemIDs ≠ [] ->
  exists representative,
    selectBestRepresentative problemIDs crossingGroups s = (inr representative, s)
    /\ match crossingGroups with
       | [] => ResolverFacts.isMaximumOf problemIDs representative
       | _ :: _ => followsTiers problemIDs crossingGroups (tables s) representative
       end.
Proof.
  intros Hb Hne. pose proof (highest_maximum problemIDs Hne) as Hmax.
  unfold selectBestRepresentative.
  destruct problemIDs as [|p0 l0] eqn:Hp; [done|].
  change (length (p0 :: l0) =? 0)%nat with false. cbv iota. rewrite <- Hp in *.
  destruct crossingGroups as [|c cs] eqn:Hc.
  { exists (highest problemIDs). by split. }
  change (length (c :: cs) =? 0)%nat with false. cbv iota. rewrite <- Hc.
  unfold bind. rewrite collectRepresentatives_ok by done. rewrite app_nil_l.
  rewrite carriedWithVideo_head, carried_head. unfold followsTiers. cbv zeta.
  set (carriedOver := filter _ (crossedRepresentatives crossingGroups (tables s))).
  destruct (filter _ carriedOver) as [|v vs]; simpl.
  2:{ eexists. split; reflexivity. }
  destruct carriedOver as [|r rs]; simpl.
  2:{ eexists. split; reflexivity. }
  rewrite firstMemberWithVideo_ok by done.
  destruct (filter _ problemIDs) as [|m ms]; simpl; eexists; split; try reflexivity.
  done.
Qed.

(** ** The chunk is the unit of atomicity *)

Lemma processResults_cons result rest s :
  processResults (result :: rest) s
  = match processResult result s with
    | (inl e, s') =>
        (inl (Errorf "failed to process result %d: %w"
                [CrossingResult.NewGroupID result] e), s')
    | (inr _, s') => processResults rest s'
    end.
Proof.
  simpl. unfold bind, wrapping. by destruct (processResult result s) as [[e|[]] s'].
Qed.

Lemma processBatch_error_tables batch s e s' :
  processBatch batch s = (inl e, s') -> tables s' = tables s.
Proof.
  unfold processBatch.
  destruct (roundTrip s) as [[e0|[]] s0] eqn:Hbegin.
  - unfold roundTrip in Hbegin. destruct (budget s) as [[|n]|]; try discriminate.
    intros H. by simplify_eq.
  - destruct (processResults batch s0) as [[e1|[]] s1].
    + intros H. by simplify_eq.
    + destruct (roundTrip s1) as [[e2|[]] s2]; [|discriminate].
      intros H. by simplify_eq.
Qed.

(** C4. A chunk is committed only if every one of its records was
    processed without an error; when the processing of a record returns an
    error the transaction is rolled back, so that the tables are those
    before the chunk, and the error is returned, wrapped with the id of
    the record; whenever the chunk returns an error nothing of it is in
    the tables. *)
Theorem chunk_atomic (batch : list CrossingResult.t) (s : State) :
  (forall s',
      processBatch batch s = (inr tt, s') ->
      forall before result after,
        batch = before ++ result :: after ->
        exists s0 s1 s2,
          roundTrip s = (inr tt, s0)
          /\ processResults before s0 = (inr tt, s1)
          /\ processResult result s1 = (inr tt, s2))
  /\ (forall before result after s0 s1 s2 e,
         batch = before ++ result :: after ->
         roundTrip s = (inr tt, s0) ->
         processResults before s0 = (inr tt, s1) ->
         processResult result s1 = (inl e, s2) ->
         processBatch batch s
         = (inl (Errorf "failed to process result %d: %w"
                   [CrossingResult.NewGroupID result] e),
            rollback (tables s) s2))
  /\ (forall e s', processBatch batch s = (inl e, s') -> tables s' = tables s).
Proof.
  split; [|split].
  - intros s' Hrun before result after ->. unfold processBatch in Hrun.
    destruct (roundTrip s) as [[e0|[]] s0]; [discriminate|].
    rewrite processResults_app in Hrun. unfold bind in Hrun.
    destruct (processResults before s0) as [[e1|[]] s1] eqn:Hbefore; [discriminate|].
    rewrite processResults_cons in Hrun.
    destruct (processResult result s1) as [[e2|[]] s2] eqn:Hresult; [discriminate|].
    by exists s0, s1, s2.
  - intros before result after s0 s1 s2 e -> Hbegin Hbefore Hfail.
    unfold processBatch. rewrite Hbegin, processResults_app. unfold bind.
    rewrite Hbefore, processResults_cons, Hfail. reflexivity.
  - apply processBatch_error_tables.
Qed.

(** [uploadResults] stops at a chunk that fails and returns its error,
    wrapped with the bounds of the chunk. *)
Lemma upload_stops_at_failed_chunk size fuel i total remaining s e s' :
  remaining ≠ [] ->
  processBatch (take size remaining) s = (inl e, s') ->
  uploadFrom size (S fuel) i total remaining s
  = (inl (Errorf "failed to process batch %d-%d: %w"
            [Z.of_nat i; Z.of_nat (i + length (take size remaining)) - 1] e), s').
Proof.
  intros Hne Hfail. destruct remaining as [|r rest]; [done|].
  cbn [uploadFrom]. unfold bind, wrapping. rewrite Hfail. reflexivity.
Qed.

(** The number of records bounds the number of chunks: more fuel does
    not change the run. *)
Lemma uploadFrom_fuel size fuel1 fuel2 i total remaining s :
  (0 < size)%nat ->
  (length remaining <= fuel1)%nat -> (length remaining <= fuel2)%nat ->
  uploadFrom size fuel1 i total remaining s = uploadFrom size fuel2 i total remaining s.
Proof.
  intros Hsize. revert fuel2 i remaining s.
  induction fuel1 as [|fuel1 IH]; intros fuel2 i remaining s H1 H2.
  - destruct remaining; [|simpl in H1; lia]. by destruct fuel2.
  - destruct remaining as [|r rest]; [by destruct fuel2|].
    destruct fuel2 as [|fuel2]; [simpl in H2; lia|].
    cbn [uploadFrom]. unfold bind.
    destruct (wrapping _ _ (processBatch _) s) as [[e|[]] s1]; [done|].
    destruct (print _ s1) as [[e|[]] s2]; [done|].
    apply IH; rewrite length_drop; simpl in *; lia.
Qed.

(** ** A small store

    Group 10 holds the problems 1, 2 and 3 with 2 as its representative;
    problem 1 has a solution video; problem 4 is in no group; problem 9 is
    soft-deleted. The connection does not fail. *)

Definition demoExercises : list Exercise :=
  [ mkExercise 101 1 7 (Some 10) false (Some 900) false;
    mkExercise 102 2 7 (Some 10) true None false;
    mkExercise 103 3 7 (Some 10) false None false;
    mkExercise 104 4 7 None false None false;
    mkExercise 109 9 7 (Some 10) false None true ].

Definition demoTables : Tables := mkTables demoExercises [mkGroupRow 10 7 false].

Definition demoState : State := mkState demoTables 11 None [].

Definition vanishedRecord : CrossingResult.t :=
  CrossingResult.mk 12 0 [9; 50] [] 50 Resolver.reasonNoCrossing.

Definition crossingRecord : CrossingResult.t :=
  CrossingResult.mk 11 10 [2; 3; 4] [CrossingGroup.mk 10 [2; 3]] 2 Resolver.reasonCarried.

Lemma vanished_check (problemIDs : list Z) (t : Tables) :
  forallb (fun problemID =>
             forallb (fun e => negb (isProblem problemID e)) (exercises t))
          problemIDs = true ->
  vanished problemIDs t.
Proof.
  intros H problemID e Hp He.
  rewrite forallb_forall in H. apply list_elem_of_In, H in Hp.
  rewrite forallb_forall in Hp. apply list_elem_of_In, Hp in He.
  by apply negb_true_iff.
Qed.


Lemma empty_record_untouched_witness :
  processResult (CrossingResult.mk 12 0 [] [] 0 Resolver.reasonEmpty) demoState
  = (inr tt, demoState).
Proof. apply empty_record_untouched. reflexivity. Defined.

Lemma vanished_record_skipped_witness :
  processResult vanishedRecord demoState = (inr tt, warned 12 demoState)
  /\ forall (before after : list CrossingResult.t) (s0 : State),
       budget s0 = None ->
       processResults before s0 = (inr tt, demoState) ->
       fst (processBatch (before ++ vanishedRecord :: after) s0)
         = fst (processBatch (before ++ after) s0)
       /\ sameStore (snd (processBatch (before ++ vanishedRecord :: after) s0))
                    (snd (processBatch (before ++ after) s0)).
Proof.
  apply (vanished_record_skipped vanishedRecord demoState).
  - reflexivity.
  - discriminate.
  - apply vanished_check. vm_compute. reflexivity.
Defined.

Example vanished_record_in_chunk :
  processBatch [vanishedRecord; crossingRecord] demoState
  = (let '(r, s) := processBatch [crossingRecord] demoState in
     (r, mkState (tables s) (groupSerial s) (budget s) [WarningSkippingGroup 12])).
Proof. vm_compute. reflexivity. Qed.


Lemma applier_selection_witness :
  exists representative,
    selectBestRepresentative [2; 3; 4] [CrossingGroup.mk 10 [2; 3]] demoState
      = (inr representative, demoState)
    /\ followsTiers [2; 3; 4] [CrossingGroup.mk 10 [2; 3]] (tables demoState) representative.
Proof.
  apply (applier_selection [2; 3; 4] [CrossingGroup.mk 10 [2; 3]] demoState).
  - reflexivity.
  - discriminate.
Defined.

(** C2 (as stated) fails for a record without crossing groups: both
    members 1 and 2 exist and 1 has a video, yet the applier returns the
    maximum id 2, which the tiers do not allow. *)
Lemma applier_selection_ignores_video_without_crossing :
  selectBestRepresentative [1; 2] [] demoState = (inr 2, demoState)
  /\ memberHasVideo (tables demoState) 1 = true
  /\ ~ followsTiers [1; 2] [] (tables demoState) 2.
Proof.
  split; [vm_compute; reflexivity|]. split; [vm_compute; reflexivity|].
  unfold followsTiers. vm_compute. discriminate.
Qed.

(** Inside [processResult] the members are reassigned to the new group
    before the representative is selected, so the query for the
    representatives of the crossed groups no longer returns one that is a
    member: for [crossingRecord] the flag moves from problem 2, the
    representative of the crossed group 10, to the maximum id 4. *)
Example applier_selects_after_reassigning :
  let '(r, s) := processResult crossingRecord demoState in
  r = inr tt
  /\ mathflatProblemId <$> flagged 11 (exercises (tables s)) = [4]
  /\ exercise_groups (tables s) = [mkGroupRow 10 7 true; mkGroupRow 11 7 false].
Proof. vm_compute. repeat split; reflexivity. Qed.

(** The connection drops after four statements: [BeginTx], the two
    category queries of [vanishedRecord], the category query of
    [crossingRecord]; the insert of the new group fails. *)
Definition droppingState : State := mkState demoTables 11 (Some 4%nat) [].

Lemma chunk_atomic_witness :
  exists e s2,
    processBatch [vanishedRecord; crossingRecord] droppingState
    = (inl (Errorf "failed to process result %d: %w" [11] e),
       rollback (tables droppingState) s2).
Proof.
  destruct (chunk_atomic [vanishedRecord; crossingRecord] droppingState)
    as (_ & Hfail & _).
  eexists _, _.
  eapply (Hfail [vanishedRecord] crossingRecord []).
  - reflexivity.
  - vm_compute. reflexivity.
  - vm_compute. reflexivity.
  - vm_compute. reflexivity.
Defined.

Example chunk_rolled_back :
  tables (snd (processBatch [vanishedRecord; crossingRecord] droppingState)) = demoTables
  /\ stdout (snd (processBatch [vanishedRecord; crossingRecord] droppingState))
     = [WarningSkippingGroup 12].
Proof. vm_compute. split; reflexivity. Qed.

End ApplierFacts.

(** * Further properties of the resolver *)

Module ResolverExtras.
Import Resolver ResolverFacts.

(** ** The maximum group id *)

Lemma max_loop_attained (ids : list Z) (start : Z) :
  let m := foldl (fun maxID id => if maxID <? id then id else maxID) start ids in
  m = start \/ m ∈ ids.
Proof.
  revert start. induction ids as [|x ids IH]; intros start; simpl; [by left|].
  destruct (IH (if start <? x then x else start)) as [H|H]; simpl in *.
  - rewrite H. destruct (start <? x); [right; left | by left].
  - right. by right.
Qed.

(** X1. [getMaxGroupID] does not depend on the order in which the map is
    visited: it is never negative, it is at least every group id of the
    snapshot, and it is 0 or one of those ids. *)
Theorem getMaxGroupID_is_maximum (groups : gmap Z ExerciseGroup.t) (order : list Z) :
  order ≡ₚ fst <$> map_to_list groups ->
  getMaxGroupID_in order = getMaxGroupID groups
  /\ 0 <= getMaxGroupID groups
  /\ (forall k, is_Some (groups !! k) -> k <= getMaxGroupID groups)
  /\ (getMaxGroupID groups = 0 \/ is_Some (groups !! getMaxGroupID groups)).
Proof.
  intros Hperm. unfold getMaxGroupID.
  set (keys := fst <$> map_to_list groups) in *.
  assert (forall k, k ∈ keys <-> is_Some (groups !! k)) as Hkeys.
  { intros k. unfold keys. rewrite list_elem_of_fmap. split.
    - intros ([k' g] & -> & Hin). apply elem_of_map_to_list in Hin. by exists g.
    - intros [g Hg]. exists (k, g). split; [done|]. by apply elem_of_map_to_list. }
  unfold getMaxGroupID_in.
  destruct (getMaxGroupID_in_bounds order 0) as [Hle1 Hall1].
  destruct (getMaxGroupID_in_bounds keys 0) as [Hle2 Hall2].
  pose proof (max_loop_attained order 0) as Hat1.
  pose proof (max_loop_attained keys 0) as Hat2.
  simpl in *.
  set (m1 := foldl _ 0 order) in *. set (m2 := foldl _ 0 keys) in *.
  split; [|split; [done|split]].
  - assert (m1 <= m2).
    { destruct Hat1 as [->|Hin]; [done|]. apply Hall2. by rewrite <- Hperm. }
    assert (m2 <= m1).
    { destruct Hat2 as [->|Hin]; [done|]. apply Hall1. by rewrite Hperm. }
    lia.
  - intros k Hk. apply Hall2. by apply Hkeys.
  - destruct Hat2 as [->|Hin]; [by left | right; by apply Hkeys].
Qed.

Lemma getMaxGroupID_is_maximum_witness :
  getMaxGroupID_in [20; 10] = getMaxGroupID snapshot2
  /\ 0 <= getMaxGroupID snapshot2
  /\ (forall k, is_Some (snapshot2 !! k) -> k <= getMaxGroupID snapshot2)
  /\ (getMaxGroupID snapshot2 = 0 \/ is_Some (snapshot2 !! getMaxGroupID snapshot2)).
Proof.
  apply (getMaxGroupID_is_maximum snapshot2 [20; 10]).
  vm_compute. apply perm_swap.
Defined.

(** ** The crossing groups of a grouping *)

Lemma related_inner (groupIDs : list Z) (related : gmap Z bool) g :
  (forall k b, related !! k = Some b -> b = true) ->
  let related' := foldl (fun related groupID => <[groupID := true]> related)
                        related groupIDs in
  (forall k b, related' !! k = Some b -> b = true)
  /\ (is_Some (related' !! g) <-> g ∈ groupIDs \/ is_Some (related !! g)).
Proof.
  revert related. induction groupIDs as [|x l IH]; intros related Htrue; simpl.
  - split; [done|]. rewrite elem_of_nil. tauto.
  - destruct (IH (<[x := true]> related)) as [H1 H2].
    { intros k b. rewrite lookup_insert. case_decide; [congruence | apply Htrue]. }
    split; [done|]. rewrite H2, elem_of_cons, lookup_insert.
    destruct (decide (x = g)) as [->|Hne].
    + split; intros _; [left; by left | right; by eexists].
    + intuition congruence.
Qed.

Lemma related_spec (newGroup : list Z) (problemIndex : gmap Z (list Z)) g :
  is_Some (relatedGroupIDs newGroup problemIndex !! g)
  <-> exists p, p ∈ newGroup /\ g ∈ Go.slice_at problemIndex p.
Proof.
  unfold relatedGroupIDs.
  assert (forall related : gmap Z bool,
             (forall k b, related !! k = Some b -> b = true) ->
             let related' :=
               foldl (fun related problemID =>
                        match problemIndex !! problemID with
                        | Some groupIDs =>
                            foldl (fun related groupID => <[groupID := true]> related)
                                  related groupIDs
                        | None => related
                        end) related newGroup in
             is_Some (related' !! g)
             <-> is_Some (related !! g)
                 \/ exists p, p ∈ newGroup /\ g ∈ Go.slice_at problemIndex p) as H.
  { induction newGroup as [|p l IH]; intros related Htrue; simpl.
    - split; [by left|]. intros [?|(p & Hp & _)]; [done|]. by apply elem_of_nil in Hp.
    - destruct (problemIndex !! p) as [groupIDs|] eqn:Hp.
      + destruct (related_inner groupIDs related g Htrue) as [Htrue' Hin].
        rewrite (IH _ Htrue'), Hin. split.
        * intros [[Hg|?]|(q & Hq & Hgq)]; [|by left|].
          -- right. exists p. split; [left|]. unfold Go.slice_at. by rewrite Hp.
          -- right. exists q. split; [by right | done].
        * intros [?|(q & Hq & Hgq)]; [tauto|].
          apply elem_of_cons in Hq as [->|Hq].
          -- unfold Go.slice_at in Hgq. rewrite Hp in Hgq. tauto.
          -- right. by exists q.
      + rewrite (IH _ Htrue). split.
        * intros [?|(q & Hq & Hgq)]; [by left|]. right. exists q. split; [by right|done].
        * intros [?|(q & Hq & Hgq)]; [by left|].
          apply elem_of_cons in Hq as [->|Hq].
          -- unfold Go.slice_at in Hgq. rewrite Hp in Hgq. by apply elem_of_nil in Hgq.
          -- right. by exists q. }
  rewrite (H ∅) by (intros k b; by rewrite lookup_empty).
  rewrite lookup_empty. split; [|tauto]. intros [[? ?]|?]; done.
Qed.

(** Whether the second loop of [processGroup] records group [g]. *)
Definition crosses (newGroup : list Z) (existingGroups : gmap Z ExerciseGroup.t)
    (g : Z) : bool :=
  match existingGroups !! g with
  | Some group =>
      (0 <? length (findIntersection newGroup (ExerciseGroup.ProblemIDs group)))%nat
  | None => false
  end.

Lemma crossingStep_ids newGroup existingGroups acc base g :
  CrossingGroup.ID <$> fst (crossingStep newGroup existingGroups (acc, base) g)
  = (CrossingGroup.ID <$> acc)
    ++ (if crosses newGroup existingGroups g then [g] else []).
Proof.
  unfold crossingStep, crosses. destruct (existingGroups !! g) as [group|].
  - destruct (0 <? length _)%nat; simpl; [by rewrite fmap_app | by rewrite app_nil_r].
  - simpl. by rewrite app_nil_r.
Qed.

Lemma crossing_ids newGroup existingGroups order acc base :
  CrossingGroup.ID
    <$> fst (foldl (crossingStep newGroup existingGroups) (acc, base) order)
  = (CrossingGroup.ID <$> acc) ++ List.filter (crosses newGroup existingGroups) order.
Proof.
  revert acc base. induction order as [|g order IH]; intros acc base.
  - simpl. by rewrite app_nil_r.
  - cbn [foldl List.filter].
    pose proof (crossingStep_ids newGroup existingGroups acc base g) as Hstep.
    destruct (crossingStep newGroup existingGroups (acc, base) g) as [acc' base'].
    rewrite IH. simpl in Hstep. rewrite Hstep, <- app_assoc.
    by destruct (crosses newGroup existingGroups g).
Qed.

Lemma crosses_spec newGroup existingGroups g :
  crosses newGroup existingGroups g = true
  <-> exists group, existingGroups !! g = Some group
                    /\ exists p, p ∈ newGroup /\ p ∈ ExerciseGroup.ProblemIDs group.
Proof.
  unfold crosses. destruct (existingGroups !! g) as [group|]; [|split; [done|]].
  - rewrite Nat.ltb_lt. split.
    + intros Hlen. exists group. split; [done|].
      destruct (findIntersection newGroup (ExerciseGroup.ProblemIDs group))
        as [|p l] eqn:Hi; [simpl in Hlen; lia|].
      exists p. apply elem_of_findIntersection. rewrite Hi. left.
    + intros (group' & [= <-] & p & Hp1 & Hp2).
      assert (p ∈ findIntersection newGroup (ExerciseGroup.ProblemIDs group)) as Hin
        by (by apply elem_of_findIntersection).
      destruct (findIntersection _ _); [by apply elem_of_nil in Hin | simpl; lia].
  - intros (group & ? & _). done.
Qed.

Lemma index_entry (groups : gmap Z ExerciseGroup.t)
    (visit : list (Z * ExerciseGroup.t)) (p g : Z) :
  visit ≡ₚ map_to_list groups ->
  keyedByID groups ->
  g ∈ Go.slice_at (buildProblemIndex_in visit) p
  <-> exists group, groups !! g = Some group /\ p ∈ ExerciseGroup.ProblemIDs group.
Proof.
  intros Hperm Hkey. unfold buildProblemIndex_in. rewrite buildProblemIndex_from.
  unfold Go.slice_at at 1. rewrite lookup_empty. simpl. split.
  - intros [H|([k group] & Hin & -> & Hp)]; [by apply elem_of_nil in H|].
    rewrite Hperm in Hin. apply elem_of_map_to_list in Hin. simpl in *.
    exists group. by rewrite (Hkey _ _ Hin).
  - intros (group & Hg & Hp). right. exists (g, group). simpl.
    rewrite Hperm, elem_of_map_to_list. by rewrite (Hkey _ _ Hg).
Qed.

(** X2. With the reverse index built from the snapshot, [processGroup]
    records exactly the existing groups that share a member with the
    grouping, each of them once, whatever the orders in which the two maps
    are visited. *)
Theorem crossings_complete (groups : gmap Z ExerciseGroup.t)
    (visit : list (Z * ExerciseGroup.t)) (newGroup : list Z) (order : list Z) :
  keyedByID groups ->
  visit ≡ₚ map_to_list groups ->
  order ≡ₚ fst <$> map_to_list (relatedGroupIDs newGroup (buildProblemIndex_in visit)) ->
  let crossingGroups := fst (crossingsOf order newGroup groups) in
  NoDup (CrossingGroup.ID <$> crossingGroups)
  /\ forall g,
       g ∈ CrossingGroup.ID <$> crossingGroups
       <-> exists group, groups !! g = Some group
                         /\ exists p, p ∈ newGroup /\ p ∈ ExerciseGroup.ProblemIDs group.
Proof.
  intros Hkey Hvisit Horder. cbv zeta. unfold crossingsOf.
  rewrite crossing_ids. simpl.
  set (related := relatedGroupIDs newGroup (buildProblemIndex_in visit)) in *.
  assert (forall g, g ∈ order <-> is_Some (related !! g)) as Hin.
  { intros g. rewrite Horder, list_elem_of_fmap. split.
    - intros ([k b] & -> & H). apply elem_of_map_to_list in H. by exists b.
    - intros [b Hb]. exists (g, b). split; [done|]. by apply elem_of_map_to_list. }
  split.
  - apply NoDup_ListNoDup, List.NoDup_filter, NoDup_ListNoDup.
    rewrite Horder. apply NoDup_fst_map_to_list.
  - intros g. rewrite list_elem_of_In, filter_In, <- list_elem_of_In, crosses_spec, Hin.
    split; [tauto|]. intros (group & Hg & p & Hp1 & Hp2). split; [|by eauto].
    apply related_spec. exists p. split; [done|].
    apply (index_entry groups visit p g Hvisit Hkey). eauto.
Qed.

Lemma crossings_complete_witness :
  let crossingGroups := fst (crossingsOf [20; 10] [2; 4; 7] snapshot2) in
  NoDup (CrossingGroup.ID <$> crossingGroups)
  /\ forall g,
       g ∈ CrossingGroup.ID <$> crossingGroups
       <-> exists group, snapshot2 !! g = Some group
                         /\ exists p, p ∈ [2; 4; 7] /\ p ∈ ExerciseGroup.ProblemIDs group.
Proof.
  apply (crossings_complete snapshot2 [(20, group20v); (10, group10v)] [2; 4; 7] [20; 10]).
  - intros k group H. unfold snapshot2 in H.
    apply lookup_insert_Some in H as [[<- <-]|[_ H]]; [reflexivity|].
    apply lookup_singleton_Some in H as [<- <-]. reflexivity.
  - vm_compute. apply perm_swap.
  - vm_compute. apply perm_swap.
Defined.

Lemma crossingStep_base newGroup existingGroups acc base g :
  snd (crossingStep newGroup existingGroups (acc, base) g)
  = if crosses newGroup existingGroups g
    then (if base <? g then g else base) else base.
Proof.
  unfold crossingStep, crosses. destruct (existingGroups !! g) as [group|]; [|done].
  by destruct (0 <? length _)%nat.
Qed.

Lemma crossing_base newGroup existingGroups order acc base :
  let base' := snd (foldl (crossingStep newGroup existingGroups) (acc, base) order) in
  let ids := List.filter (crosses newGroup existingGroups) order in
  base <= base' /\ (forall id, id ∈ ids -> id <= base') /\ (base' = base \/ base' ∈ ids).
Proof.
  revert acc base. induction order as [|g order IH]; intros acc base.
  - simpl. split; [lia|]. split; [|by left]. intros id H. by apply elem_of_nil in H.
  - cbn [foldl List.filter].
    pose proof (crossingStep_base newGroup existingGroups acc base g) as Hstep.
    destruct (crossingStep newGroup existingGroups (acc, base) g) as [acc' base1].
    simpl in Hstep. destruct (IH acc' base1) as (Hle & Hall & Hat). cbv zeta in *.
    set (base' := snd (foldl _ (acc', base1) order)) in *.
    destruct (crosses newGroup existingGroups g).
    + destruct (Z.ltb_spec base g); subst base1.
      * split; [lia|]. split.
        -- intros id Hid. apply elem_of_cons in Hid as [->|?]; [lia | auto].
        -- destruct Hat as [->|?]; right; [left | by right].
      * split; [lia|]. split.
        -- intros id Hid. apply elem_of_cons in Hid as [->|?]; [lia | auto].
        -- destruct Hat as [->|?]; [by left | right; by right].
    + subst base1. done.
Qed.

(** X3. The base group id of a record is the largest id among its
    crossing groups when that is positive, and 0 otherwise (no crossing
    group, or only ids that are not positive), whatever the visiting
    order. *)
Theorem baseGroupID_is_maximum (order : list Z) (newGroup : list Z)
    (existingGroups : gmap Z ExerciseGroup.t) :
  let crossingGroups := fst (crossingsOf order newGroup existingGroups) in
  let baseGroupID := snd (crossingsOf order newGroup existingGroups) in
  0 <= baseGroupID
  /\ (forall cg, cg ∈ crossingGroups -> CrossingGroup.ID cg <= baseGroupID)
  /\ (baseGroupID = 0
      \/ exists cg, cg ∈ crossingGroups /\ CrossingGroup.ID cg = baseGroupID).
Proof.
  cbv zeta. unfold crossingsOf.
  destruct (crossing_base newGroup existingGroups order [] 0) as (Hle & Hall & Hat).
  pose proof (crossing_ids newGroup existingGroups order [] 0) as Hids.
  simpl in Hids. cbv zeta in *.
  split; [done|]. split.
  - intros cg Hcg. apply Hall. rewrite <- Hids. apply list_elem_of_fmap. by exists cg.
  - destruct Hat as [?|Hin]; [by left|]. right.
    rewrite <- Hids in Hin. apply list_elem_of_fmap in Hin as (cg & -> & Hcg).
    by exists cg.
Qed.

(** ** The selected representative *)

Lemma candidates_members (newGroup : list Z) (reps acc : list RepresentativeInfo.t) :
  (forall c, c ∈ acc -> RepresentativeInfo.ProblemID c ∈ newGroup) ->
  forall c,
    c ∈ foldl (fun candidates rep =>
                 foldl (fun candidates problemID =>
                          if problemID =? RepresentativeInfo.ProblemID rep
                          then candidates ++ [rep] else candidates)
                       candidates newGroup) acc reps ->
    RepresentativeInfo.ProblemID c ∈ newGroup.
Proof.
  revert acc. induction reps as [|rep reps IH]; intros acc Hacc; simpl; [done|].
  apply IH. destruct (candidates_inner rep newGroup acc) as (n & -> & Hn).
  intros c Hc. apply elem_of_app in Hc as [Hc|Hc]; [by apply Hacc|].
  apply elem_of_replicate in Hc as [-> Hn0].
  destruct (decide (RepresentativeInfo.ProblemID rep ∈ newGroup)) as [|Hnin]; [done|].
  by apply (proj2 Hn) in Hnin.
Qed.

Lemma firstWithVideo_elem candidates rep :
  firstWithVideo candidates = Some rep -> rep ∈ candidates.
Proof.
  induction candidates as [|c l IH]; simpl; [done|].
  destruct (RepresentativeInfo.HasSolutionVideo c).
  - intros [= ->]. left.
  - intros H. right. by apply IH.
Qed.

(** X4. The resolver's selection always returns: for the empty grouping
    the id 0, and for every other grouping a problem id that is a member
    of the grouping. *)
Theorem selection_is_member (newGroup : list Z)
    (crossingGroups : list CrossingGroup.t) (existingGroups : gmap Z ExerciseGroup.t) :
  exists representative reason,
    selectBestRepresentative newGroup crossingGroups existingGroups
      = Some (representative, reason)
    /\ match newGroup with
       | [] => representative = 0 /\ reason = reasonEmpty
       | _ :: _ => representative ∈ newGroup
       end.
Proof.
  unfold selectBestRepresentative. destruct newGroup as [|first rest].
  { simpl. by eexists _, _. }
  change (length (first :: rest) =? 0)%nat with false. cbv iota zeta.
  pose proof (candidates_members (first :: rest)
                (collectRepresentatives crossingGroups existingGroups) []) as Hmem.
  fold (collectCandidates (first :: rest)
          (collectRepresentatives crossingGroups existingGroups)) in Hmem.
  destruct (collectCandidates _ _) as [|c cs] eqn:Hc.
  - unfold selectBestFromNewGroup. eexists _, _. split; [reflexivity|].
    pose proof (highestFrom_maximum first (first :: rest)) as Hmax.
    unfold isMaximumOf in Hmax. destruct Hmax as [Hin _].
    apply elem_of_cons in Hin as [Heq|?]; [rewrite Heq; left | done].
  - assert (forall x, x ∈ c :: cs -> RepresentativeInfo.ProblemID x ∈ first :: rest)
      as Hall by (apply Hmem; intros x Hx; by apply elem_of_nil in Hx).
    destruct (firstWithVideo (c :: cs)) as [rep|] eqn:Hv.
    + eexists _, _. split; [reflexivity|]. simpl.
      by apply Hall, firstWithVideo_elem.
    + eexists _, _. split; [reflexivity|]. simpl. apply Hall. left.
Qed.

(** ** The intersection as a set *)

(** X5. Swapping the two arguments of [findIntersection] gives the same
    elements, in a different order at most; with an empty slice on either
    side the intersection is empty. *)
Theorem findIntersection_comm (slice1 slice2 : list Z) :
  findIntersection slice1 slice2 ≡ₚ findIntersection slice2 slice1
  /\ findIntersection [] slice2 = []
  /\ findIntersection slice1 [] = [].
Proof.
  split; [|split].
  - apply NoDup_Permutation; try apply NoDup_findIntersection.
    intros x. rewrite !elem_of_findIntersection. tauto.
  - apply elem_of_nil_inv. intros x Hx.
    apply elem_of_findIntersection in Hx as [Hx _]. by apply elem_of_nil in Hx.
  - reflexivity.
Qed.

(** ** The pool under any schedule and any number of workers *)

Lemma selection_returns newGroup crossingGroups existingGroups :
  is_Some (selectBestRepresentative newGroup crossingGroups existingGroups).
Proof.
  unfold selectBestRepresentative. destruct newGroup as [|first rest]; [by eexists|].
  change (length (first :: rest) =? 0)%nat with false. cbv iota zeta.
  destruct (collectCandidates _ _) as [|c cs]; [by eexists|].
  by destruct (firstWithVideo (c :: cs)); eexists.
Qed.

Lemma elem_of_insert_inv {A} (l : list A) (i : nat) (x y : A) :
  x ∈ <[i := y]> l -> x = y \/ x ∈ l.
Proof.
  revert i. induction l as [|a l IH]; intros [|i]; simpl; try tauto.
  - rewrite !elem_of_cons. tauto.
  - rewrite !elem_of_cons. intros [->|H]; [tauto|]. apply IH in H. tauto.
Qed.

(** The grouping a worker is busy with. *)
Definition groupOf (w : Worker) : option (list Z) :=
  match w with
  | Reading g _ _ | Incrementing g _ _ _ | Storing g _ _ _ _ => Some g
  | _ => None
  end.

Lemma groupOf_insert (ws : list Worker) (w : nat) (old new : Worker) :
  ws !! w = Some old ->
  exists l1 l2,
    omap groupOf ws = l1 ++ option_list (groupOf old) ++ l2
    /\ omap groupOf (<[w := new]> ws) = l1 ++ option_list (groupOf new) ++ l2.
Proof.
  intros Hw. exists (omap groupOf (take w ws)), (omap groupOf (drop (S w) ws)).
  split.
  - rewrite <- (take_drop_middle ws w old Hw) at 1.
    rewrite omap_app. simpl. by destruct (groupOf old).
  - rewrite insert_take_drop by (by eapply lookup_lt_Some).
    rewrite omap_app. simpl. by destruct (groupOf new).
Qed.

Lemma groupOf_replicate n : omap groupOf (replicate n Receiving) = [].
Proof. induction n; simpl; done. Qed.

Definition nonEmptyGroup (g : list Z) : bool := negb (length g =? 0)%nat.

Section AnySchedule.

Variable iter : gmap Z bool -> list Z.
Variable newGroups : list (list Z).
Variable problemIndex : gmap Z (list Z).
Variable existingGroups : gmap Z ExerciseGroup.t.

(** A busy worker holds a non-empty grouping and its crossing groups;
    no worker has panicked. *)
Definition prepared (w : Worker) : Prop :=
  match w with
  | Reading g cgs base | Incrementing g cgs base _ | Storing g cgs base _ _ =>
      nonEmptyGroup g = true
      /\ crossingsOf (iter (relatedGroupIDs g problemIndex)) g existingGroups = (cgs, base)
  | Panicked => False
  | _ => True
  end.

(** A record is what [processGroup] computes for its grouping and its id. *)
Definition expected (r : CrossingResult.t) : Prop :=
  fst (processGroup iter (CrossingResult.ProblemIDs r) problemIndex existingGroups
         (CrossingResult.NewGroupID r)) = Some r.

Definition poolInvariant (p : Pool) : Prop :=
  (exists k,
      (k <= length newGroups)%nat
      /\ jobs p = seq k (length newGroups - k)
      /\ (CrossingResult.ProblemIDs <$> resultsChan p)
           ++ omap groupOf (workers p)
           ++ List.filter nonEmptyGroup (drop k newGroups)
         ≡ₚ List.filter nonEmptyGroup newGroups)
  /\ Forall prepared (workers p)
  /\ Forall expected (resultsChan p)
  /\ (Finished ∈ workers p -> jobs p = []).

Lemma poolInvariant_start n : poolInvariant (startPool newGroups existingGroups n).
Proof.
  unfold startPool. split; [|split; [|split]]; simpl.
  - exists 0%nat. rewrite Nat.sub_0_r, groupOf_replicate. simpl.
    split; [lia|]. by split.
  - apply Forall_replicate. exact I.
  - constructor.
  - intros H. by apply elem_of_replicate in H as [? _].
Qed.

Lemma poolInvariant_step p w :
  poolInvariant p ->
  poolInvariant (step iter newGroups problemIndex existingGroups p w).
Proof.
  intros ((k & Hk & Hjobs & Hperm) & Hprep & Hexp & Hfin). unfold step.
  destruct (workers p !! w) as [state|] eqn:Hw; [|by repeat split; eauto].
  pose proof (Forall_lookup_1 _ _ _ _ Hprep Hw) as Hstate.
  destruct state as [|g cgs base|g cgs base nid|g cgs base nid ld| |];
    try (by repeat split; eauto).
  - (* receiving *)
    destruct (jobs p) as [|i rest] eqn:Hj.
    + destruct (groupOf_insert (workers p) w Receiving Finished Hw)
        as (l1 & l2 & Hold & Hnew).
      simpl in Hold, Hnew.
      unfold setWorker. split; [|split; [|split]]; simpl.
      * exists k. rewrite Hj, Hnew, <- Hold. by repeat split.
      * by apply Forall_insert.
      * done.
      * done.
    + assert (k < length newGroups)%nat as Hlt.
      { destruct (decide (k < length newGroups)%nat); [done|].
        replace (length newGroups - k)%nat with 0%nat in Hjobs by lia. done. }
      replace (length newGroups - k)%nat with (S (length newGroups - S k)) in Hjobs by lia.
      simpl in Hjobs. injection Hjobs as -> ->.
      destruct (lookup_lt_is_Some_2 newGroups k Hlt) as [g Hg]. rewrite Hg.
      rewrite (drop_S _ _ _ Hg) in Hperm. cbn [List.filter] in Hperm.
      assert (Finished ∉ workers p) as Hnofin by (intros H; by apply Hfin in H).
      unfold nonEmptyGroup at 1 in Hperm.
      destruct (length g =? 0)%nat eqn:Hlen; cbn [negb] in Hperm.
      * split; [|split; [|split]]; simpl; try done.
        exists (S k). split; [lia|]. by split.
      * destruct (crossingsOf _ g existingGroups) as [cgs base] eqn:Hcross.
        destruct (groupOf_insert (workers p) w Receiving (Reading g cgs base) Hw)
          as (l1 & l2 & Hold & Hnew).
        simpl in Hold, Hnew.
        unfold setWorker. split; [|split; [|split]]; simpl.
        -- exists (S k). split; [lia|]. split; [done|].
           rewrite Hnew. rewrite Hold in Hperm. rewrite <- Hperm. solve_Permutation.
        -- apply Forall_insert; [done|]. simpl. split; [|done].
           unfold nonEmptyGroup. by rewrite Hlen.
        -- done.
        -- intros H. apply elem_of_insert_inv in H as [?|?]; done.
  - (* the load of the new id *)
    destruct (groupOf_insert (workers p) w (Reading g cgs base)
                (Incrementing g cgs base (nextGroupID p)) Hw) as (l1 & l2 & Hold & Hnew).
    simpl in Hold, Hnew. unfold setWorker. split; [|split; [|split]]; simpl.
    + exists k. rewrite Hnew, <- Hold. by repeat split.
    + by apply Forall_insert.
    + done.
    + intros H. apply elem_of_insert_inv in H as [?|?]; [done | auto].
  - (* the load of the increment *)
    destruct (groupOf_insert (workers p) w (Incrementing g cgs base nid)
                (Storing g cgs base nid (nextGroupID p)) Hw) as (l1 & l2 & Hold & Hnew).
    simpl in Hold, Hnew. unfold setWorker. split; [|split; [|split]]; simpl.
    + exists k. rewrite Hnew, <- Hold. by repeat split.
    + by apply Forall_insert.
    + done.
    + intros H. apply elem_of_insert_inv in H as [?|?]; [done | auto].
  - (* the store and the send *)
    destruct Hstate as [Hne Hcross].
    destruct (selection_returns g cgs existingGroups) as [[rep reason] Hsel].
    rewrite Hsel.
    destruct (groupOf_insert (workers p) w (Storing g cgs base nid ld) Receiving Hw)
      as (l1 & l2 & Hold & Hnew).
    simpl in Hold, Hnew.
    split; [|split; [|split]]; simpl.
    + exists k. split; [done|]. split; [done|].
      rewrite Hnew, fmap_app. rewrite Hold in Hperm. rewrite <- Hperm. simpl.
      solve_Permutation.
    + by apply Forall_insert.
    + apply Forall_app. split; [done|]. constructor; [|constructor].
      unfold expected, processGroup. simpl. by rewrite Hcross, Hsel.
    + intros H. apply elem_of_insert_inv in H as [?|?]; [done | auto].
Qed.






End AnySchedule.

#[local] Instance byNewGroupID_total : Total byNewGroupID.
Proof. intros a b. unfold byNewGroupID. lia. Qed.




(** *** The ids under any schedule *)

Section IdsAnySchedule.

Variable iter : gmap Z bool -> list Z.
Variable newGroups : list (list Z).
Variable problemIndex : gmap Z (list Z).
Variable existingGroups : gmap Z ExerciseGroup.t.

Hypothesis in_range :
  getMaxGroupID existingGroups + 1 + Z.of_nat (length newGroups) < 2 ^ 63.

(** The ids a worker holds lie between the seed and the bound [B]. *)
Definition holdsWithin (B : Z) (w : Worker) : Prop :=
  match w with
  | Incrementing _ _ _ newGroupID =>
      getMaxGroupID existingGroups + 1 <= newGroupID <= B
  | Storing _ _ _ newGroupID loaded =>
      getMaxGroupID existingGroups + 1 <= newGroupID <= B
      /\ getMaxGroupID existingGroups + 1 <= loaded <= B
  | _ => True
  end.

Definition idsInvariant (p : Pool) : Prop :=
  let B := getMaxGroupID existingGroups + 1 + Z.of_nat (length (resultsChan p)) in
  getMaxGroupID existingGroups + 1 <= nextGroupID p <= B
  /\ Forall (holdsWithin B) (workers p)
  /\ Forall (fun r => getMaxGroupID existingGroups + 1 <= CrossingResult.NewGroupID r < B)
            (resultsChan p).

Lemma busy_bound p w state :
  poolInvariant iter newGroups problemIndex existingGroups p ->
  workers p !! w = Some state ->
  is_Some (groupOf state) ->
  (length (resultsChan p) < length newGroups)%nat.
Proof.
  intros ((k & _ & _ & Hperm) & _) Hw [g Hg].
  destruct (groupOf_insert (workers p) w state Receiving Hw) as (l1 & l2 & Hold & _).
  rewrite Hg in Hold. simpl in Hold. rewrite Hold in Hperm.
  apply Permutation_length in Hperm.
  rewrite !length_app, length_fmap in Hperm. simpl in Hperm.
  pose proof (List.filter_length_le nonEmptyGroup newGroups). lia.
Qed.

Lemma idsInvariant_start n : idsInvariant (startPool newGroups existingGroups n).
Proof.
  pose proof (getMaxGroupID_nonneg existingGroups) as Hmax.
  assert (0 < 2 ^ 63) as Hpow by done.
  unfold idsInvariant, startPool. simpl.
  rewrite wrap64_id by lia. split; [lia|]. split; [|constructor].
  apply Forall_replicate. exact I.
Qed.

Lemma idsInvariant_step p w :
  poolInvariant iter newGroups problemIndex existingGroups p ->
  idsInvariant p ->
  idsInvariant (step iter newGroups problemIndex existingGroups p w).
Proof.
  pose proof (getMaxGroupID_nonneg existingGroups) as Hmax.
  assert (0 < 2 ^ 63) as Hpow by done.
  intros Hpool (Hnext & Hheld & Hids). unfold step.
  destruct (workers p !! w) as [state|] eqn:Hw; [|done].
  pose proof (Forall_lookup_1 _ _ _ _ Hheld Hw) as Hstate.
  destruct state as [|g cgs base|g cgs base nid|g cgs base nid ld| |]; try done.
  - destruct (jobs p) as [|i rest].
    + unfold setWorker, idsInvariant. simpl. split; [done|]. split; [|done].
      by apply Forall_insert.
    + destruct (newGroups !! i) as [g|]; simpl.
      * destruct (length g =? 0)%nat;
          [unfold idsInvariant; simpl; split; [done|]; split; done|].
        destruct (crossingsOf _ g existingGroups) as [cgs base].
        unfold setWorker, idsInvariant. simpl. split; [done|]. split; [|done].
        by apply Forall_insert.
      * unfold setWorker, idsInvariant. simpl. split; [done|]. split; [|done].
        by apply Forall_insert.
  - unfold setWorker, idsInvariant. simpl. split; [done|]. split; [|done].
    by apply Forall_insert.
  - unfold setWorker, idsInvariant. simpl. split; [done|]. split; [|done].
    apply Forall_insert; [done|]. simpl in *. by split.
  - assert (length (resultsChan p) < length newGroups)%nat as Hroom
      by (by eapply (busy_bound p w); [| |eexists]).
    destruct Hstate as [Hnid Hld]. simpl in *.
    assert (Go.wrap64 (ld + 1) = ld + 1) as Hwrap by (apply wrap64_id; lia).
    destruct (selection_returns g cgs existingGroups) as [[rep reason] Hsel].
    rewrite Hsel. unfold idsInvariant. simpl. rewrite Hwrap, length_app. simpl.
    split; [lia|]. split.
    + apply Forall_insert; [|exact I].
      eapply Forall_impl; [exact Hheld|]. intros [] Hx; simpl in *; try done; lia.
    + apply Forall_app. split.
      * eapply Forall_impl; [exact Hids|]. intros r Hr. simpl in *. lia.
      * constructor; [simpl; lia | constructor].
Qed.

Lemma both_invariants_run schedule p :
  poolInvariant iter newGroups problemIndex existingGroups p ->
  idsInvariant p ->
  idsInvariant (runPool iter newGroups problemIndex existingGroups schedule p).
Proof.
  revert p. induction schedule as [|w schedule IH]; intros p Hp Hi; simpl; [done|].
  apply IH; [by apply poolInvariant_step | by apply idsInvariant_step].
Qed.

End IdsAnySchedule.

(** X7. Whatever the schedule and the number of workers, as long as the
    counter stays within 64 bits, every new group id of a run is above
    every group id of the snapshot and exceeds the snapshot's maximum by at
    most the number of records: the unsynchronised counter can repeat an
    id but cannot hand out one that exists already. *)
Theorem pool_ids_above_snapshot (iter : gmap Z bool -> list Z)
    (newGroups : list (list Z)) (problemIndex : gmap Z (list Z))
    (existingGroups : gmap Z ExerciseGroup.t) (numWorkers : nat)
    (schedule : list nat) (results : list CrossingResult.t) :
  getMaxGroupID existingGroups + 1 + Z.of_nat (length newGroups) < 2 ^ 63 ->
  processGroups_with iter newGroups problemIndex existingGroups numWorkers schedule
    = Some results ->
  forall r, r ∈ results ->
    (forall k, is_Some (existingGroups !! k) -> k < CrossingResult.NewGroupID r)
    /\ CrossingResult.NewGroupID r
       <= getMaxGroupID existingGroups + Z.of_nat (length results).
Proof.
  intros Hrange. unfold processGroups_with.
  destruct (allFinished _); [|done]. intros [= <-] r Hr.
  rewrite merge_sort_Permutation in Hr.
  assert (length (merge_sort byNewGroupID
                    (resultsChan (runPool iter newGroups problemIndex existingGroups
                                    schedule (startPool newGroups existingGroups numWorkers))))
          = length (resultsChan (runPool iter newGroups problemIndex existingGroups
                                   schedule (startPool newGroups existingGroups numWorkers))))
    as -> by (apply Permutation_length, merge_sort_Permutation).
  destruct (both_invariants_run iter newGroups problemIndex existingGroups Hrange
              schedule _ (poolInvariant_start iter newGroups problemIndex
                            existingGroups numWorkers)
              (idsInvariant_start newGroups existingGroups Hrange numWorkers))
    as (_ & _ & Hids).
  rewrite Forall_forall in Hids. apply Hids in Hr. split; [|lia].
  intros k Hk. apply getMaxGroupID_upper in Hk. lia.
Qed.

Lemma pool_ids_above_snapshot_witness :
  exists results,
    processGroups_with keysInOrder racingGroups (buildProblemIndex snapshot10)
      snapshot10 8 racingSchedule = Some results
    /\ forall r, r ∈ results ->
         (forall k, is_Some (snapshot10 !! k) -> k < CrossingResult.NewGroupID r)
         /\ CrossingResult.NewGroupID r
            <= getMaxGroupID snapshot10 + Z.of_nat (length results).
Proof.
  eexists. split; [vm_compute; reflexivity|].
  eapply (pool_ids_above_snapshot keysInOrder racingGroups
            (buildProblemIndex snapshot10) snapshot10 8 racingSchedule).
  - vm_compute. reflexivity.
  - vm_compute. reflexivity.
Defined.

(** X8. With a single worker the new group ids of a run are pairwise
    distinct, whatever the schedule, as long as the counter stays within
    64 bits. *)
Theorem single_worker_distinct_ids (iter : gmap Z bool -> list Z)
    (newGroups : list (list Z)) (problemIndex : gmap Z (list Z))
    (existingGroups : gmap Z ExerciseGroup.t)
    (schedule : list nat) (results : list CrossingResult.t) :
  getMaxGroupID existingGroups + 1 + Z.of_nat (length newGroups) < 2 ^ 63 ->
  processGroups_with iter newGroups problemIndex existingGroups 1 schedule
    = Some results ->
  NoDup (CrossingResult.NewGroupID <$> results).
Proof.
  intros Hrange. unfold processGroups_with.
  destruct (allFinished _); [|done]. intros [= <-].
  rewrite merge_sort_Permutation.
  by destruct (soloInvariant_run iter newGroups problemIndex existingGroups Hrange
                 schedule _ (soloInvariant_start newGroups existingGroups Hrange))
    as (w & _ & _ & _ & Hnd & _).
Qed.

Lemma single_worker_distinct_ids_witness :
  exists results,
    processGroups_with keysInOrder racingGroups (buildProblemIndex snapshot10)
      snapshot10 1 (replicate 9 0%nat) = Some results
    /\ NoDup (CrossingResult.NewGroupID <$> results).
Proof.
  eexists. split; [vm_compute; reflexivity|].
  eapply (single_worker_distinct_ids keysInOrder racingGroups
            (buildProblemIndex snapshot10) snapshot10 (replicate 9 0%nat)).
  - vm_compute. reflexivity.
  - vm_compute. reflexivity.
Defined.

(** ** More on the snapshot loader *)

Section LoaderExtras.

Variable Atoi : string -> Z * bool.
Variable TrimSpace : string -> string.
Variable Split : string -> string -> list string.

(** What a record does to the snapshot does not depend on the snapshot. *)
Lemma loadRecord_shape (record : list string) :
  (forall groups, loadRecord Atoi TrimSpace Split groups record = None)
  \/ (forall groups, loadRecord Atoi TrimSpace Split groups record = Some groups)
  \/ exists groupID group,
       forall groups,
         loadRecord Atoi TrimSpace Split groups record = Some (<[groupID := group]> groups).
Proof.
  unfold loadRecord. destruct (record !! 0%nat) as [first|]; [|by left].
  destruct (Atoi first) as [groupID [|]]; [|right; by left].
  destruct (groupOfRecord Atoi TrimSpace Split groupID record) as [group|]; [|by left].
  right. right. by exists groupID, group.
Qed.

Lemma loadRecords_union (reads : list Read) (groups : gmap Z ExerciseGroup.t) :
  loadRecords Atoi TrimSpace Split groups reads
  = match loadRecords Atoi TrimSpace Split ∅ reads with
    | Groups loaded => Groups (loaded ∪ groups)
    | failure => failure
    end.
Proof.
  revert groups. induction reads as [|[record|] reads IH]; intros groups; simpl.
  - by rewrite (left_id_L ∅ (∪)).
  - destruct (loadRecord_shape record) as [H|[H|(g & group & H)]]; rewrite !H.
    + done.
    + apply IH.
    + rewrite (IH (<[g := group]> groups)), (IH (<[g := group]> ∅)).
      destruct (loadRecords Atoi TrimSpace Split ∅ reads) as [loaded| |]; [|done..].
      f_equal. rewrite <- (assoc_L (∪)). f_equal.
      rewrite !insert_union_singleton_l. by rewrite (right_id_L ∅ (∪)).
  - done.
Qed.

Lemma insert_over_union (loaded groups : gmap Z ExerciseGroup.t) g a b :
  <[g := b]> (loaded ∪ <[g := a]> groups) = <[g := b]> (loaded ∪ groups).
Proof.
  apply map_eq. intros k. destruct (decide (g = k)) as [->|Hne].
  - by rewrite !lookup_insert_eq.
  - rewrite !lookup_insert_ne by done. rewrite !lookup_union.
    by rewrite lookup_insert_ne.
Qed.

(** X9. When two data rows carry the same group id the later one
    replaces the earlier: the loader returns what it returns for the input
    without the earlier row (both rows having at least the two columns the
    loader indexes). *)
Theorem later_row_wins (header : list string) (before middle after : list Read)
    (record1 record2 : list string) (first1 first2 members1 members2 : string)
    (groupID : Z) :
  record1 !! 0%nat = Some first1 -> record1 !! 1%nat = Some members1 ->
  record2 !! 0%nat = Some first2 -> record2 !! 1%nat = Some members2 ->
  Atoi first1 = (groupID, true) -> Atoi first2 = (groupID, true) ->
  loadExerciseGroups Atoi TrimSpace Split
    (Row header :: before ++ Row record1 :: middle ++ Row record2 :: after)
  = loadExerciseGroups Atoi TrimSpace Split
      (Row header :: before ++ middle ++ Row record2 :: after).
Proof.
  intros H10 H11 H20 H21 Ha1 Ha2. simpl.
  rewrite !(loadRecords_app Atoi TrimSpace Split ∅ before).
  destruct (loadRecords Atoi TrimSpace Split ∅ before) as [groups| |]; [|done..].
  assert (exists a, forall m, loadRecord Atoi TrimSpace Split m record1
                              = Some (<[groupID := a]> m)) as [a Hr1].
  { unfold loadRecord, groupOfRecord. rewrite H10, Ha1, H11. by eexists. }
  assert (exists b, forall m, loadRecord Atoi TrimSpace Split m record2
                              = Some (<[groupID := b]> m)) as [b Hr2].
  { unfold loadRecord, groupOfRecord. rewrite H20, Ha2, H21. by eexists. }
  cbn [loadRecords]. rewrite Hr1.
  rewrite !(loadRecords_app Atoi TrimSpace Split _ middle).
  rewrite (loadRecords_union middle (<[groupID := a]> groups)),
          (loadRecords_union middle groups).
  destruct (loadRecords Atoi TrimSpace Split ∅ middle) as [loaded| |]; [|done..].
  cbn [loadRecords]. rewrite !Hr2. by rewrite insert_over_union.
Qed.

(** X10. For every snapshot the loader returns, the reverse index built
    from it lists group id g under problem p exactly when the loaded group
    g has p among its members, whatever the order in which the map is
    visited. *)
Theorem loaded_snapshot_index (reads : list Read) (groups : gmap Z ExerciseGroup.t)
    (visit : list (Z * ExerciseGroup.t)) (p g : Z) :
  loadExerciseGroups Atoi TrimSpace Split reads = Groups groups ->
  visit ≡ₚ map_to_list groups ->
  g ∈ Go.slice_at (buildProblemIndex_in visit) p
  <-> exists group, groups !! g = Some group /\ p ∈ ExerciseGroup.ProblemIDs group.
Proof.
  intros Hload Hvisit. apply index_entry; [done|].
  by eapply loadExerciseGroups_keyed.
Qed.


End LoaderExtras.

Lemma later_row_wins_witness :
  loadDemo ([Row ["id"; "members"]] ++ [] ++ [Row ["10"; "1,2"]] ++ [Row ["20"; "4"]]
              ++ [Row ["10"; "3"]] ++ [])
  = loadDemo ([Row ["id"; "members"]] ++ [] ++ [Row ["20"; "4"]] ++ [Row ["10"; "3"]] ++ []).
Proof.
  apply (later_row_wins Go.decimalAtoi Go.asciiTrimSpace Go.splitOn
           ["id"; "members"] [] [Row ["20"; "4"]] [] ["10"; "1,2"] ["10"; "3"]
           "10" "10" "1,2" "3" 10); vm_compute; reflexivity.
Defined.

Lemma loaded_snapshot_index_witness :
  20 ∈ Go.slice_at
         (buildProblemIndex_in
            [(20, ExerciseGroup.mk 20 [4; 5] [true; false] 5 true false)]) 5
  <-> exists group,
        ({[ 20 := ExerciseGroup.mk 20 [4; 5] [true; false] 5 true false ]}
           : gmap Z ExerciseGroup.t) !! 20 = Some group
        /\ 5 ∈ ExerciseGroup.ProblemIDs group.
Proof.
  apply (loaded_snapshot_index Go.decimalAtoi Go.asciiTrimSpace Go.splitOn
           [Row ["group_id"; "problem_ids"];
            Row ["x10"; "1,2"];
            Row ["20"; "4, oops ,5"; "true,false"; "5"; "true"; "false"]]).
  - vm_compute. reflexivity.
  - vm_compute. reflexivity.
Defined.


End ResolverExtras.

(** * Further properties of the applier *)

Module ApplierExtras.
Import Applier ApplierFacts.

(** ** What the statements leave behind *)

(** A round trip changes the budget only. *)
Lemma roundTrip_inr s s0 :
  roundTrip s = (inr tt, s0) ->
  tables s0 = tables s /\ groupSerial s0 = groupSerial s /\ stdout s0 = stdout s
  /\ (budget s = None -> s0 = s).
Proof.
  unfold roundTrip. destruct s as [t serial [[|n]|] out]; simpl; intros H;
    simplify_eq; by repeat split.
Qed.

Definition isMember (problemIDs : list Z) (e : Exercise) : bool :=
  existsb (fun problemID => isProblem problemID e) problemIDs.

Lemma update_update_group (problemID : Z) (problemIDs : list Z) (g : Z)
    (rows : list Exercise) :
  update (isMember problemIDs) (withGroup g)
         (update (isProblem problemID) (withGroup g) rows)
  = update (isMember (problemID :: problemIDs)) (withGroup g) rows.
Proof.
  unfold update. rewrite <- list_fmap_compose. apply list_fmap_ext.
  intros i e _. simpl.
  assert (forall x, isMember problemIDs (withGroup g x) = isMember problemIDs x) as Hm.
  { intros x. unfold isMember. by induction problemIDs. }
  destruct (isProblem problemID e); simpl.
  - rewrite Hm. by destruct (isMember problemIDs e).
  - done.
Qed.

Lemma update_none {A} (f : A -> A) (rows : list A) :
  update (fun _ => false) f rows = rows.
Proof. unfold update. induction rows as [|row rows IH]; [done|]. rewrite fmap_cons. by rewrite IH. Qed.

Lemma updateExercisesGroup_inr problemIDs g s s' :
  updateExercisesGroup problemIDs g s = (inr tt, s') ->
  exercises (tables s')
    = update (isMember problemIDs) (withGroup g) (exercises (tables s))
  /\ exercise_groups (tables s') = exercise_groups (tables s)
  /\ groupSerial s' = groupSerial s /\ stdout s' = stdout s
  /\ (budget s = None -> budget s' = None).
Proof.
  revert s. induction problemIDs as [|p l IH]; intros s; simpl.
  - intros [= <-]. unfold isMember. simpl. by rewrite update_none.
  - unfold bind at 1, wrapping, bind at 1.
    destruct (roundTrip s) as [[e|[]] s0] eqn:Hrt; [done|].
    apply roundTrip_inr in Hrt as (Ht & Hg & Ho & Hb).
    unfold bind, getTables, setExercises. simpl. intros Hrest.
    apply IH in Hrest as (Hex & Hgr & Hser & Hout & Hbud). simpl in *.
    rewrite Hex, Hgr, Hser, Hout, Ht, Hg, Ho. split; [apply update_update_group|].
    repeat split; try done. intros Hnone. apply Hbud. by rewrite (Hb Hnone).
Qed.

Lemma updateExercisesGroup_ok problemIDs g s :
  budget s = None -> exists s', updateExercisesGroup problemIDs g s = (inr tt, s').
Proof.
  revert s. induction problemIDs as [|p l IH]; intros s Hb; simpl; [by eexists|].
  unfold bind at 1, wrapping, bind at 1. rewrite roundTrip_ok by done.
  unfold bind, getTables, setExercises. simpl. by apply IH.
Qed.

Lemma isMember_spec (problemIDs : list Z) (e : Exercise) :
  isMember problemIDs e = live e && bool_decide (mathflatProblemId e ∈ problemIDs).
Proof.
  unfold isMember, isProblem. induction problemIDs as [|p l IH]; simpl.
  - by rewrite andb_false_r.
  - rewrite IH. destruct (Z.eqb_spec (mathflatProblemId e) p) as [->|Hne].
    + rewrite (bool_decide_eq_true_2 (p ∈ p :: l)) by left. simpl.
      by destruct (live e).
    + simpl. f_equal. apply bool_decide_ext. rewrite elem_of_cons. intuition congruence.
Qed.

(** X12. When [updateExercisesGroup] returns without an error, every
    live exercise whose problem id is in the list has been moved to the new
    group and nothing else has changed: the other exercises, the
    soft-deleted ones too, are as they were, and so are the group table,
    the sequence and the output. On a connection that does not fail it
    returns without an error. *)
Theorem members_reassigned (problemIDs : list Z) (newGroupID : Z) (s : State) :
  (budget s = None ->
   exists s', updateExercisesGroup problemIDs newGroupID s = (inr tt, s'))
  /\ forall s',
       updateExercisesGroup problemIDs newGroupID s = (inr tt, s') ->
       exercises (tables s')
         = update (fun e => live e && bool_decide (mathflatProblemId e ∈ problemIDs))
                  (withGroup newGroupID) (exercises (tables s))
       /\ exercise_groups (tables s') = exercise_groups (tables s)
       /\ groupSerial s' = groupSerial s /\ stdout s' = stdout s.
Proof.
  split; [apply updateExercisesGroup_ok|]. intros s' Hrun.
  apply updateExercisesGroup_inr in Hrun as (Hex & Hgr & Hser & Hout & _).
  rewrite Hex. repeat split; try done.
  unfold update. apply list_fmap_ext. intros i e _. by rewrite isMember_spec.
Qed.

Lemma members_reassigned_witness :
  (budget demoState = None ->
   exists s', updateExercisesGroup [2; 3; 4] 11 demoState = (inr tt, s'))
  /\ forall s',
       updateExercisesGroup [2; 3; 4] 11 demoState = (inr tt, s') ->
       exercises (tables s')
         = update (fun e => live e && bool_decide (mathflatProblemId e ∈ [2; 3; 4]))
                  (withGroup 11) (exercises (tables demoState))
       /\ exercise_groups (tables s') = exercise_groups (tables demoState)
       /\ groupSerial s' = groupSerial demoState /\ stdout s' = stdout demoState.
Proof. apply (members_reassigned [2; 3; 4] 11 demoState). Defined.

(** ** Soft-deleting the crossed groups *)

Definition softDeleted (g : ExerciseGroupRow) : ExerciseGroupRow :=
  mkGroupRow (group_id g) (group_category_id g) true.

Definition isCrossed (crossingGroups : list CrossingGroup.t) (g : ExerciseGroupRow) : bool :=
  existsb (fun crossing => group_id g =? CrossingGroup.ID crossing) crossingGroups.

Lemma markCrossingGroups_inr crossingGroups s s' :
  markCrossingGroups crossingGroups s = (inr tt, s') ->
  exercise_groups (tables s')
    = update (isCrossed crossingGroups) softDeleted (exercise_groups (tables s))
  /\ exercises (tables s') = exercises (tables s)
  /\ groupSerial s' = groupSerial s /\ stdout s' = stdout s
  /\ (budget s = None -> budget s' = None).
Proof.
  revert s. induction crossingGroups as [|c l IH]; intros s; simpl.
  - intros [= <-]. unfold isCrossed. simpl. by rewrite update_none.
  - unfold bind at 1, markGroupAsDeleted, wrapping, bind at 1.
    destruct (roundTrip s) as [[e|[]] s0] eqn:Hrt; [done|].
    apply roundTrip_inr in Hrt as (Ht & Hg & Ho & Hb).
    unfold bind, getTables, setGroups. simpl. intros Hrest.
    apply IH in Hrest as (Hgr & Hex & Hser & Hout & Hbud). simpl in *.
    rewrite Hgr, Hex, Hser, Hout, Ht, Hg, Ho. split.
    + unfold update. rewrite <- list_fmap_compose. apply list_fmap_ext.
      intros i row _. simpl. unfold isCrossed. simpl.
      destruct (group_id row =? CrossingGroup.ID c); simpl; [|done].
      by destruct (existsb _ l).
    + repeat split; try done. intros Hnone. apply Hbud. by rewrite (Hb Hnone).
Qed.

Lemma markCrossingGroups_ok crossingGroups s :
  budget s = None -> exists s', markCrossingGroups crossingGroups s = (inr tt, s').
Proof.
  revert s. induction crossingGroups as [|c l IH]; intros s Hb; simpl; [by eexists|].
  unfold bind at 1, markGroupAsDeleted, wrapping, bind at 1.
  rewrite roundTrip_ok by done. unfold bind, getTables, setGroups. simpl. by apply IH.
Qed.

Lemma isCrossed_spec (crossingGroups : list CrossingGroup.t) (row : ExerciseGroupRow) :
  isCrossed crossingGroups row
  = bool_decide (group_id row ∈ CrossingGroup.ID <$> crossingGroups).
Proof.
  unfold isCrossed. induction crossingGroups as [|c l IH]; simpl; [done|].
  rewrite IH. destruct (Z.eqb_spec (group_id row) (CrossingGroup.ID c)) as [->|Hne].
  - simpl. symmetry. apply bool_decide_eq_true_2. left.
  - simpl. apply bool_decide_ext. rewrite elem_of_cons. intuition congruence.
Qed.

(** X13. When the soft-deletion of the crossing groups returns without
    an error, every row of the group table whose id is the id of a
    crossing group carries the soft-delete mark (one that did before keeps
    it), every other row is as it was, and no exercise has changed. On a
    connection that does not fail it returns without an error. *)
Theorem crossed_groups_soft_deleted (crossingGroups : list CrossingGroup.t) (s : State) :
  (budget s = None -> exists s', markCrossingGroups crossingGroups s = (inr tt, s'))
  /\ forall s',
       markCrossingGroups crossingGroups s = (inr tt, s') ->
       exercise_groups (tables s')
         = update (fun g => bool_decide (group_id g ∈ CrossingGroup.ID <$> crossingGroups))
                  softDeleted (exercise_groups (tables s))
       /\ exercises (tables s') = exercises (tables s).
Proof.
  split; [apply markCrossingGroups_ok|]. intros s' Hrun.
  apply markCrossingGroups_inr in Hrun as (Hgr & Hex & _). split; [|done].
  rewrite Hgr. unfold update. apply list_fmap_ext. intros i row _.
  by rewrite isCrossed_spec.
Qed.

Lemma crossed_groups_soft_deleted_witness :
  (budget demoState = None ->
   exists s', markCrossingGroups [CrossingGroup.mk 10 [2; 3]] demoState = (inr tt, s'))
  /\ forall s',
       markCrossingGroups [CrossingGroup.mk 10 [2; 3]] demoState = (inr tt, s') ->
       exercise_groups (tables s')
         = update (fun g => bool_decide
                              (group_id g ∈ CrossingGroup.ID <$> [CrossingGroup.mk 10 [2; 3]]))
                  softDeleted (exercise_groups (tables demoState))
       /\ exercises (tables s') = exercises (tables demoState).
Proof. apply (crossed_groups_soft_deleted [CrossingGroup.mk 10 [2; 3]] demoState). Defined.

(** ** Applying one record *)

(** The category the first live exercise of a problem has; 0 when there
    is none. *)
Definition categoryOf (t : Tables) (problemID : Z) : Z :=
  match List.filter (isProblem problemID) (exercises t) with
  | e :: _ => category_id e
  | [] => 0
  end.

(** The first category that is not 0, in the order of the members. *)
Fixpoint firstCategory (t : Tables) (problemIDs : list Z) : Z :=
  match problemIDs with
  | [] => 0
  | problemID :: rest =>
      if categoryOf t problemID =? 0 then firstCategory t rest
      else categoryOf t problemID
  end.

Lemma getCategoryID_ok problemID s :
  budget s = None ->
  getCategoryIDFromProblem problemID s = (inr (categoryOf (tables s) problemID), s).
Proof.
  intros Hb. unfold getCategoryIDFromProblem, wrapping, bind, getTables, categoryOf.
  rewrite roundTrip_ok by done. by destruct (List.filter _ _).
Qed.

Lemma findCategoryID_ok problemIDs s :
  budget s = None ->
  findCategoryID problemIDs s = (inr (firstCategory (tables s) problemIDs), s).
Proof.
  intros Hb. induction problemIDs as [|p l IH]; simpl; [done|].
  unfold bind. rewrite getCategoryID_ok by done.
  by destruct (categoryOf (tables s) p =? 0).
Qed.

Lemma firstCategory_zero t problemIDs :
  firstCategory t problemIDs = 0
  <-> forall problemID, problemID ∈ problemIDs -> categoryOf t problemID = 0.
Proof.
  induction problemIDs as [|p l IH]; simpl.
  - split; [|done]. intros _ x Hx. by apply elem_of_nil in Hx.
  - destruct (Z.eqb_spec (categoryOf t p) 0) as [Hz|Hnz].
    + rewrite IH. split.
      * intros H x Hx. apply elem_of_cons in Hx as [->|?]; auto.
      * intros H x Hx. apply H. by right.
    + split; [done|]. intros H. apply H. left.
Qed.

(** X14. On a connection that does not fail, a record with members is
    skipped with the warning, and nothing else changes, as soon as no
    member yields a category that is not 0: a member whose first live
    exercise has category id 0 counts like a member that does not exist. *)
Theorem skipped_without_category (result : CrossingResult.t) (s : State) :
  budget s = None ->
  CrossingResult.ProblemIDs result ≠ [] ->
  (forall problemID, problemID ∈ CrossingResult.ProblemIDs result ->
                     categoryOf (tables s) problemID = 0) ->
  processResult result s = (inr tt, warned (CrossingResult.NewGroupID result) s).
Proof.
  intros Hb Hne Hzero. apply firstCategory_zero in Hzero. unfold processResult.
  destruct (CrossingResult.ProblemIDs result) as [|p l] eqn:Hp; [done|].
  change (length (p :: l) =? 0)%nat with false. cbv iota.
  unfold bind. rewrite findCategoryID_ok by done. rewrite Hzero. reflexivity.
Qed.

(** Problem 5 exists, under category 0. *)
Definition uncategorised : State :=
  mkState (mkTables [mkExercise 105 5 0 None false None false] []) 1 None [].

Lemma skipped_without_category_witness :
  processResult (CrossingResult.mk 12 0 [5] [] 5 Resolver.reasonNoCrossing) uncategorised
  = (inr tt, warned 12 uncategorised).
Proof.
  apply (skipped_without_category
           (CrossingResult.mk 12 0 [5] [] 5 Resolver.reasonNoCrossing) uncategorised).
  - reflexivity.
  - discriminate.
  - intros problemID H. apply list_elem_of_singleton in H as ->. reflexivity.
Defined.

Lemma createExerciseGroup_none categoryID s :
  budget s = None ->
  createExerciseGroup categoryID s
  = (inr (groupSerial s),
     mkState (mkTables (exercises (tables s))
                       (exercise_groups (tables s)
                          ++ [mkGroupRow (groupSerial s) categoryID false]))
             (groupSerial s + 1) None (stdout s)).
Proof.
  intros Hb. unfold createExerciseGroup, wrapping, bind, nextval, getTables, setGroups.
  rewrite roundTrip_ok by done. simpl. by rewrite Hb.
Qed.

Lemma setRepresentativeExercise_none problemID groupID s :
  budget s = None ->
  setRepresentativeExercise problemID groupID s
  = (inr tt,
     mkState (mkTables
                (update (fun e => isProblem problemID e && inGroup groupID e)
                        (withRepresentative true)
                        (update (fun e => inGroup groupID e && live e)
                                (withRepresentative false) (exercises (tables s))))
                (exercise_groups (tables s)))
             (groupSerial s) None (stdout s)).
Proof.
  intros Hb.
  unfold setRepresentativeExercise, wrapping, bind, roundTrip, getTables, setExercises.
  rewrite Hb. simpl. by rewrite Hb.
Qed.

Lemma selectBestRepresentative_none problemIDs crossingGroups s :
  budget s = None ->
  exists representative,
    selectBestRepresentative problemIDs crossingGroups s = (inr representative, s).
Proof.
  intros Hb. unfold selectBestRepresentative.
  destruct (length problemIDs =? 0)%nat; [by eexists|].
  destruct (length crossingGroups =? 0)%nat; [by eexists|].
  unfold bind. rewrite collectRepresentatives_ok by done.
  destruct (carriedWithVideo _ _); [by eexists|].
  destruct (carried _ _); [by eexists|].
  rewrite firstMemberWithVideo_ok by done.
  destruct (head _); by eexists.
Qed.

Lemma flag_erased (P : Exercise -> bool) (b : bool) (rows : list Exercise) :
  withRepresentative false <$> update P (withRepresentative b) rows
  = withRepresentative false <$> rows.
Proof.
  unfold update. rewrite <- list_fmap_compose. apply list_fmap_ext.
  intros i e _. simpl. by destruct (P e).
Qed.

(** X15. On a connection that does not fail, a record for which some
    member yields a category that is not 0 is applied without an error:
    one group row is added, with the next value of the sequence as its id
    and the first such category; every group row whose id is the id of a
    crossing group is soft-deleted (the new row too, should a crossing
    group carry its id); the live exercises of the members are moved to the
    new group; and apart from the representative flag no exercise changes
    otherwise. *)
Theorem record_applied (result : CrossingResult.t) (s : State) :
  budget s = None ->
  firstCategory (tables s) (CrossingResult.ProblemIDs result) ≠ 0 ->
  exists s',
    processResult result s = (inr tt, s')
    /\ groupSerial s' = groupSerial s + 1
    /\ stdout s' = stdout s
    /\ exercise_groups (tables s')
       = update (fun g => bool_decide
                            (group_id g
                               ∈ CrossingGroup.ID <$> CrossingResult.CrossingGroups result))
                softDeleted
                (exercise_groups (tables s)
                   ++ [mkGroupRow (groupSerial s)
                         (firstCategory (tables s) (CrossingResult.ProblemIDs result))
                         false])
    /\ withRepresentative false <$> exercises (tables s')
       = withRepresentative false
           <$> update (fun e => live e
                                && bool_decide (mathflatProblemId e
                                                  ∈ CrossingResult.ProblemIDs result))
                      (withGroup (groupSerial s)) (exercises (tables s)).
Proof.
  intros Hb Hcat. unfold processResult.
  destruct (CrossingResult.ProblemIDs result) as [|p0 l0] eqn:Hp; [done|].
  change (length (p0 :: l0) =? 0)%nat with false. cbv iota. rewrite <- Hp in *.
  unfold bind at 1. rewrite findCategoryID_ok by done.
  destruct (Z.eqb_spec (firstCategory (tables s) (CrossingResult.ProblemIDs result)) 0)
    as [?|_]; [done|].
  set (c := firstCategory (tables s) (CrossingResult.ProblemIDs result)) in *.
  unfold bind at 1. rewrite createExerciseGroup_none by done.
  set (s1 := mkState _ _ None _).
  destruct (markCrossingGroups_ok (CrossingResult.CrossingGroups result) s1 eq_refl)
    as [s2 Hmark].
  unfold bind at 1. rewrite Hmark.
  apply markCrossingGroups_inr in Hmark as (Hgr2 & Hex2 & Hser2 & Hout2 & Hb2).
  specialize (Hb2 eq_refl).
  destruct (updateExercisesGroup_ok (CrossingResult.ProblemIDs result)
              (groupSerial s) s2 Hb2) as [s3 Hupd].
  unfold bind at 1. rewrite Hupd.
  apply updateExercisesGroup_inr in Hupd as (Hex3 & Hgr3 & Hser3 & Hout3 & Hb3).
  specialize (Hb3 Hb2).
  destruct (selectBestRepresentative_none (CrossingResult.ProblemIDs result)
              (CrossingResult.CrossingGroups result) s3 Hb3) as [rep Hsel].
  unfold bind. rewrite Hsel.
  assert (withRepresentative false <$> exercises (tables s3)
          = withRepresentative false
              <$> update (fun e => live e
                                   && bool_decide (mathflatProblemId e
                                                     ∈ CrossingResult.ProblemIDs result))
                         (withGroup (groupSerial s)) (exercises (tables s))) as Hrows.
  { rewrite Hex3, Hex2. simpl. f_equal. unfold update. apply list_fmap_ext.
    intros i e _. by rewrite isMember_spec. }
  assert (exercise_groups (tables s3)
          = update (fun g => bool_decide
                               (group_id g
                                  ∈ CrossingGroup.ID <$> CrossingResult.CrossingGroups result))
                   softDeleted
                   (exercise_groups (tables s) ++ [mkGroupRow (groupSerial s) c false]))
    as Hgroups.
  { rewrite Hgr3, Hgr2. simpl. unfold update. apply list_fmap_ext.
    intros i row _. by rewrite isCrossed_spec. }
  destruct (rep =? 0).
  - exists s3. split; [done|]. rewrite Hser3, Hser2, Hout3, Hout2. by repeat split.
  - rewrite setRepresentativeExercise_none by done. eexists. split; [reflexivity|].
    simpl. rewrite Hser3, Hser2, Hout3, Hout2, !flag_erased. by repeat split.
Qed.

Lemma record_applied_witness :
  exists s',
    processResult crossingRecord demoState = (inr tt, s')
    /\ groupSerial s' = groupSerial demoState + 1
    /\ stdout s' = stdout demoState
    /\ exercise_groups (tables s')
       = update (fun g => bool_decide
                            (group_id g
                               ∈ CrossingGroup.ID <$> CrossingResult.CrossingGroups crossingRecord))
                softDeleted
                (exercise_groups (tables demoState)
                   ++ [mkGroupRow (groupSerial demoState)
                         (firstCategory (tables demoState)
                            (CrossingResult.ProblemIDs crossingRecord))
                         false])
    /\ withRepresentative false <$> exercises (tables s')
       = withRepresentative false
           <$> update (fun e => live e
                                && bool_decide (mathflatProblemId e
                                                  ∈ CrossingResult.ProblemIDs crossingRecord))
                      (withGroup (groupSerial demoState)) (exercises (tables demoState)).
Proof.
  apply (record_applied crossingRecord demoState).
  - reflexivity.
  - vm_compute. discriminate.
Defined.

(** ** The representative the applier selects *)

Lemma carriedWithVideo_member problemIDs reps x :
  carriedWithVideo problemIDs reps = Some x -> x ∈ problemIDs.
Proof.
  induction reps as [|rep reps IH]; simpl; [done|].
  destruct (existsb _ problemIDs) eqn:Hex; [|done].
  intros [= <-]. apply existsb_exists in Hex as (p & Hin & Hp).
  apply andb_prop in Hp as [Hp _]. apply Z.eqb_eq in Hp as <-.
  by apply list_elem_of_In.
Qed.

Lemma carried_member problemIDs reps x :
  carried problemIDs reps = Some x -> x ∈ problemIDs.
Proof.
  induction reps as [|rep reps IH]; simpl; [done|].
  destruct (existsb _ problemIDs) eqn:Hex; [|done].
  intros [= <-]. apply existsb_exists in Hex as (p & Hin & Hp).
  apply Z.eqb_eq in Hp as <-. by apply list_elem_of_In.
Qed.

Lemma firstMemberWithVideo_member problemIDs s x s' :
  firstMemberWithVideo problemIDs s = (inr (Some x), s') -> x ∈ problemIDs.
Proof.
  revert s. induction problemIDs as [|p l IH]; intros s; simpl; [done|].
  unfold bind, attempt.
  destruct (queryHasVideo p s) as [[e|[[|]|]] s1].
  - intros H. right. by eapply IH.
  - intros [= <- _]. left.
  - intros H. right. by eapply IH.
  - intros H. right. by eapply IH.
Qed.

(** X16. Whatever the connection does, a representative the applier's
    selection returns is 0 for an empty member list and a member of the
    record otherwise. *)
Theorem applier_selection_is_member (problemIDs : list Z)
    (crossingGroups : list CrossingGroup.t) (s s' : State) (representative : Z) :
  selectBestRepresentative problemIDs crossingGroups s = (inr representative, s') ->
  match problemIDs with
  | [] => representative = 0
  | _ :: _ => representative ∈ problemIDs
  end.
Proof.
  unfold selectBestRepresentative. destruct problemIDs as [|p0 l0] eqn:Hp.
  { simpl. by intros [= <- _]. }
  change (length (p0 :: l0) =? 0)%nat with false. cbv iota. rewrite <- Hp.
  assert (highest problemIDs ∈ problemIDs) as Hhigh
    by (apply highest_maximum; by rewrite Hp).
  destruct (length crossingGroups =? 0)%nat; [by intros [= <- _]|].
  unfold bind.
  destruct (collectRepresentatives crossingGroups [] s) as [[e|reps] s1]; [done|].
  destruct (carriedWithVideo problemIDs reps) as [x|] eqn:Hcv.
  { intros [= <- _]. by eapply carriedWithVideo_member. }
  destruct (carried problemIDs reps) as [x|] eqn:Hc.
  { intros [= <- _]. by eapply carried_member. }
  destruct (firstMemberWithVideo problemIDs s1) as [[e|[x|]] s2] eqn:Hf; [done| |].
  - intros [= <- _]. by eapply firstMemberWithVideo_member.
  - by intros [= <- _].
Qed.

Lemma applier_selection_is_member_witness : 4 ∈ [2; 3; 4].
Proof.
  apply (applier_selection_is_member [2; 3; 4] [CrossingGroup.mk 20 [4]]
           demoState demoState 4).
  vm_compute. reflexivity.
Defined.

(** After the reassignment no representative of another group is a member. *)
Lemma no_member_representative problemIDs crossingGroups g rows rep :
  g ∉ CrossingGroup.ID <$> crossingGroups ->
  rep ∈ crossedRepresentatives crossingGroups
          (mkTables (update (isMember problemIDs) (withGroup g) rows) []) ->
  RepresentativeInfo.ProblemID rep ∉ problemIDs.
Proof.
  intros Hg Hrep Hin. unfold crossedRepresentatives in Hrep.
  apply list_elem_of_In, in_flat_map in Hrep as (c & Hc & Hrep).
  unfold representativeRows in Hrep. simpl in Hrep.
  apply list_elem_of_In, list_elem_of_fmap in Hrep as (e' & -> & He').
  apply list_elem_of_In, filter_In in He' as [He' Hsel].
  apply list_elem_of_In, list_elem_of_fmap in He' as (e & -> & _).
  simpl in Hin.
  apply andb_prop in Hsel as [Hsel Hlive]. apply andb_prop in Hsel as [Hgroup _].
  assert (CrossingGroup.ID c ≠ g) as Hne.
  { intros <-. apply Hg, list_elem_of_fmap. exists c. split; [done|].
    by apply list_elem_of_In. }
  destruct (isMember problemIDs e) eqn:Hmem.
  - unfold inGroup, withGroup in Hgroup. simpl in Hgroup.
    apply Z.eqb_eq in Hgroup. congruence.
  - rewrite isMember_spec in Hmem.
    rewrite (bool_decide_eq_true_2 _ Hin), andb_true_r in Hmem. congruence.
Qed.

(** X17. Inside [processResult] the selection runs after the members
    have been reassigned. On a connection that does not fail, with at
    least one crossing group and a new group id that is not the id of a
    crossing group, what it returns then is the first member that has a
    video, or the highest member id when none has: the representatives of
    the crossed groups are no longer found. *)
Theorem selection_after_reassignment (problemIDs : list Z)
    (crossingGroups : list CrossingGroup.t) (newGroupID : Z) (s s1 : State) :
  budget s = None ->
  problemIDs ≠ [] -> crossingGroups ≠ [] ->
  newGroupID ∉ CrossingGroup.ID <$> crossingGroups ->
  updateExercisesGroup problemIDs newGroupID s = (inr tt, s1) ->
  selectBestRepresentative problemIDs crossingGroups s1
  = (inr (match filter (fun p => memberHasVideo (tables s1) p = true) problemIDs with
          | p :: _ => p
          | [] => highest problemIDs
          end), s1).
Proof.
  intros Hb Hp Hc Hnew Hupd.
  apply updateExercisesGroup_inr in Hupd as (Hex & _ & _ & _ & Hb1).
  specialize (Hb1 Hb). unfold selectBestRepresentative.
  destruct problemIDs as [|p0 l0] eqn:Hpe; [done|].
  change (length (p0 :: l0) =? 0)%nat with false. cbv iota. rewrite <- Hpe in *.
  destruct crossingGroups as [|c0 cs0] eqn:Hce; [done|].
  change (length (c0 :: cs0) =? 0)%nat with false. cbv iota. rewrite <- Hce in *.
  unfold bind. rewrite collectRepresentatives_ok by done. rewrite app_nil_l.
  rewrite carriedWithVideo_head, carried_head.
  assert (filter (fun rep => RepresentativeInfo.ProblemID rep ∈ problemIDs)
                 (crossedRepresentatives crossingGroups (tables s1)) = []) as ->.
  { apply elem_of_nil_inv. intros rep Hrep.
    apply list_elem_of_filter in Hrep as [Hmem Hrep].
    eapply (no_member_representative problemIDs crossingGroups newGroupID
              (exercises (tables s)) rep); [done| |done].
    unfold crossedRepresentatives, representativeRows in *. simpl.
    by rewrite <- Hex. }
  rewrite filter_nil. simpl. rewrite firstMemberWithVideo_ok by done.
  by destruct (filter _ problemIDs).
Qed.

Lemma selection_after_reassignment_witness :
  exists s1,
    updateExercisesGroup [2; 3; 4] 11 demoState = (inr tt, s1)
    /\ selectBestRepresentative [2; 3; 4] [CrossingGroup.mk 10 [2; 3]] s1
       = (inr (match filter (fun p => memberHasVideo (tables s1) p = true) [2; 3; 4] with
               | p :: _ => p
               | [] => highest [2; 3; 4]
               end), s1).
Proof.
  eexists. split; [vm_compute; reflexivity|].
  eapply (selection_after_reassignment [2; 3; 4] [CrossingGroup.mk 10 [2; 3]] 11 demoState).
  - reflexivity.
  - discriminate.
  - discriminate.
  - intros H. apply list_elem_of_singleton in H. discriminate.
  - vm_compute. reflexivity.
Defined.

(** ** Chunks that were committed stay committed *)

(** The state after the progress line of a chunk. *)
Definition logged (first last : Z) (done total : nat) (s : State) : State :=
  mkState (tables s) (groupSerial s) (budget s)
          (stdout s ++ [ProcessedBatch first last done total]).

Lemma uploadFrom_next size fuel i total remaining s s1 :
  remaining ≠ [] ->
  processBatch (take size remaining) s = (inr tt, s1) ->
  uploadFrom size (S fuel) i total remaining s
  = uploadFrom size fuel (i + length (take size remaining)) total (drop size remaining)
      (logged (Z.of_nat i) (Z.of_nat (i + length (take size remaining)) - 1)
              (i + length (take size remaining)) total s1).
Proof.
  intros Hne Hok. destruct remaining as [|r rest]; [done|].
  cbn [uploadFrom]. unfold bind, wrapping. rewrite Hok. reflexivity.
Qed.

(** X18. When the first chunk of an upload is committed and the second
    fails, [uploadResults] returns the error of the second chunk wrapped
    with that chunk's bounds, and the tables are those the first chunk
    left: what was committed is not undone and later chunks are not
    started. *)
Theorem committed_chunk_stays (size : nat) (chunk rest : list CrossingResult.t)
    (s s1 s2 : State) (e : Error) :
  (0 < size)%nat -> length chunk = size -> rest ≠ [] ->
  processBatch chunk s = (inr tt, s1) ->
  processBatch (take size rest)
    (logged 0 (Z.of_nat size - 1) size (length (chunk ++ rest)) s1) = (inl e, s2) ->
  uploadResults_by size (chunk ++ rest) s
  = (inl (Errorf "failed to process batch %d-%d: %w"
            [Z.of_nat size; Z.of_nat (size + length (take size rest)) - 1] e), s2)
  /\ tables s2 = tables s1.
Proof.
  intros Hsize Hlen Hrest Hfirst Hsecond. split.
  - unfold uploadResults_by.
    assert (take size (chunk ++ rest) = chunk) as Htake
      by (rewrite <- Hlen; apply take_app_length).
    assert (drop size (chunk ++ rest) = rest) as Hdrop
      by (rewrite <- Hlen; apply drop_app_length).
    destruct rest as [|r rest']; [done|].
    assert (exists fuel, length (chunk ++ r :: rest') = S (S fuel)) as [fuel Hfuel].
    { rewrite length_app. simpl. exists (length chunk + length rest' - 1)%nat. lia. }
    rewrite Hfuel in *.
    rewrite (uploadFrom_next size (S fuel) 0 _ (chunk ++ r :: rest') s s1).
    + rewrite Htake, Hdrop, Hlen. simpl (0 + size)%nat.
      by apply upload_stops_at_failed_chunk.
    + by destruct chunk.
    + by rewrite Htake.
  - apply processBatch_error_tables in Hsecond. by rewrite Hsecond.
Qed.

Lemma committed_chunk_stays_witness :
  exists e s1 s2,
    processBatch [vanishedRecord] droppingState = (inr tt, s1)
    /\ uploadResults_by 1 ([vanishedRecord] ++ [crossingRecord]) droppingState
       = (inl (Errorf "failed to process batch %d-%d: %w"
                 [Z.of_nat 1; Z.of_nat (1 + length (take 1 [crossingRecord])) - 1] e), s2)
    /\ tables s2 = tables s1.
Proof.
  eexists _, _, _. split; [vm_compute; reflexivity|].
  eapply (committed_chunk_stays 1 [vanishedRecord] [crossingRecord] droppingState).
  - lia.
  - reflexivity.
  - discriminate.
  - vm_compute. reflexivity.
  - vm_compute. reflexivity.
Defined.

End ApplierExtras.

(** * Properties of the sequence files *)

Module SequenceFacts.

Import Sequences.

Lemma isEmpty_true (s : string) : isEmpty s = true <-> s = ""%string.
Proof. apply String.eqb_eq. Qed.

Lemma isEmpty_false (s : string) : isEmpty s = false <-> s ≠ ""%string.
Proof. apply String.eqb_neq. Qed.

(** [k] lists the names of [m] by sequence. *)
Definition numbered (k : list string) (m : gmap string nat) : Prop :=
  forall name i, m !! name = Some i <-> k !! i = Some name.

Lemma numbered_nil : numbered [] ∅.
Proof. intros name i. by rewrite lookup_empty, lookup_nil. Qed.

Lemma numbered_fresh (k : list string) (m : gmap string nat) (name : string) :
  numbered k m -> name ∉ k -> m !! name = None.
Proof.
  intros Hn Hk. destruct (m !! name) as [i|] eqn:E; [|done].
  apply Hn in E. by apply list_elem_of_lookup_2 in E.
Qed.

Lemma numbered_snoc (k : list string) (m : gmap string nat) (t : string) :
  numbered k m -> t ∉ k -> numbered (k ++ [t]) (<[t := length k]> m).
Proof.
  intros Hn Hk name i. destruct (decide (name = t)) as [->|Hne].
  - rewrite lookup_insert_eq. split.
    + intros [= <-]. by rewrite list_lookup_middle.
    + intros Hi. destruct (decide (i < length k)%nat) as [Hlt|Hge].
      * rewrite lookup_app_l in Hi by done.
        by apply list_elem_of_lookup_2 in Hi.
      * apply lookup_lt_Some in Hi. rewrite length_app in Hi. simpl in Hi.
        f_equal. lia.
  - rewrite lookup_insert_ne by done. rewrite (Hn name i). split.
    + intros Hi. by apply lookup_app_l_Some.
    + intros Hi. apply lookup_app_Some in Hi as [Hi|[_ Hi]]; [done|].
      apply list_lookup_singleton_Some in Hi as [_ ->]. done.
Qed.

Lemma numbered_size (k : list string) (m : gmap string nat) :
  numbered k m -> NoDup k -> size m = length k.
Proof.
  revert m. induction k as [|t k IH] using rev_ind; intros m Hn Hd.
  - simpl. apply map_size_empty_iff. apply map_eq. intros name.
    rewrite lookup_empty. destruct (m !! name) as [i|] eqn:E; [|done].
    apply Hn in E. by rewrite lookup_nil in E.
  - apply NoDup_app in Hd as (Hd & Hnot & _).
    assert (Ht : t ∉ k) by (intros Hin; apply (Hnot _ Hin); by left).
    assert (Hm : m !! t = Some (length k)).
    { apply Hn. by rewrite list_lookup_middle. }
    rewrite <- (insert_delete_id m t (length k)) by done.
    rewrite map_size_insert_None by apply lookup_delete_eq.
    rewrite length_app. simpl. rewrite (IH (delete t m)); [lia| |done].
    intros name i. destruct (decide (name = t)) as [->|Hne].
    + rewrite lookup_delete_eq. split; [done|]. intros Hi.
      by apply list_elem_of_lookup_2 in Hi.
    + rewrite lookup_delete_ne by done. rewrite (Hn name i). split.
      * intros Hi. apply lookup_app_Some in Hi as [Hi|[_ Hi]]; [done|].
        apply list_lookup_singleton_Some in Hi as [_ ->]. done.
      * intros Hi. by apply lookup_app_l_Some.
Qed.

Section SequenceFacts.

Variable TrimSpace : string -> string.
Variable scan : string -> list string * bool.
Variable iter : gmap string nat -> list (string * nat).

(** The names of scanned lines: trimmed, the blank ones left out. *)
Definition names (lines : list string) : list string :=
  List.filter (fun line => negb (isEmpty line)) (map TrimSpace lines).

(** What opening and scanning the file gives without an error. *)
Definition holds (f : File) (lines : list string) : Prop :=
  (f = NotExist /\ lines = []) \/
  (exists text, f = Content text /\ scan text = (lines, false)).

Lemma scanned_numbered (lines : list string) :
  forall (k : list string) (m : gmap string nat),
    numbered k m -> NoDup (k ++ names lines) ->
    exists m',
      foldl (scanLine TrimSpace) (m, length k) lines
      = (m', length (k ++ names lines))
      /\ numbered (k ++ names lines) m'.
Proof.
  induction lines as [|line lines IH]; intros k m Hn Hd.
  - simpl. rewrite app_nil_r. by exists m.
  - simpl. unfold names in *. simpl in *.
    destruct (isEmpty (TrimSpace line)) eqn:E; simpl in *.
    + by apply IH.
    + assert (Ht : TrimSpace line ∉ k).
      { apply NoDup_app in Hd as (_ & Hnot & _). intros Hin.
        apply (Hnot _ Hin). by left. }
      rewrite (cons_middle _ k) in *. rewrite app_assoc in *.
      replace (S (length k)) with (length (k ++ [TrimSpace line]))
        by (rewrite length_app; simpl; lia).
      apply IH; [|done]. by apply numbered_snoc.
Qed.

Lemma load_numbered (f : File) (lines : list string) :
  holds f lines -> NoDup (names lines) ->
  exists m, loadSequenceMap TrimSpace scan f = (m, false)
            /\ numbered (names lines) m.
Proof.
  intros [[-> ->]|(text & -> & Hs)] Hd.
  - exists ∅. split; [done|]. apply numbered_nil.
  - simpl. rewrite Hs.
    destruct (scanned_numbered lines [] ∅ numbered_nil Hd) as (m' & Hf & Hn).
    exists m'. simpl in Hf. rewrite Hf. done.
Qed.

Lemma placeItems_ok (entries : list (string * nat)) :
  forall items : list string,
    Forall (fun e => (e.2 < length items)%nat) entries ->
    exists items',
      placeItems items entries = Some items'
      /\ length items' = length items
      /\ (forall i, i ∉ entries.*2 -> items' !! i = items !! i)
      /\ (NoDup entries.*2 ->
          forall x i, (x, i) ∈ entries -> items' !! i = Some x).
Proof.
  induction entries as [|[name seq] rest IH]; intros items Hall.
  - exists items. repeat split; try done. intros _ x i Hin.
    by apply elem_of_nil in Hin.
  - apply Forall_cons in Hall as [Hseq Hall]. simpl in Hseq. simpl.
    apply Nat.ltb_lt in Hseq as Hb. rewrite Hb.
    destruct (IH (<[seq := name]> items)) as (items' & Hp & Hlen & Hout & Hin).
    { eapply Forall_impl; [exact Hall|]. intros e. by rewrite length_insert. }
    exists items'. split; [done|]. split; [by rewrite Hlen, length_insert|].
    split.
    + intros i Hi. simpl in Hi.
      apply not_elem_of_cons in Hi as [Hne Hi].
      rewrite Hout by done. by apply list_lookup_insert_ne.
    + intros Hd x i Hx. simpl in Hd.
      apply NoDup_cons in Hd as [Hfresh Hd].
      apply elem_of_cons in Hx as [[= -> ->]|Hx].
      * rewrite Hout by done. by apply list_lookup_insert_eq.
      * by apply Hin.
Qed.

Lemma save_numbered (d : Disk) (k : list string) (m : gmap string nat) :
  (forall m', iter m' ≡ₚ map_to_list m') ->
  numbered k m -> NoDup k -> createFails d = false ->
  saveSequenceMap iter d m = SaveOk (mkDisk (Content (written k)) false).
Proof.
  intros Hiter Hn Hd Hc. unfold saveSequenceMap.
  pose proof (numbered_size k m Hn Hd) as Hsize.
  assert (Hentry : forall x i, (x, i) ∈ iter m <-> k !! i = Some x).
  { intros x i. rewrite (Hiter m), elem_of_map_to_list. apply Hn. }
  destruct (placeItems_ok (iter m) (replicate (size m) ""%string))
    as (items & -> & Hlen & _ & Hin).
  { apply Forall_forall. intros [x i] Hx. simpl. rewrite length_replicate, Hsize.
    apply Hentry in Hx. by apply lookup_lt_Some in Hx. }
  rewrite Hc. rewrite length_replicate, Hsize in Hlen.
  assert (items = k) as ->; [|done].
  apply list_eq. intros i. destruct (k !! i) as [x|] eqn:E.
  - apply Hin; [|by apply Hentry].
    apply NoDup_fmap_2_strong.
    + intros [x1 i1] [x2 i2] H1 H2. simpl. intros <-.
      apply Hentry in H1, H2. congruence.
    + rewrite (Hiter m). apply NoDup_map_to_list.
  - apply lookup_ge_None in E. apply lookup_ge_None. lia.
Qed.

Lemma names_nonempty (lines : list string) : ""%string ∉ names lines.
Proof.
  unfold names. intros Hin. apply list_elem_of_In, List.filter_In in Hin as [_ Hin].
  done.
Qed.

Lemma written_empty_last (k : list string) :
  written (k ++ [""%string]) = written k.
Proof.
  induction k as [|x k IH]; simpl; [done|].
  destruct (isEmpty x); [done|]. by rewrite IH.
Qed.

Lemma assign_known (d : Disk) (m : gmap string nat) (name : string) (i : nat) :
  loadSequenceMap TrimSpace scan (file d) = (m, false) ->
  m !! name = Some i ->
  getOrAssignSequence TrimSpace scan iter d name = (Sequence i, d).
Proof. intros Hl Hi. unfold getOrAssignSequence. by rewrite Hl, Hi. Qed.

Lemma assign_new (d : Disk) (k : list string) (m : gmap string nat)
    (name : string) :
  (forall m', iter m' ≡ₚ map_to_list m') ->
  loadSequenceMap TrimSpace scan (file d) = (m, false) ->
  numbered k m -> NoDup k -> createFails d = false -> name ∉ k ->
  getOrAssignSequence TrimSpace scan iter d name
  = (Sequence (length k), mkDisk (Content (written (k ++ [name]))) false).
Proof.
  intros Hiter Hl Hn Hd Hc Hnew. unfold getOrAssignSequence. rewrite Hl.
  rewrite (numbered_fresh _ _ _ Hn Hnew).
  rewrite (numbered_size _ _ Hn Hd).
  rewrite (save_numbered d (k ++ [name])); try done.
  - by apply numbered_snoc.
  - apply NoDup_app. split; [done|]. split; [|apply NoDup_singleton].
    intros x Hx Hx'. apply list_elem_of_singleton in Hx' as ->. done.
Qed.

(** X19. Loading a sequence file whose names (its trimmed, non-blank
    lines) are distinct, or a file that does not exist, returns no error
    and the map that gives each name its position among the names,
    counted from 0, and holds nothing else. *)
Theorem loaded_positions (f : File) (lines : list string) :
  holds f lines -> NoDup (names lines) ->
  (loadSequenceMap TrimSpace scan f).2 = false
  /\ forall name i,
       (loadSequenceMap TrimSpace scan f).1 !! name = Some i
       <-> names lines !! i = Some name.
Proof.
  intros Hh Hd. destruct (load_numbered _ _ Hh Hd) as (m & -> & Hn). done.
Qed.

(** X20. Asking for the sequence of a name the file already lists
    returns the position of its line among the names and writes nothing:
    the disk is unchanged, even when the file could not be created. *)
Theorem known_name_sequence (d : Disk) (lines : list string)
    (name : string) (i : nat) :
  holds (file d) lines -> NoDup (names lines) ->
  names lines !! i = Some name ->
  getOrAssignSequence TrimSpace scan iter d name = (Sequence i, d).
Proof.
  intros Hh Hd Hi. destruct (load_numbered _ _ Hh Hd) as (m & Hl & Hn).
  apply (assign_known d m); [done|]. by apply Hn.
Qed.

(** X21. Asking for the sequence of a name the file does not list
    returns the number of names so far, and rewrites the file as the old
    names in their order followed by the new one, whatever the order in
    which the map is ranged over. *)
Theorem new_name_appended (d : Disk) (lines : list string) (name : string) :
  (forall m, iter m ≡ₚ map_to_list m) ->
  holds (file d) lines -> NoDup (names lines) -> createFails d = false ->
  name ∉ names lines ->
  getOrAssignSequence TrimSpace scan iter d name
  = (Sequence (length (names lines)),
     mkDisk (Content (written (names lines ++ [name]))) false).
Proof.
  intros Hiter Hh Hd Hc Hnew.
  destruct (load_numbered _ _ Hh Hd) as (m & Hl & Hn).
  by apply (assign_new d (names lines) m).
Qed.

(** X22. Once a new name has been given a sequence, and the text written
    scans back into the names written, asking again returns the same
    sequence and every older name keeps its own; neither call writes. *)
Theorem assigned_sequence_stable (d : Disk) (lines lines' : list string)
    (name : string) :
  (forall m, iter m ≡ₚ map_to_list m) ->
  holds (file d) lines -> NoDup (names lines) -> createFails d = false ->
  name ∉ names lines ->
  scan (written (names lines ++ [name])) = (lines', false) ->
  names lines' = names lines ++ [name] ->
  let d1 := (getOrAssignSequence TrimSpace scan iter d name).2 in
  getOrAssignSequence TrimSpace scan iter d1 name
  = (Sequence (length (names lines)), d1)
  /\ forall old i,
       names lines !! i = Some old ->
       getOrAssignSequence TrimSpace scan iter d1 old = (Sequence i, d1).
Proof.
  intros Hiter Hh Hd Hc Hnew Hs Hl d1. subst d1.
  destruct (load_numbered _ _ Hh Hd) as (m & Hm & Hn).
  rewrite (assign_new d (names lines) m) by done. simpl.
  set (d1 := mkDisk (Content (written (names lines ++ [name]))) false).
  assert (Hd1 : NoDup (names lines')).
  { rewrite Hl. apply NoDup_app. split; [done|]. split; [|apply NoDup_singleton].
    intros x Hx Hx'. apply list_elem_of_singleton in Hx' as ->. done. }
  destruct (load_numbered (file d1) lines') as (m1 & Hm1 & Hn1);
    [right; by eexists|done|].
  rewrite Hl in Hn1. split.
  - apply (assign_known d1 m1); [done|].
    apply Hn1. by rewrite list_lookup_middle.
  - intros old i Hi. apply (assign_known d1 m1); [done|].
    apply Hn1. by apply lookup_app_l_Some.
Qed.

(** X23. The empty name is given a sequence that is never written down:
    the file is rewritten with the old names only, so the next new name
    is given the same sequence. *)
Theorem empty_name_sequence_reused (d : Disk) (lines lines' : list string)
    (other : string) :
  (forall m, iter m ≡ₚ map_to_list m) ->
  holds (file d) lines -> NoDup (names lines) -> createFails d = false ->
  scan (written (names lines)) = (lines', false) ->
  names lines' = names lines ->
  other ≠ ""%string -> other ∉ names lines ->
  let d1 := mkDisk (Content (written (names lines))) false in
  getOrAssignSequence TrimSpace scan iter d ""
  = (Sequence (length (names lines)), d1)
  /\ (getOrAssignSequence TrimSpace scan iter d1 other).1
     = Sequence (length (names lines)).
Proof.
  intros Hiter Hh Hd Hc Hs Hl Hne Hnew d1.
  destruct (load_numbered _ _ Hh Hd) as (m & Hm & Hn). split.
  - rewrite (assign_new d (names lines) m); try done; [|apply names_nonempty].
    by rewrite written_empty_last.
  - destruct (load_numbered (file d1) lines') as (m1 & Hm1 & Hn1);
      [right; by eexists|by rewrite Hl|].
    rewrite Hl in Hn1.
    by rewrite (assign_new d1 (names lines) m1).
Qed.

(** Without the assumption that the names are distinct: a sequence in
    the map is a position of its name, and the last name has the last
    position. *)
Definition indexed (k : list string) (m : gmap string nat) : Prop :=
  (forall x i, m !! x = Some i -> k !! i = Some x)
  /\ (forall x, last k = Some x -> m !! x = Some (length k - 1)%nat).

Lemma indexed_snoc (k : list string) (m : gmap string nat) (t : string) :
  indexed k m -> indexed (k ++ [t]) (<[t := length k]> m).
Proof.
  intros [Hpos _]. split.
  - intros x i. destruct (decide (x = t)) as [->|Hne].
    + rewrite lookup_insert_eq. intros [= <-]. by rewrite list_lookup_middle.
    + rewrite lookup_insert_ne by done. intros Hi.
      by apply lookup_app_l_Some, Hpos.
  - intros x. rewrite last_snoc. intros [= <-]. rewrite lookup_insert_eq.
    rewrite length_app. simpl. f_equal. lia.
Qed.

Lemma scanned_indexed (lines : list string) :
  forall (k : list string) (m : gmap string nat),
    indexed k m ->
    exists m',
      foldl (scanLine TrimSpace) (m, length k) lines
      = (m', length (k ++ names lines))
      /\ indexed (k ++ names lines) m'.
Proof.
  induction lines as [|line lines IH]; intros k m Hi.
  - simpl. rewrite app_nil_r. by exists m.
  - simpl. unfold names in *. simpl in *.
    destruct (isEmpty (TrimSpace line)) eqn:E; simpl in *.
    + by apply IH.
    + rewrite (cons_middle _ k). rewrite app_assoc.
      replace (S (length k)) with (length (k ++ [TrimSpace line]))
        by (rewrite length_app; simpl; lia).
      apply IH. by apply indexed_snoc.
Qed.

Lemma load_indexed (f : File) (lines : list string) :
  holds f lines ->
  exists m, loadSequenceMap TrimSpace scan f = (m, false)
            /\ indexed (names lines) m.
Proof.
  assert (H0 : indexed [] ∅).
  { split; [intros x i|intros x]; [by rewrite lookup_empty|done]. }
  intros [[-> ->]|(text & -> & Hs)].
  - by exists ∅.
  - simpl. rewrite Hs.
    destruct (scanned_indexed lines [] ∅ H0) as (m' & Hf & Hn).
    exists m'. simpl in Hf. rewrite Hf. done.
Qed.

Lemma positions_size (k : list string) (m : gmap string nat) :
  (forall x i, m !! x = Some i -> k !! i = Some x) ->
  (size m <= length k)%nat /\ (size m = length k -> NoDup k).
Proof.
  intros Hpos.
  assert (Hnd : NoDup (map_to_list m).*2).
  { apply NoDup_fmap_2_strong; [|apply NoDup_map_to_list].
    intros [x1 i1] [x2 i2] H1 H2. simpl. intros <-.
    apply elem_of_map_to_list, Hpos in H1, H2. congruence. }
  assert (Hsub : (map_to_list m).*2 ⊆+ seq 0 (length k)).
  { apply NoDup_submseteq; [done|]. intros i Hi.
    apply list_elem_of_fmap in Hi as ([x i'] & -> & Hi). simpl.
    apply elem_of_map_to_list, Hpos, lookup_lt_Some in Hi.
    apply elem_of_seq. lia. }
  assert (Hlen : length (map_to_list m).*2 = size m).
  { by rewrite length_fmap, length_map_to_list. }
  split.
  - apply submseteq_length in Hsub. rewrite length_seq in Hsub. lia.
  - intros Hsize. apply submseteq_length_Permutation in Hsub;
      [|rewrite length_seq; lia].
    assert (Hall : forall i x, k !! i = Some x -> m !! x = Some i).
    { intros i x Hi. assert (Hin : i ∈ (map_to_list m).*2).
      { rewrite Hsub. apply elem_of_seq. apply lookup_lt_Some in Hi. lia. }
      apply list_elem_of_fmap in Hin as ([y i'] & -> & Hin). simpl in *.
      apply elem_of_map_to_list in Hin. pose proof (Hpos _ _ Hin). congruence. }
    apply NoDup_alt. intros i j x Hi Hj.
    apply Hall in Hi, Hj. congruence.
Qed.

Lemma placeItems_bound (entries : list (string * nat)) :
  forall items items' : list string,
    placeItems items entries = Some items' ->
    Forall (fun e => (e.2 < length items)%nat) entries.
Proof.
  induction entries as [|[name seq] rest IH]; intros items items' Hp; [done|].
  simpl in Hp. destruct (seq <? length items)%nat eqn:E; [|done].
  apply Nat.ltb_lt in E. constructor; [done|].
  apply IH in Hp. eapply Forall_impl; [exact Hp|].
  intros e. by rewrite length_insert.
Qed.

(** X24. When a line of the file repeats a name, a new name is never
    given a sequence of its own: whenever the call returns a sequence for
    it, the map read from the file holds that sequence for another
    name. *)
Theorem duplicate_line_no_fresh_sequence (d d' : Disk) (lines : list string)
    (name : string) (seq : nat) :
  (forall m, iter m ≡ₚ map_to_list m) ->
  holds (file d) lines -> ~ NoDup (names lines) -> name ∉ names lines ->
  getOrAssignSequence TrimSpace scan iter d name = (Sequence seq, d') ->
  exists other,
    other ≠ name /\ other ∈ names lines
    /\ (loadSequenceMap TrimSpace scan (file d)).1 !! other = Some seq.
Proof.
  intros Hiter Hh Hdup Hnew. unfold getOrAssignSequence, saveSequenceMap.
  destruct (load_indexed _ _ Hh) as (m & -> & Hpos & Hlast). simpl.
  destruct (m !! name) as [i|] eqn:Hname.
  { apply Hpos, list_elem_of_lookup_2 in Hname. done. }
  destruct (placeItems _ _) as [items|] eqn:Hp; [|done].
  destruct (createFails d); [done|]. intros [= <- _].
  apply placeItems_bound in Hp. rewrite length_replicate in Hp.
  rewrite map_size_insert_None in Hp by done.
  destruct (positions_size _ _ Hpos) as [Hle Heq].
  destruct (last (names lines)) as [x|] eqn:Hx.
  - assert (Hin : x ∈ names lines).
    { apply last_Some in Hx as [l' ->]. apply elem_of_app. right. by left. }
    assert (Hne : x ≠ name) by (by intros ->).
    specialize (Hlast x eq_refl).
    exists x. split; [done|]. split; [done|]. rewrite Hlast. f_equal.
    assert (Hentry : (x, (length (names lines) - 1)%nat)
                     ∈ iter (<[name := size m]> m)).
    { rewrite Hiter. apply elem_of_map_to_list.
      by rewrite lookup_insert_ne. }
    eapply Forall_forall in Hp; [|exact Hentry]. simpl in Hp.
    destruct (decide (size m = length (names lines))) as [Hs|Hs];
      [by apply Heq in Hs|]. lia.
  - apply last_None in Hx. rewrite Hx in Hdup. destruct Hdup. constructor.
Qed.

End SequenceFacts.

Ltac decided := refine (bool_decide_unpack _ _); vm_compute; exact I.

Definition demoDisk : Disk :=
  mkDisk (Content (String.append "algebra"
            (String.append newline
               (String.append newline
                  (String.append "  geometry " newline))))) false.

Definition demoLines : list string := ["algebra"; ""; "  geometry "]%string.

Definition repeatedDisk : Disk :=
  mkDisk (Content (String.append "algebra"
            (String.append newline (String.append "algebra" newline)))) false.

Lemma loaded_positions_witness :
  (loadSequenceMap Go.asciiTrimSpace scanLines (file demoDisk)).2 = false
  /\ forall name i,
       (loadSequenceMap Go.asciiTrimSpace scanLines (file demoDisk)).1 !! name
       = Some i
       <-> names Go.asciiTrimSpace demoLines !! i = Some name.
Proof.
  apply (loaded_positions Go.asciiTrimSpace scanLines (file demoDisk) demoLines).
  - right. eexists. split; reflexivity.
  - decided.
Defined.

Lemma known_name_sequence_witness :
  getOrAssignSequence Go.asciiTrimSpace scanLines map_to_list demoDisk "geometry"
  = (Sequence 1, demoDisk).
Proof.
  apply (known_name_sequence Go.asciiTrimSpace scanLines map_to_list
           demoDisk demoLines "geometry" 1).
  - right. eexists. split; reflexivity.
  - decided.
  - reflexivity.
Defined.

Lemma new_name_appended_witness :
  getOrAssignSequence Go.asciiTrimSpace scanLines map_to_list demoDisk "calculus"
  = (Sequence (length (names Go.asciiTrimSpace demoLines)),
     mkDisk (Content (written (names Go.asciiTrimSpace demoLines ++ ["calculus"%string])))
       false).
Proof.
  apply (new_name_appended Go.asciiTrimSpace scanLines map_to_list
           demoDisk demoLines "calculus").
  - done.
  - right. eexists. split; reflexivity.
  - decided.
  - reflexivity.
  - decided.
Defined.

Lemma assigned_sequence_stable_witness :
  let d1 := (getOrAssignSequence Go.asciiTrimSpace scanLines map_to_list
               demoDisk "calculus").2 in
  getOrAssignSequence Go.asciiTrimSpace scanLines map_to_list d1 "calculus"
  = (Sequence (length (names Go.asciiTrimSpace demoLines)), d1)
  /\ forall old i,
       names Go.asciiTrimSpace demoLines !! i = Some old ->
       getOrAssignSequence Go.asciiTrimSpace scanLines map_to_list d1 old
       = (Sequence i, d1).
Proof.
  apply (assigned_sequence_stable Go.asciiTrimSpace scanLines map_to_list
           demoDisk demoLines ["algebra"; "geometry"; "calculus"]%string
           "calculus").
  - done.
  - right. eexists. split; reflexivity.
  - decided.
  - reflexivity.
  - decided.
  - vm_compute. reflexivity.
  - vm_compute. reflexivity.
Defined.

Lemma empty_name_sequence_reused_witness :
  let d1 := mkDisk (Content (written (names Go.asciiTrimSpace demoLines))) false in
  getOrAssignSequence Go.asciiTrimSpace scanLines map_to_list demoDisk ""
  = (Sequence (length (names Go.asciiTrimSpace demoLines)), d1)
  /\ (getOrAssignSequence Go.asciiTrimSpace scanLines map_to_list d1 "calculus").1
     = Sequence (length (names Go.asciiTrimSpace demoLines)).
Proof.
  apply (empty_name_sequence_reused Go.asciiTrimSpace scanLines map_to_list
           demoDisk demoLines ["algebra"; "geometry"]%string "calculus").
  - done.
  - right. eexists. split; reflexivity.
  - decided.
  - reflexivity.
  - vm_compute. reflexivity.
  - vm_compute. reflexivity.
  - discriminate.
  - decided.
Defined.

Lemma duplicate_line_no_fresh_sequence_witness :
  exists other,
    other ≠ "geometry"%string
    /\ other ∈ names Go.asciiTrimSpace ["algebra"; "algebra"]%string
    /\ (loadSequenceMap Go.asciiTrimSpace scanLines (file repeatedDisk)).1 !! other
       = Some 1%nat.
Proof.
  eapply (duplicate_line_no_fresh_sequence Go.asciiTrimSpace scanLines map_to_list
            repeatedDisk _ ["algebra"; "algebra"]%string "geometry" 1).
  - done.
  - right. eexists. split; reflexivity.
  - decided.
  - decided.
  - vm_compute. reflexivity.
Defined.

(** With a name on three lines the next new name is not given a
    sequence at all: the slice of the names is too short for the last
    position and the index panics. *)
Example repeated_lines_panic :
  (getOrAssignSequence Go.asciiTrimSpace scanLines map_to_list
     (mkDisk (Content (written ["algebra"; "algebra"; "algebra"]%string)) false)
     "geometry").1
  = IndexPanic.
Proof. vm_compute. reflexivity. Qed.

End SequenceFacts.
